(** * rclouned: the reconciliation engine and the sync cycle of [sync.py]

    A shallow embedding of the [Sync] class and of [sync_loop], with the
    properties of the planning step ([Sync.sort]), of the executor
    ([Sync.action]) and of the cycle driver.

    Conventions of the embedding.
    - Python [str] values are Rocq strings; [a + b] on strings is [a +++ b].
    - [time.struct_time] is the 9-field tuple it is in Python, compared
      lexicographically like any tuple.
    - A Python [dict] is an insertion-ordered association list ([PyDict]):
      [keys()] order is observable in the source (it is written to files).
    - An exception is a value of [exn]; fallible pure code returns
      [result A]; code with effects lives in the monad [M] over [world]. *)

From Stdlib Require Import List String Ascii ZArith QArith Qround Bool Lia.
Import ListNotations.

Local Open Scope Z_scope.
Local Open Scope list_scope.

Notation "a +++ b" := (String.append a b)
  (at level 60, right associativity) : string_scope.
Local Open Scope string_scope.
Local Open Scope list_scope.

(** ** Python values used by the program *)

(** [time.struct_time]: a tuple of nine integers. *)
Record struct_time := mk_time {
  tm_year : Z; tm_mon : Z; tm_mday : Z;
  tm_hour : Z; tm_min : Z; tm_sec : Z;
  tm_wday : Z; tm_yday : Z; tm_isdst : Z
}.

Definition time_tuple (t : struct_time) : list Z :=
  [tm_year t; tm_mon t; tm_mday t; tm_hour t; tm_min t; tm_sec t;
   tm_wday t; tm_yday t; tm_isdst t].

(** Tuple comparison: the first differing item decides, then the length. *)
Fixpoint tuple_compare (a b : list Z) : comparison :=
  match a, b with
  | [], [] => Eq
  | [], _ :: _ => Lt
  | _ :: _, [] => Gt
  | x :: a', y :: b' =>
      match Z.compare x y with
      | Eq => tuple_compare a' b'
      | c => c
      end
  end.

(** [a >= b] and [a < b] on [struct_time]. *)
Definition time_ge (a b : struct_time) : bool :=
  match tuple_compare (time_tuple a) (time_tuple b) with
  | Lt => false
  | _ => true
  end.

Definition time_lt (a b : struct_time) : bool :=
  match tuple_compare (time_tuple a) (time_tuple b) with
  | Lt => true
  | _ => false
  end.

(** The exceptions the program can meet. *)
Inductive exn :=
| KeyError (key : string)
| TypeError
| ValueError
| IndexError
| FileNotFoundError (path : string)
| OSError (path : string)
| CalledProcessError (cmd : list string) (returncode : Z)
| ConfigException (msg : string)
| SyncException (msg : string)
| KeyboardInterrupt
| SystemExit (code : Z).

(** A pure computation that may raise. *)
Inductive result (A : Type) :=
| Ok (a : A)
| Raise (e : exn).
Arguments Ok {A} a.
Arguments Raise {A} e.

Definition rbind {A B} (r : result A) (k : A -> result B) : result B :=
  match r with
  | Ok a => k a
  | Raise e => Raise e
  end.

Notation "x <~ r ; k" := (rbind r (fun x => k))
  (at level 61, r at next level, right associativity).

(** [a and b] on fallible conditions: [b] is evaluated only when [a] is true. *)
Definition and_then (a b : result bool) : result bool :=
  x <~ a; if x then b else Ok false.

(** [for x in xs: body]. *)
Fixpoint for_each {A S} (xs : list A) (body : A -> S -> result S) (s : S)
  : result S :=
  match xs with
  | [] => Ok s
  | x :: rest => s' <~ body x s; for_each rest body s'
  end.

(** Insertion-ordered dictionaries with string keys. *)
Module PyDict.

Definition t (V : Type) := list (string * V).

Definition empty {V} : t V := [].

Fixpoint get {V} (d : t V) (k : string) : option V :=
  match d with
  | [] => None
  | (k', v) :: rest => if String.eqb k' k then Some v else get rest k
  end.

(** [d[k] = v]: an existing key keeps its position. *)
Fixpoint set {V} (d : t V) (k : string) (v : V) : t V :=
  match d with
  | [] => [(k, v)]
  | (k', v') :: rest =>
      if String.eqb k' k then (k', v) :: rest
      else (k', v') :: set rest k v
  end.

Definition keys {V} (d : t V) : list string := map fst d.

End PyDict.

(** ** The configuration and the [Sync] object *)

Record config := mk_config {
  folder : string;
  remote : string;
  subdir : string;
  options : string;
  interval : Q;
  dryrun : bool;
  careful : bool
}.

(** A modtime table: the value is [None] until the listing fills it in. *)
Definition modtimes := PyDict.t (option struct_time).

Record Sync := mk_sync {
  configuration : config;
  lastsync : struct_time;
  syncstart : string;
  diff : list string;
  dst : list string;
  src : list string;
  local_check : modtimes;
  remote_check : modtimes;
  upload : list string;
  download : list string;
  local_move : list (string * string);
  local_backup : list string;
  remote_backup : list string
}.

Definition set_upload (v : list string) (s : Sync) : Sync :=
  mk_sync (configuration s) (lastsync s) (syncstart s) (diff s) (dst s) (src s)
    (local_check s) (remote_check s)
    v (download s) (local_move s) (local_backup s) (remote_backup s).

Definition set_download (v : list string) (s : Sync) : Sync :=
  mk_sync (configuration s) (lastsync s) (syncstart s) (diff s) (dst s) (src s)
    (local_check s) (remote_check s)
    (upload s) v (local_move s) (local_backup s) (remote_backup s).

Definition set_local_move (v : list (string * string)) (s : Sync) : Sync :=
  mk_sync (configuration s) (lastsync s) (syncstart s) (diff s) (dst s) (src s)
    (local_check s) (remote_check s)
    (upload s) (download s) v (local_backup s) (remote_backup s).

Definition set_local_backup (v : list string) (s : Sync) : Sync :=
  mk_sync (configuration s) (lastsync s) (syncstart s) (diff s) (dst s) (src s)
    (local_check s) (remote_check s)
    (upload s) (download s) (local_move s) v (remote_backup s).

Definition set_remote_backup (v : list string) (s : Sync) : Sync :=
  mk_sync (configuration s) (lastsync s) (syncstart s) (diff s) (dst s) (src s)
    (local_check s) (remote_check s)
    (upload s) (download s) (local_move s) (local_backup s) v.

(** ** [Sync.sort]: the planning step *)

(** [table[file] >= self.lastsync]: [KeyError] when the key is absent,
    [TypeError] when the value is still [None]. *)
Definition modtime_ge (table : modtimes) (file : string) (ls : struct_time)
  : result bool :=
  match PyDict.get table file with
  | None => Raise (KeyError file)
  | Some None => Raise TypeError
  | Some (Some t) => Ok (time_ge t ls)
  end.

Definition modtime_lt (table : modtimes) (file : string) (ls : struct_time)
  : result bool :=
  match PyDict.get table file with
  | None => Raise (KeyError file)
  | Some None => Raise TypeError
  | Some (Some t) => Ok (time_lt t ls)
  end.

(** The suffix is built once, before the loops, from the current time
    formatted with ["%Y%m%d-%H%M%S"] ([stamp]). *)
Definition conflict_suffix_of (stamp : string) : string := "_conflict-" +++ stamp.

(** Body of [for file in self.diff]. *)
Definition sort_diff_file (conflict_suffix : string) (file : string) (s : Sync)
  : result Sync :=
  c1 <~ and_then (modtime_ge (local_check s) file (lastsync s))
                 (modtime_lt (remote_check s) file (lastsync s));
  if c1 then
    let s := set_upload (upload s ++ [file]) s in
    if careful (configuration s)
    then Ok (set_remote_backup (remote_backup s ++ [file]) s)
    else Ok s
  else
    c2 <~ and_then (modtime_lt (local_check s) file (lastsync s))
                   (modtime_ge (remote_check s) file (lastsync s));
    if c2 then
      let s := set_download (download s ++ [file]) s in
      if careful (configuration s)
      then Ok (set_local_backup (local_backup s ++ [file]) s)
      else Ok s
    else
      let s := set_local_move (local_move s ++ [(file, file +++ conflict_suffix)]) s in
      let s := set_download (download s ++ [file]) s in
      Ok (set_upload (upload s ++ [file +++ conflict_suffix]) s).

(** Body of [for file in self.src] (missing on remote). *)
Definition sort_src_file (file : string) (s : Sync) : result Sync :=
  c <~ modtime_ge (local_check s) file (lastsync s);
  if c then Ok (set_upload (upload s ++ [file]) s)
  else Ok (set_local_backup (local_backup s ++ [file]) s).

(** Body of [for file in self.dst] (missing on local). *)
Definition sort_dst_file (file : string) (s : Sync) : result Sync :=
  c <~ modtime_ge (remote_check s) file (lastsync s);
  if c then Ok (set_download (download s ++ [file]) s)
  else Ok (set_remote_backup (remote_backup s ++ [file]) s).

Definition sort (stamp : string) (s : Sync) : result Sync :=
  let conflict_suffix := conflict_suffix_of stamp in
  let s := set_upload [] s in
  let s := set_download [] s in
  let s := set_local_move [] s in
  let s := set_local_backup [] s in
  let s := set_remote_backup [] s in
  s <~ for_each (diff s) (sort_diff_file conflict_suffix) s;
  s <~ for_each (src s) sort_src_file s;
  for_each (dst s) sort_dst_file s.

(** ** Closed form of the plan (used by the proofs about [sort]) *)

(** The three branches of the [if]/[elif]/[else] over a differing path. *)
Inductive verdict := LocalOnly | RemoteOnly | Conflict.

Definition classify (ls lt rt : struct_time) : verdict :=
  if time_ge lt ls && time_lt rt ls then LocalOnly
  else if time_lt lt ls && time_ge rt ls then RemoteOnly
  else Conflict.

(** The modtime of [file] when the table has one. *)
Definition known (table : modtimes) (file : string) : option struct_time :=
  match PyDict.get table file with
  | Some (Some t) => Some t
  | _ => None
  end.

Definition diff_verdict (s : Sync) (file : string) : option verdict :=
  match known (local_check s) file, known (remote_check s) file with
  | Some lt, Some rt => Some (classify (lastsync s) lt rt)
  | _, _ => None
  end.

(** What one iteration appends to each of the five lists. *)
Record delta := mk_delta {
  d_upload : list string;
  d_download : list string;
  d_local_move : list (string * string);
  d_local_backup : list string;
  d_remote_backup : list string
}.

Definition delta_nil : delta := mk_delta [] [] [] [] [].

Definition delta_app (a b : delta) : delta :=
  mk_delta (d_upload a ++ d_upload b) (d_download a ++ d_download b)
    (d_local_move a ++ d_local_move b)
    (d_local_backup a ++ d_local_backup b)
    (d_remote_backup a ++ d_remote_backup b).

Definition extend (s : Sync) (d : delta) : Sync :=
  mk_sync (configuration s) (lastsync s) (syncstart s) (diff s) (dst s) (src s)
    (local_check s) (remote_check s)
    (upload s ++ d_upload d) (download s ++ d_download d)
    (local_move s ++ d_local_move d)
    (local_backup s ++ d_local_backup d)
    (remote_backup s ++ d_remote_backup d).

Definition diff_delta (sfx : string) (c : bool) (v : verdict) (file : string)
  : delta :=
  match v with
  | LocalOnly => mk_delta [file] [] [] [] (if c then [file] else [])
  | RemoteOnly => mk_delta [] [file] [] (if c then [file] else []) []
  | Conflict => mk_delta [file +++ sfx] [file] [(file, file +++ sfx)] [] []
  end.

Definition src_delta (ge : bool) (file : string) : delta :=
  if ge then mk_delta [file] [] [] [] [] else mk_delta [] [] [] [file] [].

Definition dst_delta (ge : bool) (file : string) : delta :=
  if ge then mk_delta [] [file] [] [] [] else mk_delta [] [] [] [] [file].

Definition diff_deltas (sfx : string) (s : Sync) (files : list string) : delta :=
  fold_right (fun file acc =>
    match diff_verdict s file with
    | Some v => delta_app (diff_delta sfx (careful (configuration s)) v file) acc
    | None => acc
    end) delta_nil files.

Definition src_deltas (s : Sync) (files : list string) : delta :=
  fold_right (fun file acc =>
    match known (local_check s) file with
    | Some t => delta_app (src_delta (time_ge t (lastsync s)) file) acc
    | None => acc
    end) delta_nil files.

Definition dst_deltas (s : Sync) (files : list string) : delta :=
  fold_right (fun file acc =>
    match known (remote_check s) file with
    | Some t => delta_app (dst_delta (time_ge t (lastsync s)) file) acc
    | None => acc
    end) delta_nil files.

(** The object as [sort] leaves it when no lookup fails. *)
Definition sorted (stamp : string) (s : Sync) : Sync :=
  let sfx := conflict_suffix_of stamp in
  mk_sync (configuration s) (lastsync s) (syncstart s) (diff s) (dst s) (src s)
    (local_check s) (remote_check s)
    (d_upload (diff_deltas sfx s (diff s)) ++ d_upload (src_deltas s (src s)))
    (d_download (diff_deltas sfx s (diff s)) ++ d_download (dst_deltas s (dst s)))
    (d_local_move (diff_deltas sfx s (diff s)))
    (d_local_backup (diff_deltas sfx s (diff s)) ++ d_local_backup (src_deltas s (src s)))
    (d_remote_backup (diff_deltas sfx s (diff s)) ++ d_remote_backup (dst_deltas s (dst s))).

(** Every path the three loops look up has a modtime in the table they use. *)
Definition tables_complete (s : Sync) : Prop :=
  (forall f, In f (diff s) ->
             known (local_check s) f <> None /\ known (remote_check s) f <> None) /\
  (forall f, In f (src s) -> known (local_check s) f <> None) /\
  (forall f, In f (dst s) -> known (remote_check s) f <> None).

(** The three partitions of the diff are pairwise disjoint (data model). *)
Definition partitions_disjoint (s : Sync) : Prop :=
  (forall f, In f (diff s) -> ~ In f (src s) /\ ~ In f (dst s)) /\
  (forall f, In f (src s) -> ~ In f (dst s)).

Definition plan_empty (s : Sync) : Prop :=
  upload s = [] /\ download s = [] /\ local_move s = [] /\
  local_backup s = [] /\ remote_backup s = [].

(** ** The tested properties of the plan, as the specification words them

    Each is a statement over every input of [sort]; the theorems below say
    which of them the code satisfies. *)

(** A one-sided change is resolved towards the side that changed, with a
    backup of the overwritten side exactly in careful mode. *)
Definition one_sided_change_property : Prop :=
  forall stamp s s' p lt rt,
    sort stamp s = Ok s' -> partitions_disjoint s -> In p (diff s) ->
    PyDict.get (local_check s) p = Some (Some lt) ->
    PyDict.get (remote_check s) p = Some (Some rt) ->
    (time_ge lt (lastsync s) = true -> time_lt rt (lastsync s) = true ->
       In p (upload s') /\ ~ In p (download s') /\
       ~ In p (map fst (local_move s')) /\
       (In p (remote_backup s') <-> careful (configuration s) = true)) /\
    (time_lt lt (lastsync s) = true -> time_ge rt (lastsync s) = true ->
       In p (download s') /\ ~ In p (upload s') /\
       ~ In p (map fst (local_move s')) /\
       (In p (local_backup s') <-> careful (configuration s) = true)).

(** An orphan is propagated when it is newer than the last sync and is
    archived otherwise, whatever the careful flag. *)
Definition orphan_property : Prop :=
  forall stamp s s' p,
    sort stamp s = Ok s' -> partitions_disjoint s ->
    (In p (src s) -> forall lt,
       PyDict.get (local_check s) p = Some (Some lt) ->
       if time_ge lt (lastsync s)
       then In p (upload s') /\ ~ In p (local_backup s')
       else In p (local_backup s') /\ ~ In p (upload s')) /\
    (In p (dst s) -> forall rt,
       PyDict.get (remote_check s) p = Some (Some rt) ->
       if time_ge rt (lastsync s)
       then In p (download s') /\ ~ In p (remote_backup s')
       else In p (remote_backup s') /\ ~ In p (download s')).

(** The three shapes a differing path can take in a plan. *)
Definition upload_only (s' : Sync) (p : string) : Prop :=
  In p (upload s') /\ ~ In p (download s') /\ ~ In p (map fst (local_move s')).

Definition download_only (s' : Sync) (p : string) : Prop :=
  In p (download s') /\ ~ In p (upload s') /\ ~ In p (map fst (local_move s')).

Definition conflict_triple (sfx : string) (s' : Sync) (p : string) : Prop :=
  In (p, p +++ sfx) (local_move s') /\ In p (download s') /\
  In (p +++ sfx) (upload s').

Definition exactly_one_of (A B C : Prop) : Prop :=
  (A /\ ~ B /\ ~ C) \/ (~ A /\ B /\ ~ C) \/ (~ A /\ ~ B /\ C).

Definition one_shape_property : Prop :=
  forall stamp s s' p,
    sort stamp s = Ok s' -> partitions_disjoint s -> In p (diff s) ->
    exactly_one_of (upload_only s' p) (download_only s' p)
                   (conflict_triple (conflict_suffix_of stamp) s' p).

(** [self.lastsync = ...], as [load_last_sync] assigns it. *)
Definition set_lastsync (v : struct_time) (s : Sync) : Sync :=
  mk_sync (configuration s) v (syncstart s) (diff s) (dst s) (src s)
    (local_check s) (remote_check s)
    (upload s) (download s) (local_move s) (local_backup s) (remote_backup s).

(** Planning again over the same snapshot with a later [lastsync]. *)
Definition replanning_idempotence_property : Prop :=
  forall stamp stamp' cycle_start s s1 s2,
    sort stamp s = Ok s1 ->
    sort stamp' (set_lastsync cycle_start s) = Ok s2 ->
    plan_empty s2.

(** ** Sample data *)

(** 2024-01-01 (a Monday), 12:00 plus [sec] seconds, as [strptime] builds it. *)
Definition noon_plus (sec : Z) : struct_time := mk_time 2024 1 1 12 0 sec 0 1 (-1).

Definition T0 : struct_time := noon_plus 30.

Definition sample_config (dry c : bool) : config :=
  mk_config "/data/" "cloud" "" "" (90 # 1) dry c.

(** An object as it stands when [sort] is called. *)
Definition snapshot (cfg : config) (ls : struct_time)
    (differing missing_on_local missing_on_remote : list string)
    (local_times remote_times : modtimes) : Sync :=
  mk_sync cfg ls "2024-01-01 12:01:00" differing missing_on_local missing_on_remote
    local_times remote_times [] [] [] [] [].

Definition stamp0 : string := "20240101-120100".

(** Scenarios 1 to 5 of the specification, in one snapshot ([lastsync = T0]). *)
Definition scenario_times_local : modtimes :=
  [("a.txt", Some (noon_plus 40)); ("b.txt", Some (noon_plus 35));
   ("c.txt", Some (noon_plus 10)); ("d.txt", Some (noon_plus 31));
   ("e.txt", Some (noon_plus 31)); ("f.txt", Some (noon_plus 20))].

Definition scenario_times_remote : modtimes :=
  [("a.txt", Some (noon_plus 25)); ("b.txt", Some (noon_plus 38));
   ("e.txt", Some (noon_plus 29)); ("f.txt", Some (noon_plus 45));
   ("g.txt", Some (noon_plus 50)); ("h.txt", Some (noon_plus 5))].

Definition scenarios (c : bool) : Sync :=
  snapshot (sample_config false c) T0
    ["a.txt"; "b.txt"; "e.txt"; "f.txt"] ["g.txt"; "h.txt"] ["c.txt"; "d.txt"]
    scenario_times_local scenario_times_remote.

(** A differing path that bears the name the conflict rename of another
    differing path produces in this very cycle. *)
Definition renamed_a : string := "a.txt" +++ conflict_suffix_of stamp0.

Definition collision_in_diff : Sync :=
  snapshot (sample_config false false) T0
    ["a.txt"; renamed_a] [] []
    [("a.txt", Some (noon_plus 35)); (renamed_a, Some (noon_plus 29))]
    [("a.txt", Some (noon_plus 38)); (renamed_a, Some (noon_plus 31))].

(** The same name, this time missing on the remote and older than lastsync. *)
Definition collision_in_src : Sync :=
  snapshot (sample_config false false) T0
    ["a.txt"] [] [renamed_a]
    [("a.txt", Some (noon_plus 35)); (renamed_a, Some (noon_plus 29))]
    [("a.txt", Some (noon_plus 38))].

(** Scenario 1 alone; the cycle started at 12:01:00. *)
Definition one_upload : Sync :=
  snapshot (sample_config false false) T0 ["a.txt"] [] []
    [("a.txt", Some (noon_plus 40))] [("a.txt", Some (noon_plus 25))].

Definition one_upload_cycle_start : struct_time := mk_time 2024 1 1 12 1 0 0 1 (-1).

(** ** Text processing *)

Definition code (c : ascii) : N := N_of_ascii c.

(** The ASCII line boundaries of [str.splitlines]. *)
Definition is_linebreak (c : ascii) : bool :=
  let n := code c in
  ((10 <=? n) && (n <=? 13) || (28 <=? n) && (n <=? 30))%N.

(** The ASCII whitespace of [str.strip]. *)
Definition is_space (c : ascii) : bool :=
  let n := code c in
  ((9 <=? n) && (n <=? 13) || (28 <=? n) && (n <=? 32))%N.

Fixpoint splitlines_from (cur s : string) : list string :=
  match s with
  | EmptyString => match cur with EmptyString => [] | _ => [cur] end
  | String c rest =>
      if is_linebreak c then
        cur :: match rest with
               | EmptyString => []
               | String c' rest' =>
                   if ((code c =? 13) && (code c' =? 10))%N
                   then splitlines_from EmptyString rest'
                   else splitlines_from EmptyString rest
               end
      else splitlines_from (cur +++ String c EmptyString) rest
  end.

Definition splitlines (s : string) : list string := splitlines_from EmptyString s.

Fixpoint lstrip (s : string) : string :=
  match s with
  | EmptyString => EmptyString
  | String c rest => if is_space c then lstrip rest else s
  end.

Fixpoint rstrip (s : string) : string :=
  match s with
  | EmptyString => EmptyString
  | String c rest =>
      match rstrip rest with
      | EmptyString => if is_space c then EmptyString else String c EmptyString
      | kept => String c kept
      end
  end.

Definition strip (s : string) : string := rstrip (lstrip s).

(** [s.split(sep)] with a one-character separator. *)
Fixpoint split_from (sep : ascii) (cur s : string) : list string :=
  match s with
  | EmptyString => [cur]
  | String c rest =>
      if Ascii.eqb c sep then cur :: split_from sep EmptyString rest
      else split_from sep (cur +++ String c EmptyString) rest
  end.

Definition split_on (sep : ascii) (s : string) : list string :=
  split_from sep EmptyString s.

(** [sep.join(xs)]. *)
Definition join (sep : string) (xs : list string) : string := String.concat sep xs.

Definition newline : string := String (ascii_of_N 10) EmptyString.

(** ** The world outside the interpreter *)

(** The paths that exist under the local folder and under the remote. *)
Record storage := mk_storage {
  local_paths : list string;
  remote_paths : list string
}.

(** The files of the lock directory [.rclouned/sync.tmp/], by name. *)
Definition files := PyDict.t string.

Fixpoint remove_key {V} (d : PyDict.t V) (k : string) : PyDict.t V :=
  match d with
  | [] => []
  | (k', v) :: rest =>
      if String.eqb k' k then remove_key rest k else (k', v) :: remove_key rest k
  end.

Definition write_all (d : files) (new : list (string * string)) : files :=
  fold_left (fun acc kv => PyDict.set acc (fst kv) (snd kv)) new d.

(** A finished child process: its exit status and output, the files it
    left in the lock directory, and the storage as it left it. *)
Record completed := mk_completed {
  returncode : Z;
  stdout : string;
  written : list (string * string);
  storage_after : storage
}.

Inductive spawned :=
| NoSuchProgram
| Completed (c : completed).

(** Everything the program asks of its environment. The [nat] argument is
    the instant of the request: the number of requests made before it. *)
Record environment := mk_environment {
  strftime : string -> nat -> string;
  time_time : nat -> Q;
  strptime : string -> option struct_time;
  localtime_0 : struct_time;
  subprocess : nat -> list string -> files -> storage -> spawned;
  interrupt : nat -> bool;
  folder_exists : string -> bool;
  isdir : string -> bool;
  isfile : string -> bool;
  yaml_merge : string -> config -> result config
}.

Inductive level := DEBUG | INFO | WARNING | ERROR | CRITICAL.

Inductive pyval :=
| PStr (s : string)
| PInt (z : Z)
| PFloat (q : Q)
| PStrs (l : list string)
| PPairs (l : list (string * string)).

(** A log message: literal text, [str(v)] of a value, or exception info. *)
Inductive part :=
| Lit (s : string)
| Str (v : pyval)
| ExcInfo (e : exn).

Inductive event :=
| Log (logger : string) (lvl : level) (msg : list part)
| Exec (cmd : list string) (found : files) (st : storage)
| Mkdir (path : string)
| Rmdir (path : string) (ok : bool)
| WriteMarker (content : string)
| Sleep (seconds : Z).

Record world := mk_world {
  ticks : nat;
  lock_dir : bool;
  scratch : files;
  lastsync_txt : option string;
  store : storage;
  events : list event
}.

(** ** The monad of the effectful code *)

Inductive outcome (A : Type) :=
| Return (a : A)
| Raised (e : exn)
| Hangs.
Arguments Return {A} a.
Arguments Raised {A} e.
Arguments Hangs {A}.

Definition M (A : Type) := world -> outcome A * world.

Definition ret {A} (a : A) : M A := fun w => (Return a, w).

Definition raise {A} (e : exn) : M A := fun w => (Raised e, w).

Definition bind {A B} (m : M A) (k : A -> M B) : M B :=
  fun w =>
    match m w with
    | (Return a, w') => k a w'
    | (Raised e, w') => (Raised e, w')
    | (Hangs, w') => (Hangs, w')
    end.

Notation "x <- m ;; k" := (bind m (fun x => k))
  (at level 61, m at next level, right associativity).
Notation "m ;; k" := (bind m (fun _ => k))
  (at level 61, right associativity).

Definition lift {A} (r : result A) : M A :=
  match r with
  | Ok a => ret a
  | Raise e => raise e
  end.

(** [try: body except <classes selected by handler>: ...]. *)
Definition try_except {A} (body : M A) (handler : exn -> option (M A)) : M A :=
  fun w =>
    match body w with
    | (Raised e, w') =>
        match handler e with
        | Some h => h w'
        | None => (Raised e, w')
        end
    | other => other
    end.

(** [try: body finally: final]. *)
Definition try_finally {A} (body : M A) (final : M unit) : M A :=
  fun w =>
    match body w with
    | (Return a, w') => (final ;; ret a) w'
    | (Raised e, w') => (final ;; raise e) w'
    | (Hangs, w') => (Hangs, w')
    end.

(** [for x in xs: body(x)]. *)
Fixpoint for_ {A} (xs : list A) (body : A -> M unit) : M unit :=
  match xs with
  | [] => ret tt
  | x :: rest => body x ;; for_ rest body
  end.

(** [for x in xs: s = body(x, s)], threading a value. *)
Fixpoint fold_ {A S} (xs : list A) (body : A -> S -> M S) (s : S) : M S :=
  match xs with
  | [] => ret s
  | x :: rest => s' <- body x s ;; fold_ rest body s'
  end.

Definition emit (e : event) : M unit :=
  fun w => (Return tt,
            mk_world (ticks w) (lock_dir w) (scratch w) (lastsync_txt w) (store w)
                     (events w ++ [e])).

(** The instant of a request; the next request gets the next instant. *)
Definition instant : M nat :=
  fun w => (Return (ticks w),
            mk_world (S (ticks w)) (lock_dir w) (scratch w) (lastsync_txt w)
                     (store w) (events w)).

Definition log (logger : string) (lvl : level) (msg : list part) : M unit :=
  emit (Log logger lvl msg).

Definition logger_syncer : string := "rclouned.syncer".
Definition logger_main : string := "rclouned.main".

(** [logger.exception(e)]: an ERROR record carrying the exception. *)
Definition log_exception (logger : string) (e : exn) : M unit :=
  log logger ERROR [ExcInfo e].

(** Updates of the world. *)
Definition with_lock (b : bool) (fs : files) (w : world) : world :=
  mk_world (ticks w) b fs (lastsync_txt w) (store w) (events w).

Definition with_scratch (fs : files) (w : world) : world :=
  mk_world (ticks w) (lock_dir w) fs (lastsync_txt w) (store w) (events w).

Definition with_marker (content : string) (w : world) : world :=
  mk_world (ticks w) (lock_dir w) (scratch w) (Some content) (store w) (events w).

Definition with_store (st : storage) (w : world) : world :=
  mk_world (ticks w) (lock_dir w) (scratch w) (lastsync_txt w) st (events w).

(** Exception classes, as the [except] clauses select them. *)
Definition is_OSError (e : exn) : bool :=
  match e with
  | OSError _ | FileNotFoundError _ => true
  | _ => false
  end.

Definition is_Exception (e : exn) : bool :=
  match e with
  | KeyboardInterrupt | SystemExit _ => false
  | _ => true
  end.

(** ** The [Sync] class *)

Definition set_syncstart (v : string) (s : Sync) : Sync :=
  mk_sync (configuration s) (lastsync s) v (diff s) (dst s) (src s)
    (local_check s) (remote_check s)
    (upload s) (download s) (local_move s) (local_backup s) (remote_backup s).

Definition set_diff (v : list string) (s : Sync) : Sync :=
  mk_sync (configuration s) (lastsync s) (syncstart s) v (dst s) (src s)
    (local_check s) (remote_check s)
    (upload s) (download s) (local_move s) (local_backup s) (remote_backup s).

Definition set_dst (v : list string) (s : Sync) : Sync :=
  mk_sync (configuration s) (lastsync s) (syncstart s) (diff s) v (src s)
    (local_check s) (remote_check s)
    (upload s) (download s) (local_move s) (local_backup s) (remote_backup s).

Definition set_src (v : list string) (s : Sync) : Sync :=
  mk_sync (configuration s) (lastsync s) (syncstart s) (diff s) (dst s) v
    (local_check s) (remote_check s)
    (upload s) (download s) (local_move s) (local_backup s) (remote_backup s).

Definition set_local_check (v : modtimes) (s : Sync) : Sync :=
  mk_sync (configuration s) (lastsync s) (syncstart s) (diff s) (dst s) (src s)
    v (remote_check s)
    (upload s) (download s) (local_move s) (local_backup s) (remote_backup s).

Definition set_remote_check (v : modtimes) (s : Sync) : Sync :=
  mk_sync (configuration s) (lastsync s) (syncstart s) (diff s) (dst s) (src s)
    (local_check s) v
    (upload s) (download s) (local_move s) (local_backup s) (remote_backup s).

(** [Sync(configuration)]. The other attributes do not exist yet; [run]
    assigns each of them before it is read, so their value here is never
    looked at. *)
Definition new_Sync (cfg : config) : Sync :=
  mk_sync cfg (mk_time 0 0 0 0 0 0 0 0 0) "" [] [] [] [] [] [] [] [] [] [].

Definition time_format : string := "%Y-%m-%d %H:%M:%S".
Definition stamp_format : string := "%Y%m%d-%H%M%S".

Definition lock_path (cfg : config) : string := folder cfg +++ ".rclouned/sync.tmp/".

Definition tmp_path (cfg : config) (name : string) : string :=
  folder cfg +++ ".rclouned/sync.tmp/" +++ name.

Definition marker_path (cfg : config) : string :=
  folder cfg +++ ".rclouned/lastsync.txt".

Definition remote_root (cfg : config) : string := remote cfg +++ ":" +++ subdir cfg.

Section Program.
Variable env : environment.

(** [time.strftime(format)] and [time.time()]. *)
Definition now_formatted (format : string) : M string :=
  n <- instant ;; ret (strftime env format n).

Definition now_seconds : M Q :=
  n <- instant ;; ret (time_time env n).

(** [time.sleep(seconds)]; Ctrl-C may arrive meanwhile. *)
Definition sleep (seconds : Z) : M unit :=
  n <- instant ;;
  emit (Sleep seconds) ;;
  if interrupt env n then raise KeyboardInterrupt else ret tt.

(** [i = 0; while blocked(): i += 1; log; sleep(10 + i ** 2)]. The loop
    is followed for [fuel] rounds; nothing in this process ends the
    wait, so a wait that outlasts the fuel is reported as [Hangs]. *)
Fixpoint poll (fuel : nat) (i : Z) (blocked : world -> bool)
    (logger : string) (msg : string) : M unit :=
  fun w =>
    if blocked w then
      match fuel with
      | O => (Hangs, w)
      | S fuel' =>
          (log logger INFO [Lit msg] ;;
           sleep (10 + (i + 1) ^ 2) ;;
           poll fuel' (i + 1) blocked logger msg) w
      end
    else (Return tt, w).

(** *** Files of the lock directory *)

Definition open_write (cfg : config) (name content : string) : M unit :=
  fun w =>
    if lock_dir w
    then (Return tt, with_scratch (PyDict.set (scratch w) name content) w)
    else (Raised (FileNotFoundError (tmp_path cfg name)), w).

Definition open_read (cfg : config) (name : string) : M string :=
  fun w =>
    match PyDict.get (scratch w) name with
    | Some content => (Return content, w)
    | None => (Raised (FileNotFoundError (tmp_path cfg name)), w)
    end.

Definition os_remove (cfg : config) (name : string) : M unit :=
  fun w =>
    match PyDict.get (scratch w) name with
    | Some _ => (Return tt, with_scratch (remove_key (scratch w) name) w)
    | None => (Raised (FileNotFoundError (tmp_path cfg name)), w)
    end.

(** [os.mkdir] and [os.rmdir] of the lock directory. *)
Definition os_mkdir (cfg : config) : M unit :=
  fun w =>
    if lock_dir w then (Raised (OSError (lock_path cfg)), w)
    else (emit (Mkdir (lock_path cfg))) (with_lock true [] w).

Definition os_rmdir (cfg : config) : M unit :=
  fun w =>
    if lock_dir w then
      match scratch w with
      | [] => (emit (Rmdir (lock_path cfg) true)) (with_lock false [] w)
      | _ :: _ => (emit (Rmdir (lock_path cfg) false) ;;
                   raise (OSError (lock_path cfg))) w
      end
    else (emit (Rmdir (lock_path cfg) false) ;;
          raise (FileNotFoundError (lock_path cfg))) w.

(** *** Methods *)

Definition acquire_lock (fuel : nat) (s : Sync) : M unit :=
  poll fuel 0 lock_dir logger_syncer
    "Sync Lock exists. Check whether this is desired and otherwise remove the .rclouned/sync.tmp/ folder. Waiting." ;;
  os_mkdir (configuration s).

Definition release_lock (s : Sync) : M unit :=
  try_except (os_rmdir (configuration s))
    (fun e =>
       if is_OSError e then
         Some (log logger_syncer WARNING [Lit "Failed to remove Sync Lock."] ;;
               log_exception logger_syncer e)
       else None).

(** [subprocess.run(cmd, ..., check=check_ec)]. *)
Definition subprocess_run (cmd : list string) (check_ec : bool) : M completed :=
  fun w =>
    let w1 := mk_world (S (ticks w)) (lock_dir w) (scratch w) (lastsync_txt w)
                (store w) (events w ++ [Exec cmd (scratch w) (store w)]) in
    match subprocess env (ticks w) cmd (scratch w) (store w) with
    | NoSuchProgram => (Raised (FileNotFoundError (hd "" cmd)), w1)
    | Completed c =>
        let fs := if lock_dir w then write_all (scratch w) (written c)
                  else scratch w in
        let w2 := with_store (storage_after c) (with_scratch fs w1) in
        if check_ec && negb (returncode c =? 0)%Z
        then (Raised (CalledProcessError cmd (returncode c)), w2)
        else (Return c, w2)
    end.

Definition exec_cmd (cmd : list string) (check_ec : bool) : M string :=
  log logger_syncer DEBUG [Lit "Running an external command: "; Str (PStrs cmd)] ;;
  exe <- subprocess_run cmd check_ec ;;
  log logger_syncer DEBUG
    [Lit "External command returned with exit code "; Str (PInt (returncode exe));
     Lit ", output:"] ;;
  log logger_syncer DEBUG [Lit (stdout exe)] ;;
  ret (stdout exe).

Definition rclone_opts (cfg : config) (cmd : list string) : list string :=
  let opts := filter (fun x => (0 <? String.length x)%nat)
                     (split_on " " (options cfg)) in
  if dryrun cfg && negb (String.eqb (hd "" cmd) "check")
  then opts ++ ["--dry-run"]
  else opts.

Definition rclone_cmd (cfg : config) (cmd : list string) : list string :=
  ["rclone"] ++ rclone_opts cfg cmd ++ cmd.

Definition exec_rclone (s : Sync) (cmd : list string) (check_ec : bool) : M string :=
  exec_cmd (rclone_cmd (configuration s) cmd) check_ec.

Definition first_line (content : string) : result string :=
  match splitlines content with
  | [] => Raise IndexError
  | line :: _ => Ok line
  end.

Definition parse_time (text : string) : result struct_time :=
  match strptime env text with
  | Some t => Ok t
  | None => Raise ValueError
  end.

Definition load_last_sync (s : Sync) : M Sync :=
  try_except
    (content <- (fun w =>
                   match lastsync_txt w with
                   | Some c => (Return c, w)
                   | None => (Raised (FileNotFoundError
                                        (marker_path (configuration s))), w)
                   end) ;;
     line <- lift (first_line content) ;;
     t <- lift (parse_time (strip line)) ;;
     ret (set_lastsync t s))
    (fun e =>
       match e with
       | FileNotFoundError _ => Some (ret (set_lastsync (localtime_0 env) s))
       | _ => None
       end).

Definition check_cmd (cfg : config) : list string :=
  ["check";
   "--differ"; tmp_path cfg "diff.txt";
   "--missing-on-dst"; tmp_path cfg "dst.txt";
   "--missing-on-src"; tmp_path cfg "src.txt";
   "--exclude"; ".rclouned/**";
   remote_root cfg;
   folder cfg].

Definition read_lines (cfg : config) (name : string) : M (list string) :=
  content <- open_read cfg name ;;
  ret (map strip (splitlines content)).

Definition run_check (s : Sync) : M Sync :=
  let cfg := configuration s in
  start <- now_formatted time_format ;;
  let s := set_syncstart start s in
  exec_rclone s (check_cmd cfg) false ;;
  d <- read_lines cfg "diff.txt" ;;
  let s := set_diff d s in
  d <- read_lines cfg "dst.txt" ;;
  let s := set_dst d s in
  d <- read_lines cfg "src.txt" ;;
  let s := set_src d s in
  os_remove cfg "diff.txt" ;;
  os_remove cfg "dst.txt" ;;
  os_remove cfg "src.txt" ;;
  ret s.

Definition lsf_cmd (cfg : config) (list_name root : string) : list string :=
  ["lsf"; "--format"; "pt"; "-R"; "--files-from"; tmp_path cfg list_name; root].

(** [key, modtime = line.split(";")], then [table[key] = strptime(modtime)]. *)
Definition record_modtime (line : string) (table : modtimes) : result modtimes :=
  match split_on ";" line with
  | [key; modtime] =>
      t <~ parse_time modtime ;
      Ok (PyDict.set table key (Some t))
  | _ => Raise ValueError
  end.

Definition none_for (names : list string) (table : modtimes) : modtimes :=
  fold_left (fun acc name => PyDict.set acc name None) names table.

Definition get_modtimes (s : Sync) : M Sync :=
  let cfg := configuration s in
  let lc := none_for (diff s) PyDict.empty in
  let rc := none_for (diff s) PyDict.empty in
  let rc := none_for (dst s) rc in
  let lc := none_for (src s) lc in
  let s := set_remote_check rc (set_local_check lc s) in
  open_write cfg "local_check.txt" (join newline (PyDict.keys (local_check s))) ;;
  local_modtimes <- exec_rclone s (lsf_cmd cfg "local_check.txt" (folder cfg)) true ;;
  lc <- lift (for_each (map strip (splitlines local_modtimes)) record_modtime
                (local_check s)) ;;
  let s := set_local_check lc s in
  os_remove cfg "local_check.txt" ;;
  open_write cfg "remote_check.txt" (join newline (PyDict.keys (remote_check s))) ;;
  remote_modtimes <- exec_rclone s (lsf_cmd cfg "remote_check.txt" (remote_root cfg)) true ;;
  rc <- lift (for_each (map strip (splitlines remote_modtimes)) record_modtime
                (remote_check s)) ;;
  let s := set_remote_check rc s in
  os_remove cfg "remote_check.txt" ;;
  ret s.

(** [sort] with the clock read it starts with. *)
Definition sort_now (s : Sync) : M Sync :=
  stamp <- now_formatted stamp_format ;;
  lift (sort stamp s).

Definition log_summary (s : Sync) : M unit :=
  log logger_syncer INFO [Lit "SYNC PLAN:"] ;;
  log logger_syncer INFO [Lit "Local files to move: "; Str (PPairs (local_move s))] ;;
  log logger_syncer INFO [Lit "Local files to backup: "; Str (PStrs (local_backup s))] ;;
  log logger_syncer INFO [Lit "Remote files to backup: "; Str (PStrs (remote_backup s))] ;;
  log logger_syncer INFO [Lit "Files to upload: "; Str (PStrs (upload s))] ;;
  log logger_syncer INFO [Lit "Files to download: "; Str (PStrs (download s))].

Definition mv_cmd (cfg : config) (m : string * string) : list string :=
  ["mv"; folder cfg +++ fst m; folder cfg +++ snd m].

Definition copy_cmd (cfg : config) (list_name from to : string) : list string :=
  ["copy"; "--files-from"; tmp_path cfg list_name; from; to].

Definition delete_cmd (cfg : config) (list_name root : string) : list string :=
  ["delete"; "--files-from"; tmp_path cfg list_name; root; "--rmdirs"].

Definition backup_prefix_of (stamp : string) : string :=
  ".rclouned/backups/" +++ stamp +++ "/".

(** The five steps of [action], given the backup prefix. *)
Definition do_local_moves (s : Sync) : M unit :=
  if negb (dryrun (configuration s)) then
    for_ (local_move s) (fun file => exec_cmd (mv_cmd (configuration s) file) true ;; ret tt)
  else ret tt.

Definition do_local_backup (backup_prefix : string) (s : Sync) : M unit :=
  let cfg := configuration s in
  if (0 <? List.length (local_backup s))%nat then
    open_write cfg "local_backup.txt" (join newline (local_backup s)) ;;
    exec_rclone s (copy_cmd cfg "local_backup.txt" (folder cfg)
                     (folder cfg +++ backup_prefix)) true ;;
    exec_rclone s (delete_cmd cfg "local_backup.txt" (folder cfg)) true ;;
    os_remove cfg "local_backup.txt"
  else ret tt.

Definition do_remote_backup (backup_prefix : string) (s : Sync) : M unit :=
  let cfg := configuration s in
  if (0 <? List.length (remote_backup s))%nat then
    open_write cfg "remote_backup.txt" (join newline (remote_backup s)) ;;
    exec_rclone s (copy_cmd cfg "remote_backup.txt" (remote_root cfg)
                     (remote_root cfg +++ backup_prefix)) true ;;
    exec_rclone s (delete_cmd cfg "remote_backup.txt" (remote_root cfg)) true ;;
    os_remove cfg "remote_backup.txt"
  else ret tt.

Definition do_upload (s : Sync) : M unit :=
  let cfg := configuration s in
  if (0 <? List.length (upload s))%nat then
    open_write cfg "upload.txt" (join newline (upload s)) ;;
    exec_rclone s (copy_cmd cfg "upload.txt" (folder cfg) (remote_root cfg)) true ;;
    os_remove cfg "upload.txt"
  else ret tt.

Definition do_download (s : Sync) : M unit :=
  let cfg := configuration s in
  if (0 <? List.length (download s))%nat then
    open_write cfg "download.txt" (join newline (download s)) ;;
    exec_rclone s (copy_cmd cfg "download.txt" (remote_root cfg) (folder cfg)) true ;;
    os_remove cfg "download.txt"
  else ret tt.

Definition action (s : Sync) : M unit :=
  stamp <- now_formatted stamp_format ;;
  let backup_prefix := backup_prefix_of stamp in
  do_local_moves s ;;
  do_local_backup backup_prefix s ;;
  do_remote_backup backup_prefix s ;;
  do_upload s ;;
  do_download s.

Definition set_last_sync (s : Sync) : M unit :=
  fun w =>
    let content := syncstart s +++ newline in
    emit (WriteMarker content) (with_marker content w).

Definition run (s : Sync) : M unit :=
  s <- load_last_sync s ;;
  s <- run_check s ;;
  s <- get_modtimes s ;;
  s <- sort_now s ;;
  log_summary s ;;
  action s ;;
  if negb (dryrun (configuration s)) then set_last_sync s else ret tt.

(** *** The driver *)

(** The [try: run() except SyncException: ... finally: release_lock()]
    statement of [sync_loop]. *)
Definition guarded_run (syncer : Sync) : M unit :=
  try_finally
    (try_except (run syncer)
       (fun e =>
          match e with
          | SyncException _ =>
              Some (log logger_main WARNING [Lit "Error during sync!"] ;;
                    log_exception logger_main e)
          | _ => None
          end))
    (release_lock syncer).

(** The end of a round: the runtime is logged and the loop sleeps for
    the rest of the interval. *)
Definition pace (cfg : config) (start : Q) : M unit :=
  finish <- now_seconds ;;
  let runtime := (finish - start)%Q in
  log logger_main INFO [Lit "Sync ended. Runtime "; Str (PFloat runtime); Lit "s."] ;;
  if negb (Qle_bool 0 (interval cfg - runtime)) then ret tt
  else
    try_except (sleep (Qfloor (interval cfg - runtime)))
      (fun e =>
         match e with
         | KeyboardInterrupt =>
             Some (log logger_main INFO [Lit "KeyboardInterrupt detected. Quitting."] ;;
                   raise (SystemExit 0))
         | _ => None
         end).

(** One round of the [while True] of [sync_loop]. *)
Definition sync_round (fuel : nat) (cfg : config) : M unit :=
  start <- now_seconds ;;
  log logger_main INFO [Lit "Starting a new sync."] ;;
  let syncer := new_Sync cfg in
  acquire_lock fuel syncer ;;
  guarded_run syncer ;;
  pace cfg start.

(** The first [rounds] rounds of [sync_loop]; [Return tt] says that the
    loop is about to start the next round. *)
Fixpoint sync_loop (fuel rounds : nat) (cfg : config) : M unit :=
  match rounds with
  | O => ret tt
  | S rounds' => sync_round fuel cfg ;; sync_loop fuel rounds' cfg
  end.

Definition wait_for_folder (fuel : nat) (cfg : config) : M unit :=
  poll fuel 0 (fun _ => negb (folder_exists env (folder cfg))) logger_main
    "Folder does not exist. Waiting.".

Definition set_folder (v : string) (cfg : config) : config :=
  mk_config v (remote cfg) (subdir cfg) (options cfg) (interval cfg)
    (dryrun cfg) (careful cfg).

Fixpoint last_char (s : string) : option ascii :=
  match s with
  | EmptyString => None
  | String c EmptyString => Some c
  | String _ rest => last_char rest
  end.

Definition parse_config (cfg : config) : M config :=
  last <- lift (match last_char (folder cfg) with
                | Some c => Ok c
                | None => Raise IndexError
                end) ;;
  let cfg := if Ascii.eqb last "/" then cfg
             else set_folder (folder cfg +++ "/") cfg in
  if negb (isdir env (folder cfg +++ ".rclouned/"))
  then raise (ConfigException ".rclouned folder not found.")
  else if negb (isfile env (folder cfg +++ ".rclouned/config.yaml"))
  then raise (ConfigException "Configuration file not found.")
  else
    cfg <- lift (yaml_merge env (folder cfg +++ ".rclouned/config.yaml") cfg) ;;
    if (String.length (remote cfg) =? 0)%nat
    then raise (ConfigException "No remote configured.")
    else ret cfg.

(** [_CONFIG] as the module defines it; [None] strings are empty here. *)
Definition default_config : config :=
  mk_config "" "" "" "" (90 # 1) false false.

(** [main], from the parsed arguments on. *)
Definition main (fuel rounds : nat) (folder_arg : string) : M unit :=
  let cfg := set_folder folder_arg default_config in
  try_except
    (wait_for_folder fuel cfg ;;
     cfg <- parse_config cfg ;;
     sync_loop fuel rounds cfg)
    (fun e =>
       if is_Exception e then
         Some (log logger_main CRITICAL
                 [Lit "rclouned encountered a critical error and cannot continue."] ;;
               log_exception logger_main e ;;
               raise (SystemExit 1))
       else None).

End Program.

(** ** A sample environment

    A backend that reports the snapshot of [scenarios]: [check] exits with
    status 1 and leaves the three lists, [lsf] prints the modtimes, every
    other command succeeds silently. [remote_down] makes the listing of
    the remote fail with exit status 1. *)

Definition lines (xs : list string) : string := join newline xs.

Definition sample_strptime (text : string) : option struct_time :=
  PyDict.get
    [("2024-01-01 12:00:05", noon_plus 5); ("2024-01-01 12:00:10", noon_plus 10);
     ("2024-01-01 12:00:20", noon_plus 20); ("2024-01-01 12:00:25", noon_plus 25);
     ("2024-01-01 12:00:29", noon_plus 29); ("2024-01-01 12:00:30", noon_plus 30);
     ("2024-01-01 12:00:31", noon_plus 31); ("2024-01-01 12:00:35", noon_plus 35);
     ("2024-01-01 12:00:38", noon_plus 38); ("2024-01-01 12:00:40", noon_plus 40);
     ("2024-01-01 12:00:45", noon_plus 45); ("2024-01-01 12:00:50", noon_plus 50)]
    text.

Definition mentions (word : string) (cmd : list string) : bool :=
  existsb (String.eqb word) cmd.

(** The command line of the check, for the sample configuration. *)
Definition sample_check : list string :=
  rclone_cmd (mk_config "/data/" "cloud" "" "" (90 # 1) false false)
    (check_cmd (mk_config "/data/" "cloud" "" "" (90 # 1) false false)).

Definition sample_backend (remote_down : bool)
    (n : nat) (cmd : list string) (found : files) (st : storage) : spawned :=
  if list_eq_dec string_dec cmd sample_check then
    Completed (mk_completed 1 "3 differences found"
      [("diff.txt", lines ["a.txt"; "b.txt"; "e.txt"; "f.txt"]);
       ("dst.txt", lines ["g.txt"; "h.txt"]);
       ("src.txt", lines ["c.txt"; "d.txt"])] st)
  else if mentions "lsf" cmd then
    if String.eqb (last cmd "") "/data/" then
      Completed (mk_completed 0
        (lines ["a.txt;2024-01-01 12:00:40"; "b.txt;2024-01-01 12:00:35";
                "e.txt;2024-01-01 12:00:31"; "f.txt;2024-01-01 12:00:20";
                "c.txt;2024-01-01 12:00:10"; "d.txt;2024-01-01 12:00:31"]) [] st)
    else if remote_down then
      Completed (mk_completed 1 "Failed to lsf: connection refused" [] st)
    else
      Completed (mk_completed 0
        (lines ["a.txt;2024-01-01 12:00:25"; "b.txt;2024-01-01 12:00:38";
                "e.txt;2024-01-01 12:00:29"; "f.txt;2024-01-01 12:00:45";
                "g.txt;2024-01-01 12:00:50"; "h.txt;2024-01-01 12:00:05"]) [] st)
  else Completed (mk_completed 0 "" [] st).

Definition sample_yaml (dry c : bool) (path : string) (cfg : config) : result config :=
  Ok (mk_config (folder cfg) "cloud" "" "" (90 # 1) dry c).

Definition sample_env (remote_down dry c : bool) : environment :=
  mk_environment
    (fun format _ => if String.eqb format time_format
                     then "2024-01-01 12:01:00" else stamp0)
    (fun n => inject_Z (Z.of_nat n))
    sample_strptime
    (mk_time 1970 1 1 0 0 0 3 1 0)
    (sample_backend remote_down)
    (fun _ => false)
    (fun _ => true) (fun _ => true) (fun _ => true)
    (sample_yaml dry c).

Definition sample_storage : storage :=
  mk_storage ["a.txt"; "b.txt"; "c.txt"; "d.txt"; "e.txt"; "f.txt"]
             ["a.txt"; "b.txt"; "e.txt"; "f.txt"; "g.txt"; "h.txt"].

(** The start of the process: no lock, lastsync.txt holds [T0]. *)
Definition sample_world : world :=
  mk_world 0 false [] (Some ("2024-01-01 12:00:30" +++ newline)) sample_storage [].

(** ** Specifications of effectful code

    [post R E V m]: [m] comes to an end, the worlds before and after are
    related by [R], an exception that comes out is in the class [E] and a
    value that is returned satisfies [V]. *)
Definition post (R : world -> world -> Prop) (E : exn -> Prop) {A}
    (V : A -> Prop) (m : M A) : Prop :=
  forall w o w', m w = (o, w') ->
    R w w' /\ (forall e, o = Raised e -> E e) /\ (forall a, o = Return a -> V a) /\
    o <> Hangs.

Definition anything {A} (a : A) : Prop := True.

(** The events added between two worlds all satisfy [P]. *)
Definition grows (P : event -> Prop) (w w' : world) : Prop :=
  exists new, events w' = events w ++ new /\ Forall P new.

(** [grows P], and an observation [g] of the lock, of the marker and of the
    storage has the same value before and after. *)
Definition frame {X} (P : event -> Prop)
    (g : bool -> option string -> storage -> X) (w w' : world) : Prop :=
  g (lock_dir w') (lastsync_txt w') (store w') =
  g (lock_dir w) (lastsync_txt w) (store w) /\
  grows P w w'.

Definition not_SyncException (e : exn) : Prop :=
  match e with
  | SyncException _ => False
  | _ => True
  end.

(** The command lines passed to [exec_rclone]. *)
Inductive rclone_call (cfg : config) : list string -> Prop :=
| call_check : rclone_call cfg (check_cmd cfg)
| call_lsf name root : rclone_call cfg (lsf_cmd cfg name root)
| call_copy name from to : rclone_call cfg (copy_cmd cfg name from to)
| call_delete name root : rclone_call cfg (delete_cmd cfg name root).

(** The commands issued so far, in order. *)
Definition command_of (ev : event) : list (list string) :=
  match ev with
  | Exec cmd _ _ => [cmd]
  | _ => []
  end.

Definition commands (w : world) : list (list string) :=
  flat_map command_of (events w).

Definition prefix {A} (xs ys : list A) : Prop := exists rest, ys = xs ++ rest.

(** The rounds of [sync_loop] started so far. *)
Definition is_round_start (ev : event) : bool :=
  match ev with
  | Log _ INFO [Lit m] => String.eqb m "Starting a new sync."
  | _ => false
  end.

Definition rounds_started (w : world) : nat :=
  List.length (filter is_round_start (events w)).

Definition is_rmdir (ev : event) : bool :=
  match ev with
  | Rmdir _ _ => true
  | _ => false
  end.

Definition not_rmdir (ev : event) : Prop := is_rmdir ev = false.

(** The backend leaves files in the lock directory only when it runs the
    check, and then only the three lists it was asked for. *)
Definition tidy_backend (env : environment) (cfg : config) : Prop :=
  forall n cmd found st c name content,
    subprocess env n cmd found st = Completed c ->
    In (name, content) (written c) ->
    cmd = rclone_cmd cfg (check_cmd cfg) /\
    In name ["diff.txt"; "dst.txt"; "src.txt"].

(** The rclone processes of a dry run leave the storage as they find it:
    the check and the listings only read, the rest run with [--dry-run]. *)
Definition inert_backend (env : environment) (cfg : config) : Prop :=
  forall n c found st r,
    rclone_call cfg c ->
    subprocess env n (rclone_cmd cfg c) found st = Completed r ->
    storage_after r = st.

(** The options of the configuration, without the dry-run flag. *)
Definition base_opts (cfg : config) : list string :=
  filter (fun x => (0 <? String.length x)%nat) (split_on " " (options cfg)).

(** An event of a dry run that changes nothing: no write of the marker,
    no [mv], and every command line is the check or carries [--dry-run]
    right after the options. *)
Definition harmless (cfg : config) (ev : event) : Prop :=
  match ev with
  | Exec cmd _ _ =>
      cmd = rclone_cmd cfg (check_cmd cfg) \/
      exists c, cmd = ["rclone"] ++ base_opts cfg ++ ["--dry-run"] ++ c
  | WriteMarker _ => False
  | _ => True
  end.

(** [sort] raises nothing but the [KeyError] and the [TypeError] of a
    failed lookup. *)
Definition lookup_error (e : exn) : Prop :=
  match e with
  | KeyError _ | TypeError => True
  | _ => False
  end.

(** The exceptions that the stages of a cycle raise. *)
Definition stage_error (e : exn) : Prop :=
  match e with
  | KeyError _ | TypeError | ValueError | IndexError
  | FileNotFoundError _ | CalledProcessError _ _ => True
  | _ => False
  end.

(** The object still carries the configuration it was built with. *)
Definition same_cfg (cfg : config) (s : Sync) : Prop := configuration s = cfg.

(** ** The lock over a round, as the specification words it *)

(** Whatever the outcome of a round that found the lock free, the marker
    is gone when the round is over. *)
Definition lock_released_property : Prop :=
  forall env fuel cfg w o w',
    tidy_backend env cfg -> lock_dir w = false ->
    sync_round env fuel cfg w = (o, w') ->
    lock_dir w' = false.

(** [triple Pre m Post]: when [m] returns from a world in [Pre], the value
    and the world it returns are in [Post]. *)
Definition triple (Pre : world -> Prop) {A} (m : M A)
    (Post : A -> world -> Prop) : Prop :=
  forall w a w', Pre w -> m w = (Return a, w') -> Post a w'.

(** The lock is held and the lock directory holds exactly [d]. *)
Definition holds (d : files) (w : world) : Prop :=
  lock_dir w = true /\ scratch w = d.

Definition keys_in (names : list string) (d : files) : Prop :=
  forall k, In k (PyDict.keys d) -> In k names.

(** The lock is held and every file of the lock directory is in [names]. *)
Definition within (names : list string) (w : world) : Prop :=
  lock_dir w = true /\ keys_in names (scratch w).

(** ** The executor, as the specification words it *)

(** [issues m cmds]: [m] comes to an end having issued, in order, a prefix
    of [cmds], and the whole of [cmds] when it returns. *)
Definition issues {A} (m : M A) (cmds : list (list string)) : Prop :=
  forall w o w', m w = (o, w') ->
    exists done, commands w' = commands w ++ done /\ prefix done cmds /\
                 (forall a, o = Return a -> done = cmds).

(** Step 1: every rename, skipped in a dry run. *)
Definition step_moves (s : Sync) : list (list string) :=
  if dryrun (configuration s) then []
  else map (mv_cmd (configuration s)) (local_move s).

(** Steps 2 and 3: archive (copy to the dated backup location), then remove. *)
Definition step_local_backup (bp : string) (s : Sync) : list (list string) :=
  let cfg := configuration s in
  match local_backup s with
  | [] => []
  | _ :: _ =>
      [rclone_cmd cfg (copy_cmd cfg "local_backup.txt" (folder cfg) (folder cfg +++ bp));
       rclone_cmd cfg (delete_cmd cfg "local_backup.txt" (folder cfg))]
  end.

Definition step_remote_backup (bp : string) (s : Sync) : list (list string) :=
  let cfg := configuration s in
  match remote_backup s with
  | [] => []
  | _ :: _ =>
      [rclone_cmd cfg (copy_cmd cfg "remote_backup.txt" (remote_root cfg)
                         (remote_root cfg +++ bp));
       rclone_cmd cfg (delete_cmd cfg "remote_backup.txt" (remote_root cfg))]
  end.

(** Steps 4 and 5: one copy each way. *)
Definition step_upload (s : Sync) : list (list string) :=
  let cfg := configuration s in
  match upload s with
  | [] => []
  | _ :: _ => [rclone_cmd cfg (copy_cmd cfg "upload.txt" (folder cfg) (remote_root cfg))]
  end.

Definition step_download (s : Sync) : list (list string) :=
  let cfg := configuration s in
  match download s with
  | [] => []
  | _ :: _ => [rclone_cmd cfg (copy_cmd cfg "download.txt" (remote_root cfg) (folder cfg))]
  end.

(** The backup prefix of an [action] that starts in [w]. *)
Definition backup_prefix_at (env : environment) (w : world) : string :=
  backup_prefix_of (strftime env stamp_format (ticks w)).

(** A command line run in simulate mode. *)
Definition simulated (cfg : config) (cmd : list string) : Prop :=
  exists c, cmd = ["rclone"] ++ base_opts cfg ++ ["--dry-run"] ++ c.

(** The dry run, as worded: the marker is not written, and the executor
    issues nothing for steps 1 to 3 and simulates steps 4 and 5. *)
Definition dry_run_property : Prop :=
  forall env s w o w',
    dryrun (configuration s) = true ->
    (run env s w = (o, w') -> lastsync_txt w' = lastsync_txt w) /\
    (action env s w = (o, w') ->
     exists done, commands w' = commands w ++ done /\
                  prefix done (step_upload s ++ step_download s) /\
                  Forall (simulated (configuration s)) done).

(** The plan of [scenarios] in a dry run, and a world in which the lock
    is held. *)
Definition dry_snapshot : Sync :=
  snapshot (sample_config true false) T0
    ["a.txt"; "b.txt"; "e.txt"; "f.txt"] ["g.txt"; "h.txt"] ["c.txt"; "d.txt"]
    scenario_times_local scenario_times_remote.

Definition dry_plan : Sync := sorted stamp0 dry_snapshot.

Definition locked_world : world :=
  mk_world 7 true [] (Some ("2024-01-01 12:00:30" +++ newline)) sample_storage [].

(** ** Shapes of text *)

(** [sep in s], for a character. *)
Fixpoint contains (sep : ascii) (s : string) : bool :=
  match s with
  | EmptyString => false
  | String c rest => Ascii.eqb c sep || contains sep rest
  end.

(** Some character of [s] is a line boundary. *)
Fixpoint has_linebreak (s : string) : bool :=
  match s with
  | EmptyString => false
  | String c rest => is_linebreak c || has_linebreak rest
  end.

(** [s == s.strip()]. *)
Definition stripped (s : string) : Prop := strip s = s.

(** What a failed lookup of [sort] says about the tables: a [KeyError]
    names a path of the partition being looked up that is no key of the
    table; a [TypeError] comes from a key whose value is still [None]. *)
Definition missing_key (s : Sync) (e : exn) : Prop :=
  match e with
  | KeyError f =>
      ((In f (diff s) \/ In f (src s)) /\ PyDict.get (local_check s) f = None) \/
      ((In f (diff s) \/ In f (dst s)) /\ PyDict.get (remote_check s) f = None)
  | TypeError => True
  | _ => False
  end.

(** The tables as [sort] found them. *)
Definition same_tables (s s1 : Sync) : Prop :=
  local_check s1 = local_check s /\ remote_check s1 = remote_check s.

(** The value a computation returned ([d] when it did not return). *)
Definition returned {A} (d : A) (r : outcome A * world) : A :=
  match fst r with
  | Return a => a
  | _ => d
  end.

(** Observations of the world for [frame]. *)
Definition the_marker (l : bool) (m : option string) (st : storage) : option string := m.

Definition not_marker_write (ev : event) : Prop :=
  match ev with
  | WriteMarker _ => False
  | _ => True
  end.

(** [m] leaves [lastsync.txt] alone, however it ends. *)
Definition keeps_marker {A} (m : M A) : Prop :=
  forall w o w', m w = (o, w') ->
    lastsync_txt w' = lastsync_txt w /\ grows not_marker_write w w'.

(** An object of a cycle that started at 12:00:30. *)
Definition started_at_T0 : Sync := set_syncstart "2024-01-01 12:00:30" one_upload.

(** The seconds slept so far, in order. *)
Definition sleep_of (ev : event) : list Z :=
  match ev with
  | Sleep seconds => [seconds]
  | _ => []
  end.

Definition sleeps (w : world) : list Z := flat_map sleep_of (events w).

(** The waits of a polling loop that has gone round [n] times after [i]
    earlier rounds: [10 + k ** 2] for [k = i + 1 .. i + n]. *)
Definition backoff (i : Z) (n : nat) : list Z :=
  map (fun k => 10 + (i + Z.of_nat k) ^ 2) (seq 1 n).

(** What a polling loop looks at does not depend on the clock or on the
    log. *)
Definition stable (blocked : world -> bool) : Prop :=
  forall t ev w,
    blocked (mk_world t (lock_dir w) (scratch w) (lastsync_txt w) (store w) ev) =
    blocked w.

(** The sample environment before the folder is mounted. *)
Definition unmounted_env : environment :=
  mk_environment
    (strftime (sample_env false false false))
    (time_time (sample_env false false false))
    sample_strptime
    (localtime_0 (sample_env false false false))
    (sample_backend false)
    (fun _ => false)
    (fun _ => false) (fun _ => false) (fun _ => false)
    (sample_yaml false false).

Definition is_FileNotFoundError (e : exn) : Prop :=
  match e with
  | FileNotFoundError _ => True
  | _ => False
  end.

(** The two DEBUG records of [exec_cmd] around a child process. *)
Definition log_running (cmd : list string) : event :=
  Log logger_syncer DEBUG [Lit "Running an external command: "; Str (PStrs cmd)].

Definition log_returned (c : completed) : list event :=
  [Log logger_syncer DEBUG
     [Lit "External command returned with exit code "; Str (PInt (returncode c));
      Lit ", output:"];
   Log logger_syncer DEBUG [Lit (stdout c)]].

(** The statements of [main] inside its [try]. *)
Definition main_body (env : environment) (fuel rounds : nat) (folder_arg : string)
  : M unit :=
  wait_for_folder env fuel (set_folder folder_arg default_config) ;;
  cfg <- parse_config env (set_folder folder_arg default_config) ;;
  sync_loop env fuel rounds cfg.

Definition log_critical (e : exn) : list event :=
  [Log logger_main CRITICAL
     [Lit "rclouned encountered a critical error and cannot continue."];
   Log logger_main ERROR [ExcInfo e]].

(** The events of a wait: log records and sleeps. *)
Definition waiting_event (ev : event) : Prop :=
  match ev with
  | Log _ _ _ | Sleep _ => True
  | _ => False
  end.

(** A differing path and an orphan on each side, all three modified at the
    very second of the last sync. *)
Definition at_lastsync : Sync :=
  snapshot (sample_config false true) T0 ["a.txt"] ["g.txt"] ["c.txt"]
    [("a.txt", Some T0); ("c.txt", Some T0)]
    [("a.txt", Some T0); ("g.txt", Some T0)].

(** ** The conflict branch, as the specification words it *)

(** A differing path whose two modtimes are on the same side of lastsync
    gets exactly the conflict triple: the rename, the download of the path
    and the upload of the renamed copy, and nothing else is planned for the
    path itself. *)
Definition conflict_property : Prop :=
  forall stamp s s' p lt rt,
    sort stamp s = Ok s' -> partitions_disjoint s -> In p (diff s) ->
    PyDict.get (local_check s) p = Some (Some lt) ->
    PyDict.get (remote_check s) p = Some (Some rt) ->
    time_ge lt (lastsync s) = time_ge rt (lastsync s) ->
    In (p, p +++ conflict_suffix_of stamp) (local_move s') /\
    In p (download s') /\
    In (p +++ conflict_suffix_of stamp) (upload s') /\
    ~ In p (upload s') /\ ~ In p (local_backup s') /\ ~ In p (remote_backup s').

(** Two differing paths, both changed on both sides since the last sync,
    the second bearing the name the conflict rename of the first produces. *)
Definition collision_both_conflict : Sync :=
  snapshot (sample_config false false) T0
    ["a.txt"; renamed_a] [] []
    [("a.txt", Some (noon_plus 35)); (renamed_a, Some (noon_plus 35))]
    [("a.txt", Some (noon_plus 38)); (renamed_a, Some (noon_plus 38))].

(** ** What a listing reports *)

(** The line gives a modtime for [f]: it splits into [f] and one more
    field. *)
Definition names_path (f : string) (line : string) : bool :=
  match split_on ";" line with
  | [key; _] => String.eqb key f
  | _ => false
  end.

(** The output [out] of a listing has a line for [f]. *)
Definition reported (out : string) (f : string) : bool :=
  existsb (names_path f) (map strip (splitlines out)).

(** The sample backend with a listing of the remote that leaves out
    "h.txt". *)
Definition partial_backend
    (n : nat) (cmd : list string) (found : files) (st : storage) : spawned :=
  if mentions "lsf" cmd && negb (String.eqb (last cmd "") "/data/") then
    Completed (mk_completed 0
      (lines ["a.txt;2024-01-01 12:00:25"; "b.txt;2024-01-01 12:00:38";
              "e.txt;2024-01-01 12:00:29"; "f.txt;2024-01-01 12:00:45";
              "g.txt;2024-01-01 12:00:50"]) [] st)
  else sample_backend false n cmd found st.

Definition partial_env : environment :=
  mk_environment
    (strftime (sample_env false false false))
    (time_time (sample_env false false false))
    sample_strptime
    (localtime_0 (sample_env false false false))
    partial_backend
    (fun _ => false)
    (fun _ => true) (fun _ => true) (fun _ => true)
    (sample_yaml false false).

(* ================================================================== *)
(** * Properties *)

(** ** Timestamps *)

Lemma time_lt_negb_ge a b : time_lt a b = negb (time_ge a b).
Proof. unfold time_lt, time_ge. now destruct (tuple_compare _ _). Qed.

(** ** [sort] computes the closed form *)

Lemma extend_nil s : extend s delta_nil = s.
Proof. destruct s; unfold extend; simpl. now rewrite !app_nil_r. Qed.

Lemma extend_app s a b : extend (extend s a) b = extend s (delta_app a b).
Proof. unfold extend, delta_app; simpl. now rewrite !app_assoc. Qed.

Lemma sort_diff_file_spec sfx f s s' :
  sort_diff_file sfx f s = Ok s' ->
  exists v, diff_verdict s f = Some v /\
            s' = extend s (diff_delta sfx (careful (configuration s)) v f).
Proof.
  unfold sort_diff_file, diff_verdict, known, modtime_ge, modtime_lt, and_then, classify.
  destruct (PyDict.get (local_check s) f) as [[lt|]|]; simpl; try discriminate.
  destruct (PyDict.get (remote_check s) f) as [[rt|]|]; simpl;
    try (rewrite time_lt_negb_ge; destruct (time_ge lt (lastsync s)); simpl;
         discriminate).
  destruct (time_ge lt (lastsync s)) eqn:Hl; simpl.
  - destruct (time_lt rt (lastsync s)) eqn:Hr; simpl.
    + destruct (careful (configuration s)) eqn:Hc; simpl; intros [= <-];
        (eexists; split; [reflexivity|]);
        destruct s; unfold extend, set_upload, set_remote_backup; simpl in *;
          now rewrite ?Hc, ?app_nil_r.
    + rewrite time_lt_negb_ge, Hl; simpl. intros [= <-].
      eexists; split; [reflexivity|].
      destruct s; unfold extend, set_upload, set_download, set_local_move; simpl.
      now rewrite ?app_nil_r.
  - rewrite time_lt_negb_ge, Hl; simpl.
    destruct (time_ge rt (lastsync s)) eqn:Hr; simpl.
    + destruct (careful (configuration s)) eqn:Hc; simpl; intros [= <-];
        (eexists; split; [reflexivity|]);
        destruct s; unfold extend, set_download, set_local_backup; simpl in *;
          now rewrite ?Hc, ?app_nil_r.
    + intros [= <-]. eexists; split; [reflexivity|].
      destruct s; unfold extend, set_upload, set_download, set_local_move; simpl.
      now rewrite ?app_nil_r.
Qed.

Lemma sort_diff_file_ok sfx f s :
  diff_verdict s f <> None -> exists s', sort_diff_file sfx f s = Ok s'.
Proof.
  unfold sort_diff_file, diff_verdict, known, modtime_ge, modtime_lt, and_then.
  destruct (PyDict.get (local_check s) f) as [[lt|]|]; try congruence.
  destruct (PyDict.get (remote_check s) f) as [[rt|]|]; try congruence.
  intros _; simpl.
  destruct (time_ge lt (lastsync s)), (time_lt rt (lastsync s)),
    (time_lt lt (lastsync s)), (time_ge rt (lastsync s)),
    (careful (configuration s)); simpl; eauto.
Qed.

Lemma sort_src_file_spec f s s' :
  sort_src_file f s = Ok s' ->
  exists t, known (local_check s) f = Some t /\
            s' = extend s (src_delta (time_ge t (lastsync s)) f).
Proof.
  unfold sort_src_file, known, modtime_ge.
  destruct (PyDict.get (local_check s) f) as [[lt|]|]; simpl; try discriminate.
  intros H. exists lt. split; [reflexivity|].
  destruct (time_ge lt (lastsync s)); injection H as <-;
    destruct s; unfold extend, set_upload, set_local_backup; simpl;
    now rewrite ?app_nil_r.
Qed.

Lemma sort_src_file_ok f s :
  known (local_check s) f <> None -> exists s', sort_src_file f s = Ok s'.
Proof.
  unfold sort_src_file, known, modtime_ge.
  destruct (PyDict.get (local_check s) f) as [[lt|]|]; try congruence.
  intros _; simpl. destruct (time_ge lt (lastsync s)); eauto.
Qed.

Lemma sort_dst_file_spec f s s' :
  sort_dst_file f s = Ok s' ->
  exists t, known (remote_check s) f = Some t /\
            s' = extend s (dst_delta (time_ge t (lastsync s)) f).
Proof.
  unfold sort_dst_file, known, modtime_ge.
  destruct (PyDict.get (remote_check s) f) as [[rt|]|]; simpl; try discriminate.
  intros H. exists rt. split; [reflexivity|].
  destruct (time_ge rt (lastsync s)); injection H as <-;
    destruct s; unfold extend, set_download, set_remote_backup; simpl;
    now rewrite ?app_nil_r.
Qed.

Lemma sort_dst_file_ok f s :
  known (remote_check s) f <> None -> exists s', sort_dst_file f s = Ok s'.
Proof.
  unfold sort_dst_file, known, modtime_ge.
  destruct (PyDict.get (remote_check s) f) as [[rt|]|]; try congruence.
  intros _; simpl. destruct (time_ge rt (lastsync s)); eauto.
Qed.

(** The three loops, each against its closed form. *)

Lemma diff_loop_spec sfx files : forall s s',
  for_each files (sort_diff_file sfx) s = Ok s' ->
  s' = extend s (diff_deltas sfx s files) /\
  (forall f, In f files -> diff_verdict s f <> None).
Proof.
  induction files as [|f rest IH]; simpl; intros s s' H.
  - injection H as <-. now rewrite extend_nil.
  - destruct (sort_diff_file sfx f s) as [s1|e] eqn:Hf; simpl in H; [|discriminate].
    apply sort_diff_file_spec in Hf as (v & Hv & ->).
    apply IH in H as [-> Hall]. rewrite Hv, extend_app. split; [reflexivity|].
    intros g [<-|Hg]; [congruence|]. now apply Hall.
Qed.

Lemma diff_loop_ok sfx files : forall s,
  (forall f, In f files -> diff_verdict s f <> None) ->
  exists s', for_each files (sort_diff_file sfx) s = Ok s'.
Proof.
  induction files as [|f rest IH]; simpl; intros s Hall; [eauto|].
  destruct (sort_diff_file_ok sfx f s) as [s1 H1]; [apply Hall; now left|].
  rewrite H1; simpl. apply IH. intros g Hg.
  apply sort_diff_file_spec in H1 as (v & _ & ->). apply Hall. now right.
Qed.

Lemma src_loop_spec files : forall s s',
  for_each files sort_src_file s = Ok s' ->
  s' = extend s (src_deltas s files) /\
  (forall f, In f files -> known (local_check s) f <> None).
Proof.
  induction files as [|f rest IH]; simpl; intros s s' H.
  - injection H as <-. now rewrite extend_nil.
  - destruct (sort_src_file f s) as [s1|e] eqn:Hf; simpl in H; [|discriminate].
    apply sort_src_file_spec in Hf as (t & Ht & ->).
    apply IH in H as [-> Hall]. simpl in *. rewrite Ht, extend_app.
    split; [reflexivity|].
    intros g [<-|Hg]; [congruence|]. now apply Hall.
Qed.

Lemma src_loop_ok files : forall s,
  (forall f, In f files -> known (local_check s) f <> None) ->
  exists s', for_each files sort_src_file s = Ok s'.
Proof.
  induction files as [|f rest IH]; simpl; intros s Hall; [eauto|].
  destruct (sort_src_file_ok f s) as [s1 H1]; [apply Hall; now left|].
  rewrite H1; simpl. apply IH. intros g Hg.
  apply sort_src_file_spec in H1 as (t & _ & ->). apply Hall. now right.
Qed.

Lemma dst_loop_spec files : forall s s',
  for_each files sort_dst_file s = Ok s' ->
  s' = extend s (dst_deltas s files) /\
  (forall f, In f files -> known (remote_check s) f <> None).
Proof.
  induction files as [|f rest IH]; simpl; intros s s' H.
  - injection H as <-. now rewrite extend_nil.
  - destruct (sort_dst_file f s) as [s1|e] eqn:Hf; simpl in H; [|discriminate].
    apply sort_dst_file_spec in Hf as (t & Ht & ->).
    apply IH in H as [-> Hall]. simpl in *. rewrite Ht, extend_app.
    split; [reflexivity|].
    intros g [<-|Hg]; [congruence|]. now apply Hall.
Qed.

Lemma dst_loop_ok files : forall s,
  (forall f, In f files -> known (remote_check s) f <> None) ->
  exists s', for_each files sort_dst_file s = Ok s'.
Proof.
  induction files as [|f rest IH]; simpl; intros s Hall; [eauto|].
  destruct (sort_dst_file_ok f s) as [s1 H1]; [apply Hall; now left|].
  rewrite H1; simpl. apply IH. intros g Hg.
  apply sort_dst_file_spec in H1 as (t & _ & ->). apply Hall. now right.
Qed.

Lemma diff_verdict_known s f :
  diff_verdict s f <> None <->
  known (local_check s) f <> None /\ known (remote_check s) f <> None.
Proof.
  unfold diff_verdict.
  destruct (known (local_check s) f), (known (remote_check s) f);
    split; try intros [? ?]; try split; congruence.
Qed.

Lemma src_deltas_shape s files :
  d_download (src_deltas s files) = [] /\
  d_local_move (src_deltas s files) = [] /\
  d_remote_backup (src_deltas s files) = [].
Proof.
  induction files as [|f rest (A & B & C)]; simpl; [auto|].
  destruct (known (local_check s) f) as [t|]; [|auto].
  unfold src_delta. destruct (time_ge t (lastsync s)); simpl; auto.
Qed.

Lemma dst_deltas_shape s files :
  d_upload (dst_deltas s files) = [] /\
  d_local_move (dst_deltas s files) = [] /\
  d_local_backup (dst_deltas s files) = [].
Proof.
  induction files as [|f rest (A & B & C)]; simpl; [auto|].
  destruct (known (remote_check s) f) as [t|]; [|auto].
  unfold dst_delta. destruct (time_ge t (lastsync s)); simpl; auto.
Qed.

(** [sort] returns exactly when every path it looks up has a modtime, and
    then it returns the closed form. *)
Lemma sort_spec stamp s s' :
  sort stamp s = Ok s' -> s' = sorted stamp s /\ tables_complete s.
Proof.
  unfold sort. cbv zeta.
  set (s0 := set_remote_backup [] _).
  destruct (for_each (diff s0) _ s0) as [s1|] eqn:H1; simpl; [|discriminate].
  apply diff_loop_spec in H1 as [-> A1].
  destruct (for_each (src _) sort_src_file _) as [s2|] eqn:H2; simpl; [|discriminate].
  apply src_loop_spec in H2 as [-> A2].
  intros H3. apply dst_loop_spec in H3 as [-> A3].
  split.
  - unfold sorted, extend; simpl.
    match goal with |- context [src_deltas ?a ?b] =>
      destruct (src_deltas_shape a b) as (-> & -> & ->) end.
    match goal with |- context [dst_deltas ?a ?b] =>
      destruct (dst_deltas_shape a b) as (-> & -> & ->) end.
    now rewrite !app_nil_r.
  - split; [|split]; intros f Hf.
    + now apply (diff_verdict_known s0 f), A1.
    + now apply A2.
    + now apply A3.
Qed.

Lemma sort_total stamp s :
  tables_complete s -> sort stamp s = Ok (sorted stamp s).
Proof.
  intros (A1 & A2 & A3). unfold sort. cbv zeta.
  set (s0 := set_remote_backup [] _).
  assert (exists s', sort stamp s = Ok s') as [s' H].
  { unfold sort; cbv zeta; fold s0.
    destruct (diff_loop_ok (conflict_suffix_of stamp) (diff s0) s0) as [s1 H1].
    { intros f Hf. apply (diff_verdict_known s0 f). now apply A1. }
    rewrite H1; simpl. pose proof (diff_loop_spec _ _ _ _ H1) as [-> _].
    destruct (src_loop_ok (src s0) (extend s0 (diff_deltas (conflict_suffix_of stamp) s0 (diff s0)))) as [s2 H2].
    { intros f Hf. now apply A2. }
    simpl in *. rewrite H2; simpl. pose proof (src_loop_spec _ _ _ H2) as [-> _].
    apply dst_loop_ok. intros f Hf. now apply A3. }
  pose proof (sort_spec _ _ _ H) as [-> _]. exact H.
Qed.

(** ** Membership in the five lists of the closed form *)

Section Membership.
Variable sfx : string.
Variable s : Sync.

Lemma in_diff_deltas {A} (proj : delta -> list A) :
  (forall a b, proj (delta_app a b) = proj a ++ proj b) ->
  proj delta_nil = [] ->
  forall files x,
    In x (proj (diff_deltas sfx s files)) <->
    exists f v, In f files /\ diff_verdict s f = Some v /\
                In x (proj (diff_delta sfx (careful (configuration s)) v f)).
Proof.
  intros Happ Hnil files x.
  induction files as [|f rest IH]; simpl.
  - rewrite Hnil. split; [intros []|intros (f & v & [] & _)].
  - destruct (diff_verdict s f) as [v|] eqn:Hv.
    + rewrite Happ, in_app_iff, IH. split.
      * intros [H|(g & w & Hg & Hw & H)]; [exists f, v; auto|exists g, w; auto].
      * intros (g & w & [<-|Hg] & Hw & H).
        -- left. congruence.
        -- right. exists g, w; auto.
    + rewrite IH. split.
      * intros (g & w & Hg & Hw & H). exists g, w; auto.
      * intros (g & w & [<-|Hg] & Hw & H); [congruence|exists g, w; auto].
Qed.

Lemma in_src_deltas {A} (proj : delta -> list A) :
  (forall a b, proj (delta_app a b) = proj a ++ proj b) ->
  proj delta_nil = [] ->
  forall files x,
    In x (proj (src_deltas s files)) <->
    exists f t, In f files /\ known (local_check s) f = Some t /\
                In x (proj (src_delta (time_ge t (lastsync s)) f)).
Proof.
  intros Happ Hnil files x.
  induction files as [|f rest IH]; simpl.
  - rewrite Hnil. split; [intros []|intros (f & v & [] & _)].
  - destruct (known (local_check s) f) as [t|] eqn:Ht.
    + rewrite Happ, in_app_iff, IH. split.
      * intros [H|(g & w & Hg & Hw & H)]; [exists f, t; auto|exists g, w; auto].
      * intros (g & w & [<-|Hg] & Hw & H).
        -- left. congruence.
        -- right. exists g, w; auto.
    + rewrite IH. split.
      * intros (g & w & Hg & Hw & H). exists g, w; auto.
      * intros (g & w & [<-|Hg] & Hw & H); [congruence|exists g, w; auto].
Qed.

Lemma in_dst_deltas {A} (proj : delta -> list A) :
  (forall a b, proj (delta_app a b) = proj a ++ proj b) ->
  proj delta_nil = [] ->
  forall files x,
    In x (proj (dst_deltas s files)) <->
    exists f t, In f files /\ known (remote_check s) f = Some t /\
                In x (proj (dst_delta (time_ge t (lastsync s)) f)).
Proof.
  intros Happ Hnil files x.
  induction files as [|f rest IH]; simpl.
  - rewrite Hnil. split; [intros []|intros (f & v & [] & _)].
  - destruct (known (remote_check s) f) as [t|] eqn:Ht.
    + rewrite Happ, in_app_iff, IH. split.
      * intros [H|(g & w & Hg & Hw & H)]; [exists f, t; auto|exists g, w; auto].
      * intros (g & w & [<-|Hg] & Hw & H).
        -- left. congruence.
        -- right. exists g, w; auto.
    + rewrite IH. split.
      * intros (g & w & Hg & Hw & H). exists g, w; auto.
      * intros (g & w & [<-|Hg] & Hw & H); [congruence|exists g, w; auto].
Qed.

End Membership.

(** A membership in a list of at most one element. *)
Ltac pick H := first [destruct H as [<-|[]] | destruct H].

(** The five lists of a returned plan, path by path. *)
Section PlanMembership.
Variables (stamp : string) (s s' : Sync).
Hypothesis Hsort : sort stamp s = Ok s'.

Lemma in_upload x :
  In x (upload s') <->
  (In x (diff s) /\ diff_verdict s x = Some LocalOnly) \/
  (exists f, In f (diff s) /\ diff_verdict s f = Some Conflict /\ x = f +++ (conflict_suffix_of stamp)) \/
  (In x (src s) /\ exists t, known (local_check s) x = Some t /\ time_ge t (lastsync s) = true).
Proof.
  destruct (sort_spec _ _ _ Hsort) as [-> _]. unfold sorted; simpl.
  rewrite in_app_iff.
  rewrite (in_diff_deltas _ s d_upload) by reflexivity.
  rewrite (in_src_deltas s d_upload) by reflexivity.
  split.
  - intros [(f & v & Hf & Hv & H)|(f & t & Hf & Ht & H)].
    + destruct v; simpl in H; pick H; eauto 7.
    + unfold src_delta in H. destruct (time_ge t (lastsync s)) eqn:E; simpl in H;
        pick H. right; right; eauto.
  - intros [[Hx Hv]|[(f & Hf & Hv & ->)|(Hx & t & Ht & E)]].
    + left. exists x, LocalOnly. simpl; auto.
    + left. exists f, Conflict. simpl; auto.
    + right. exists x, t. unfold src_delta. rewrite E. simpl; auto.
Qed.

Lemma in_download x :
  In x (download s') <->
  (In x (diff s) /\ (diff_verdict s x = Some RemoteOnly \/
                     diff_verdict s x = Some Conflict)) \/
  (In x (dst s) /\ exists t, known (remote_check s) x = Some t /\ time_ge t (lastsync s) = true).
Proof.
  destruct (sort_spec _ _ _ Hsort) as [-> _]. unfold sorted; simpl.
  rewrite in_app_iff.
  rewrite (in_diff_deltas _ s d_download) by reflexivity.
  rewrite (in_dst_deltas s d_download) by reflexivity.
  split.
  - intros [(f & v & Hf & Hv & H)|(f & t & Hf & Ht & H)].
    + destruct v; simpl in H; pick H; eauto 7.
    + unfold dst_delta in H. destruct (time_ge t (lastsync s)) eqn:E; simpl in H;
        pick H. right; eauto.
  - intros [[Hx [Hv|Hv]]|(Hx & t & Ht & E)].
    + left. exists x, RemoteOnly. simpl; auto.
    + left. exists x, Conflict. simpl; auto.
    + right. exists x, t. unfold dst_delta. rewrite E. simpl; auto.
Qed.

Lemma in_local_move m :
  In m (local_move s') <->
  In (fst m) (diff s) /\ diff_verdict s (fst m) = Some Conflict /\
  snd m = fst m +++ (conflict_suffix_of stamp).
Proof.
  destruct (sort_spec _ _ _ Hsort) as [-> _]. unfold sorted; simpl.
  rewrite (in_diff_deltas _ s d_local_move) by reflexivity.
  split.
  - intros (f & v & Hf & Hv & H).
    destruct v; simpl in H; pick H; simpl; auto.
  - intros (Hf & Hv & Hm). exists (fst m), Conflict. simpl.
    destruct m; simpl in *; subst; auto.
Qed.

Lemma in_local_backup x :
  In x (local_backup s') <->
  (In x (diff s) /\ diff_verdict s x = Some RemoteOnly /\ careful (configuration s) = true) \/
  (In x (src s) /\ exists t, known (local_check s) x = Some t /\ time_ge t (lastsync s) = false).
Proof.
  destruct (sort_spec _ _ _ Hsort) as [-> _]. unfold sorted; simpl.
  rewrite in_app_iff.
  rewrite (in_diff_deltas _ s d_local_backup) by reflexivity.
  rewrite (in_src_deltas s d_local_backup) by reflexivity.
  split.
  - intros [(f & v & Hf & Hv & H)|(f & t & Hf & Ht & H)].
    + destruct v; simpl in H; try (now destruct H).
      destruct (careful (configuration s)) eqn:E; simpl in H; pick H; auto.
    + unfold src_delta in H. destruct (time_ge t (lastsync s)) eqn:E; simpl in H;
        pick H. right; eauto.
  - intros [(Hx & Hv & E)|(Hx & t & Ht & E)].
    + left. exists x, RemoteOnly. rewrite E. simpl; auto.
    + right. exists x, t. unfold src_delta. rewrite E. simpl; auto.
Qed.

Lemma in_remote_backup x :
  In x (remote_backup s') <->
  (In x (diff s) /\ diff_verdict s x = Some LocalOnly /\ careful (configuration s) = true) \/
  (In x (dst s) /\ exists t, known (remote_check s) x = Some t /\ time_ge t (lastsync s) = false).
Proof.
  destruct (sort_spec _ _ _ Hsort) as [-> _]. unfold sorted; simpl.
  rewrite in_app_iff.
  rewrite (in_diff_deltas _ s d_remote_backup) by reflexivity.
  rewrite (in_dst_deltas s d_remote_backup) by reflexivity.
  split.
  - intros [(f & v & Hf & Hv & H)|(f & t & Hf & Ht & H)].
    + destruct v; simpl in H; try (now destruct H).
      destruct (careful (configuration s)) eqn:E; simpl in H; pick H; auto.
    + unfold dst_delta in H. destruct (time_ge t (lastsync s)) eqn:E; simpl in H;
        pick H. right; eauto.
  - intros [(Hx & Hv & E)|(Hx & t & Ht & E)].
    + left. exists x, LocalOnly. rewrite E. simpl; auto.
    + right. exists x, t. unfold dst_delta. rewrite E. simpl; auto.
Qed.

(** The keys and the targets of the renames. *)
Lemma in_move_keys x :
  In x (map fst (local_move s')) <->
  In x (diff s) /\ diff_verdict s x = Some Conflict.
Proof.
  rewrite in_map_iff. split.
  - intros (m & <- & Hm). apply in_local_move in Hm. tauto.
  - intros [Hx Hv]. exists (x, x +++ (conflict_suffix_of stamp)). split; [reflexivity|].
    apply in_local_move. simpl; auto.
Qed.

Lemma in_move_targets x :
  In x (map snd (local_move s')) <->
  exists f, In f (diff s) /\ diff_verdict s f = Some Conflict /\ x = f +++ (conflict_suffix_of stamp).
Proof.
  rewrite in_map_iff. split.
  - intros (m & <- & Hm). apply in_local_move in Hm. exists (fst m). tauto.
  - intros (f & Hf & Hv & ->). exists (f, f +++ (conflict_suffix_of stamp)). split; [reflexivity|].
    apply in_local_move. simpl; auto.
Qed.

End PlanMembership.

(** ** The branch taken for a differing path *)

Lemma known_get table p t :
  PyDict.get table p = Some (Some t) -> known table p = Some t.
Proof. unfold known. now intros ->. Qed.

Lemma diff_verdict_classify s p lt rt :
  PyDict.get (local_check s) p = Some (Some lt) ->
  PyDict.get (remote_check s) p = Some (Some rt) ->
  diff_verdict s p = Some (classify (lastsync s) lt rt).
Proof.
  intros Hl Hr. unfold diff_verdict.
  now rewrite (known_get _ _ _ Hl), (known_get _ _ _ Hr).
Qed.

Lemma classify_local_only ls lt rt :
  classify ls lt rt = LocalOnly <-> time_ge lt ls = true /\ time_lt rt ls = true.
Proof.
  unfold classify. rewrite !time_lt_negb_ge.
  destruct (time_ge lt ls), (time_ge rt ls); simpl; intuition discriminate.
Qed.

Lemma classify_remote_only ls lt rt :
  classify ls lt rt = RemoteOnly <-> time_lt lt ls = true /\ time_ge rt ls = true.
Proof.
  unfold classify. rewrite !time_lt_negb_ge.
  destruct (time_ge lt ls), (time_ge rt ls); simpl; intuition discriminate.
Qed.

Lemma classify_conflict ls lt rt :
  classify ls lt rt = Conflict <-> time_ge lt ls = time_ge rt ls.
Proof.
  unfold classify. rewrite !time_lt_negb_ge.
  destruct (time_ge lt ls), (time_ge rt ls); simpl; intuition discriminate.
Qed.

(** ** The plan, claim by claim *)

(** C1, as the code has it: a differing path changed on one side only is
    planned towards the other side. Changed locally (local modtime [>=]
    lastsync, remote [<]): it is in Upload, not in Download, not a LocalMove
    key, and in RemoteBackup iff careful. Changed remotely: it is in
    Download, not a LocalMove key, in LocalBackup iff careful, and it is in
    Upload exactly when it is also the rename target of a conflict of the
    same plan. *)
Theorem sort_one_sided_change stamp s s' p lt rt :
  sort stamp s = Ok s' -> partitions_disjoint s -> In p (diff s) ->
  PyDict.get (local_check s) p = Some (Some lt) ->
  PyDict.get (remote_check s) p = Some (Some rt) ->
  (time_ge lt (lastsync s) = true -> time_lt rt (lastsync s) = true ->
     In p (upload s') /\ ~ In p (download s') /\
     ~ In p (map fst (local_move s')) /\
     (In p (remote_backup s') <-> careful (configuration s) = true)) /\
  (time_lt lt (lastsync s) = true -> time_ge rt (lastsync s) = true ->
     In p (download s') /\ ~ In p (map fst (local_move s')) /\
     (In p (upload s') <-> In p (map snd (local_move s'))) /\
     (In p (local_backup s') <-> careful (configuration s) = true)).
Proof.
  intros Hsort [Hd _] Hp Hl Hr.
  pose proof (diff_verdict_classify _ _ _ _ Hl Hr) as Hv.
  destruct (Hd p Hp) as [Hsrc Hdst].
  split; intros Hlt Hrt.
  - assert (Hc : classify (lastsync s) lt rt = LocalOnly)
      by (now apply classify_local_only).
    rewrite Hc in Hv. repeat split.
    + apply (in_upload _ _ _ Hsort). auto.
    + intros H. apply (in_download _ _ _ Hsort) in H.
      destruct H as [[_ [H|H]]|[H _]]; [congruence|congruence|contradiction].
    + intros H. apply (in_move_keys _ _ _ Hsort) in H. destruct H; congruence.
    + intros H. apply (in_remote_backup _ _ _ Hsort) in H.
      destruct H as [(_ & _ & H)|[H _]]; [exact H|contradiction].
    + intros H. apply (in_remote_backup _ _ _ Hsort). auto.
  - assert (Hc : classify (lastsync s) lt rt = RemoteOnly)
      by (now apply classify_remote_only).
    rewrite Hc in Hv. repeat split.
    + apply (in_download _ _ _ Hsort). auto.
    + intros H. apply (in_move_keys _ _ _ Hsort) in H. destruct H; congruence.
    + intros H. apply (in_upload _ _ _ Hsort) in H.
      apply (in_move_targets _ _ _ Hsort).
      destruct H as [[_ H]|[H|[H _]]]; [congruence|exact H|contradiction].
    + intros H. apply (in_move_targets _ _ _ Hsort) in H.
      apply (in_upload _ _ _ Hsort). auto.
    + intros H. apply (in_local_backup _ _ _ Hsort) in H.
      destruct H as [(_ & _ & H)|[H _]]; [exact H|contradiction].
    + intros H. apply (in_local_backup _ _ _ Hsort). auto.
Qed.

(** C2, as the code has it: a differing path whose two modtimes are both
    [>=] lastsync or both [<] lastsync is planned as the conflict triple:
    (p, p+suffix) in LocalMove, p in Download, p+suffix in Upload. The
    suffix is the one of the cycle: every rename of the plan adds that same
    suffix. With disjoint partitions the path is in neither backup list,
    careful or not, and it is in Upload under its own name exactly when it
    is also the rename target of a conflict of the same plan. *)
Theorem sort_conflict_triple stamp s s' p lt rt :
  sort stamp s = Ok s' -> In p (diff s) ->
  PyDict.get (local_check s) p = Some (Some lt) ->
  PyDict.get (remote_check s) p = Some (Some rt) ->
  time_ge lt (lastsync s) = time_ge rt (lastsync s) ->
  let suffix := conflict_suffix_of stamp in
  In (p, p +++ suffix) (local_move s') /\
  In p (download s') /\
  In (p +++ suffix) (upload s') /\
  (forall m, In m (local_move s') -> snd m = fst m +++ suffix) /\
  (partitions_disjoint s ->
   ~ In p (local_backup s') /\ ~ In p (remote_backup s') /\
   (In p (upload s') <-> In p (map snd (local_move s')))).
Proof.
  intros Hsort Hp Hl Hr Hboth suffix.
  pose proof (diff_verdict_classify _ _ _ _ Hl Hr) as Hv.
  assert (Hc : classify (lastsync s) lt rt = Conflict)
    by (now apply classify_conflict).
  rewrite Hc in Hv. split; [|split; [|split; [|split]]].
  - apply (in_local_move _ _ _ Hsort). simpl. auto.
  - apply (in_download _ _ _ Hsort). auto.
  - apply (in_upload _ _ _ Hsort). right; left. exists p. auto.
  - intros m Hm. apply (in_local_move _ _ _ Hsort) in Hm. tauto.
  - intros [Hd _]. destruct (Hd p Hp) as [Hsrc Hdst].
    split; [|split; [|split]]; intros H.
    + apply (in_local_backup _ _ _ Hsort) in H.
      destruct H as [(_ & H & _)|[H _]]; [congruence|contradiction].
    + apply (in_remote_backup _ _ _ Hsort) in H.
      destruct H as [(_ & H & _)|[H _]]; [congruence|contradiction].
    + apply (in_upload _ _ _ Hsort) in H.
      apply (in_move_targets _ _ _ Hsort).
      destruct H as [[_ H]|[H|[H _]]]; [congruence|exact H|contradiction].
    + apply (in_move_targets _ _ _ Hsort) in H.
      apply (in_upload _ _ _ Hsort). auto.
Qed.

(** The scenarios of the specification, computed by [sort]. *)
Example sort_scenarios_plain :
  exists s', sort stamp0 (scenarios false) = Ok s' /\
    upload s' = ["a.txt"; "b.txt_conflict-20240101-120100"; "e.txt"; "d.txt"] /\
    download s' = ["b.txt"; "f.txt"; "g.txt"] /\
    local_move s' = [("b.txt", "b.txt_conflict-20240101-120100")] /\
    local_backup s' = ["c.txt"] /\
    remote_backup s' = ["h.txt"].
Proof. eexists. split; [vm_compute; reflexivity|]. repeat split. Qed.

Example sort_scenarios_careful :
  exists s', sort stamp0 (scenarios true) = Ok s' /\
    upload s' = ["a.txt"; "b.txt_conflict-20240101-120100"; "e.txt"; "d.txt"] /\
    download s' = ["b.txt"; "f.txt"; "g.txt"] /\
    local_move s' = [("b.txt", "b.txt_conflict-20240101-120100")] /\
    local_backup s' = ["f.txt"; "c.txt"] /\
    remote_backup s' = ["a.txt"; "e.txt"; "h.txt"].
Proof. eexists. split; [vm_compute; reflexivity|]. repeat split. Qed.

Lemma scenarios_disjoint c : partitions_disjoint (scenarios c).
Proof.
  split; simpl; intros f H; intuition (subst; discriminate).
Qed.

Lemma sort_one_sided_change_witness :
  (In "a.txt" (upload (sorted stamp0 (scenarios true))) /\
   ~ In "a.txt" (download (sorted stamp0 (scenarios true))) /\
   ~ In "a.txt" (map fst (local_move (sorted stamp0 (scenarios true)))) /\
   (In "a.txt" (remote_backup (sorted stamp0 (scenarios true))) <-> true = true)) /\
  (In "f.txt" (download (sorted stamp0 (scenarios true))) /\
   ~ In "f.txt" (map fst (local_move (sorted stamp0 (scenarios true)))) /\
   (In "f.txt" (upload (sorted stamp0 (scenarios true))) <->
    In "f.txt" (map snd (local_move (sorted stamp0 (scenarios true))))) /\
   (In "f.txt" (local_backup (sorted stamp0 (scenarios true))) <-> true = true)).
Proof.
  split.
  - refine (proj1 (sort_one_sided_change stamp0 (scenarios true) _ "a.txt"
                     (noon_plus 40) (noon_plus 25) _ _ _ _ _) _ _).
    + vm_compute; reflexivity.
    + apply scenarios_disjoint.
    + simpl; auto.
    + reflexivity.
    + reflexivity.
    + reflexivity.
    + reflexivity.
  - refine (proj2 (sort_one_sided_change stamp0 (scenarios true) _ "f.txt"
                     (noon_plus 20) (noon_plus 45) _ _ _ _ _) _ _).
    + vm_compute; reflexivity.
    + apply scenarios_disjoint.
    + simpl; auto 6.
    + reflexivity.
    + reflexivity.
    + reflexivity.
    + reflexivity.
Defined.

(** C1 as worded fails: in [collision_in_diff] the second differing path
    changed on the remote only, yet the plan also uploads it, because the
    conflict of "a.txt" uploads the renamed copy under that very name. *)
Lemma one_sided_change_property_fails : ~ one_sided_change_property.
Proof.
  intros H.
  assert (Hd : partitions_disjoint collision_in_diff)
    by (split; simpl; intros f Hf; intuition).
  destruct (H stamp0 collision_in_diff (sorted stamp0 collision_in_diff)
              renamed_a (noon_plus 29) (noon_plus 31)) as [_ H2];
    [vm_compute; reflexivity | exact Hd | simpl; auto
    | reflexivity | reflexivity |].
  destruct (H2 eq_refl eq_refl) as (_ & Hup & _).
  apply Hup. vm_compute. auto.
Qed.

Lemma sort_conflict_triple_witness :
  let suffix := conflict_suffix_of stamp0 in
  let s' := sorted stamp0 (scenarios true) in
  In ("b.txt", "b.txt" +++ suffix) (local_move s') /\
  In "b.txt" (download s') /\
  In ("b.txt" +++ suffix) (upload s') /\
  (forall m, In m (local_move s') -> snd m = fst m +++ suffix) /\
  (partitions_disjoint (scenarios true) ->
   ~ In "b.txt" (local_backup s') /\ ~ In "b.txt" (remote_backup s') /\
   (In "b.txt" (upload s') <-> In "b.txt" (map snd (local_move s')))).
Proof.
  refine (sort_conflict_triple stamp0 (scenarios true) _ "b.txt"
            (noon_plus 35) (noon_plus 38) _ _ _ _ _).
  - vm_compute; reflexivity.
  - simpl; auto.
  - reflexivity.
  - reflexivity.
  - reflexivity.
Defined.

(** C2 as worded fails: in [collision_both_conflict] both differing paths
    are conflicts; the second gets its triple, and is also in Upload under
    its own name, as the renamed copy of "a.txt". *)
Lemma conflict_property_fails : ~ conflict_property.
Proof.
  intros H.
  assert (Hd : partitions_disjoint collision_both_conflict)
    by (split; simpl; intros f Hf; intuition).
  destruct (H stamp0 collision_both_conflict (sorted stamp0 collision_both_conflict)
              renamed_a (noon_plus 35) (noon_plus 38))
    as (_ & _ & _ & Hup & _);
    [vm_compute; reflexivity | exact Hd | simpl; auto
    | reflexivity | reflexivity | reflexivity |].
  apply Hup. vm_compute. auto.
Qed.

(** C3, as the code has it: a path missing on the remote is uploaded when
    its local modtime is [>=] lastsync (and is then not in LocalBackup) and
    is put in LocalBackup otherwise; in that second case it is in Upload
    exactly when it is also the rename target of a conflict of the same
    plan. A path missing locally is downloaded when its remote modtime is
    [>=] lastsync (and is not in RemoteBackup) and is put in RemoteBackup,
    not in Download, otherwise. The careful flag plays no part: the
    statement holds for every configuration. *)
Theorem sort_orphans stamp s s' p :
  sort stamp s = Ok s' -> partitions_disjoint s ->
  (In p (src s) -> forall lt,
     PyDict.get (local_check s) p = Some (Some lt) ->
     if time_ge lt (lastsync s)
     then In p (upload s') /\ ~ In p (local_backup s')
     else In p (local_backup s') /\
          (In p (upload s') <-> In p (map snd (local_move s')))) /\
  (In p (dst s) -> forall rt,
     PyDict.get (remote_check s) p = Some (Some rt) ->
     if time_ge rt (lastsync s)
     then In p (download s') /\ ~ In p (remote_backup s')
     else In p (remote_backup s') /\ ~ In p (download s')).
Proof.
  intros Hsort [Hd Hsd]. split.
  - intros Hp lt Hl. apply known_get in Hl.
    assert (Hnd : ~ In p (diff s))
      by (intros H; destruct (Hd p H); contradiction).
    destruct (time_ge lt (lastsync s)) eqn:E; split.
    + apply (in_upload _ _ _ Hsort). right; right; eauto.
    + intros H. apply (in_local_backup _ _ _ Hsort) in H.
      destruct H as [[H _]|(_ & t & Ht & Hge)]; [contradiction|congruence].
    + apply (in_local_backup _ _ _ Hsort). right; eauto.
    + split; intros H.
      * apply (in_upload _ _ _ Hsort) in H. apply (in_move_targets _ _ _ Hsort).
        destruct H as [[H _]|[H|(_ & t & Ht & Hge)]];
          [contradiction|exact H|congruence].
      * apply (in_move_targets _ _ _ Hsort) in H.
        apply (in_upload _ _ _ Hsort). auto.
  - intros Hp rt Hr. apply known_get in Hr.
    assert (Hnd : ~ In p (diff s))
      by (intros H; destruct (Hd p H); contradiction).
    destruct (time_ge rt (lastsync s)) eqn:E; split.
    + apply (in_download _ _ _ Hsort). right; eauto.
    + intros H. apply (in_remote_backup _ _ _ Hsort) in H.
      destruct H as [[H _]|(_ & t & Ht & Hge)]; [contradiction|congruence].
    + apply (in_remote_backup _ _ _ Hsort). right; eauto.
    + intros H. apply (in_download _ _ _ Hsort) in H.
      destruct H as [[H _]|(_ & t & Ht & Hge)]; [contradiction|congruence].
Qed.

Lemma sort_orphans_witness :
  let s' := sorted stamp0 (scenarios false) in
  (In "c.txt" (local_backup s') /\
   (In "c.txt" (upload s') <-> In "c.txt" (map snd (local_move s')))) /\
  (In "d.txt" (upload s') /\ ~ In "d.txt" (local_backup s')) /\
  (In "g.txt" (download s') /\ ~ In "g.txt" (remote_backup s')) /\
  (In "h.txt" (remote_backup s') /\ ~ In "h.txt" (download s')).
Proof.
  assert (Hs : sort stamp0 (scenarios false) = Ok (sorted stamp0 (scenarios false)))
    by (vm_compute; reflexivity).
  pose proof (scenarios_disjoint false) as Hd.
  split; [|split; [|split]].
  - exact (proj1 (sort_orphans stamp0 (scenarios false) _ "c.txt" Hs Hd)
             ltac:(simpl; auto) (noon_plus 10) eq_refl).
  - exact (proj1 (sort_orphans stamp0 (scenarios false) _ "d.txt" Hs Hd)
             ltac:(simpl; auto) (noon_plus 31) eq_refl).
  - exact (proj2 (sort_orphans stamp0 (scenarios false) _ "g.txt" Hs Hd)
             ltac:(simpl; auto) (noon_plus 50) eq_refl).
  - exact (proj2 (sort_orphans stamp0 (scenarios false) _ "h.txt" Hs Hd)
             ltac:(simpl; auto) (noon_plus 5) eq_refl).
Defined.

(** C3 as worded fails: in [collision_in_src] the path missing on the
    remote is older than lastsync and is put in LocalBackup, yet it is also
    in Upload, as the renamed copy of the conflicting "a.txt". *)
Lemma orphan_property_fails : ~ orphan_property.
Proof.
  intros H.
  assert (Hd : partitions_disjoint collision_in_src).
  { split; simpl; intros f Hf; [|tauto].
    destruct Hf as [<-|[]]. split; [|tauto]. intros [E|[]]. discriminate E. }
  destruct (H stamp0 collision_in_src (sorted stamp0 collision_in_src) renamed_a)
    as [H1 _]; [vm_compute; reflexivity | exact Hd |].
  specialize (H1 ltac:(simpl; auto) (noon_plus 29) eq_refl).
  change (time_ge (noon_plus 29) (lastsync collision_in_src)) with false in H1.
  destruct H1 as [_ Hup]. apply Hup. vm_compute. auto.
Qed.

(** C7, as the code has it: every differing path that is not itself the
    rename target of a conflict of the same plan is in exactly one of the
    three shapes: Upload-only, Download-only, or the conflict triple. *)
Theorem sort_one_shape stamp s s' p :
  sort stamp s = Ok s' -> In p (diff s) ->
  ~ In p (map snd (local_move s')) ->
  exactly_one_of (upload_only s' p) (download_only s' p)
                 (conflict_triple (conflict_suffix_of stamp) s' p).
Proof.
  intros Hsort Hp Hfresh.
  destruct (sort_spec _ _ _ Hsort) as [_ (Hc & _ & _)].
  destruct (Hc p Hp) as [Hl Hr].
  destruct (known (local_check s) p) as [lt|] eqn:El; [|congruence].
  destruct (known (remote_check s) p) as [rt|] eqn:Er; [|congruence].
  assert (Hv : diff_verdict s p = Some (classify (lastsync s) lt rt))
    by (unfold diff_verdict; now rewrite El, Er).
  assert (Hkey : In p (map fst (local_move s')) <->
                 classify (lastsync s) lt rt = Conflict).
  { rewrite (in_move_keys _ _ _ Hsort). split; [intros [_ H]; congruence|].
    intros H. split; congruence. }
  unfold exactly_one_of, upload_only, download_only, conflict_triple.
  destruct (classify (lastsync s) lt rt) eqn:E.
  - (* changed locally only *)
    apply classify_local_only in E as [Ege Elt].
    assert (Hin : In p (upload s')) by (apply (in_upload _ _ _ Hsort); auto).
    assert (Hout : ~ In p (download s')).
    { intros H. apply (in_download _ _ _ Hsort) in H.
      destruct H as [[_ [H|H]]|(_ & t & Ht & Hge)]; [congruence|congruence|].
      assert (t = rt) by congruence. subst t.
      rewrite time_lt_negb_ge, Hge in Elt. discriminate. }
    left. repeat split; auto.
    + intros H. apply Hkey in H. discriminate.
    + intros (_ & H & _). contradiction.
    + intros (_ & H & _). contradiction.
  - (* changed remotely only *)
    apply classify_remote_only in E as [Elt Ege].
    assert (Hin : In p (download s')) by (apply (in_download _ _ _ Hsort); auto).
    assert (Hout : ~ In p (upload s')).
    { intros H. apply (in_upload _ _ _ Hsort) in H.
      destruct H as [[_ H]|[H|(_ & t & Ht & Hge)]]; [congruence| |].
      - apply Hfresh. now apply (in_move_targets _ _ _ Hsort).
      - assert (t = lt) by congruence. subst t.
        rewrite time_lt_negb_ge, Hge in Elt. discriminate. }
    assert (Hnk : ~ In p (map fst (local_move s')))
      by (intros H; apply Hkey in H; discriminate).
    right; left. repeat split; auto.
    + intros (H & _). contradiction.
    + intros (H & _). apply Hnk.
      change p with (fst (p, p +++ conflict_suffix_of stamp)). now apply in_map.
  - (* conflict *)
    assert (Hin : In p (download s')) by (apply (in_download _ _ _ Hsort); auto).
    right; right. repeat split.
    + intros (_ & H & _). contradiction.
    + intros (_ & _ & H). apply H, Hkey. reflexivity.
    + apply (in_local_move _ _ _ Hsort). simpl. auto.
    + exact Hin.
    + apply (in_upload _ _ _ Hsort). right; left. exists p. auto.
Qed.

Lemma sort_one_shape_witness :
  exactly_one_of (upload_only (sorted stamp0 (scenarios true)) "a.txt")
                 (download_only (sorted stamp0 (scenarios true)) "a.txt")
                 (conflict_triple (conflict_suffix_of stamp0)
                    (sorted stamp0 (scenarios true)) "a.txt").
Proof.
  apply (sort_one_shape stamp0 (scenarios true) _ "a.txt").
  - vm_compute; reflexivity.
  - simpl; auto.
  - vm_compute. intros [E|[]]. discriminate E.
Defined.

(** C7 as worded fails: in [collision_in_diff] the second differing path is
    downloaded and also uploaded (as the renamed copy of "a.txt") without
    being renamed itself, so it has none of the three shapes. *)
Lemma one_shape_property_fails : ~ one_shape_property.
Proof.
  intros H.
  assert (Hd : partitions_disjoint collision_in_diff)
    by (split; simpl; intros f Hf; intuition).
  specialize (H stamp0 collision_in_diff (sorted stamp0 collision_in_diff)
                renamed_a ltac:(vm_compute; reflexivity) Hd ltac:(simpl; auto)).
  assert (Hup : In renamed_a (upload (sorted stamp0 collision_in_diff)))
    by (vm_compute; auto).
  assert (Hdown : In renamed_a (download (sorted stamp0 collision_in_diff)))
    by (vm_compute; auto).
  assert (Hmove : forall t, ~ In (renamed_a, t) (local_move (sorted stamp0 collision_in_diff))).
  { intros t. vm_compute. intros [E|[]]. discriminate E. }
  destruct H as [((_ & A & _) & _)|[(_ & (_ & B & _) & _)|(_ & _ & (C & _))]].
  - contradiction.
  - contradiction.
  - exact (Hmove _ C).
Qed.

(** C6, as the code has it: planning again over a snapshot, whatever the
    value [lastsync] is updated to, gives an empty plan exactly when the
    snapshot is empty, and every path of the three partitions is put in at
    least one of the five collections: a differing path in Upload or in
    Download, a path missing on the remote in Upload or in LocalBackup, a
    path missing locally in Download or in RemoteBackup. *)
Theorem sort_again_empty_iff stamp cycle_start s s2 :
  sort stamp (set_lastsync cycle_start s) = Ok s2 ->
  (plan_empty s2 <-> diff s = [] /\ src s = [] /\ dst s = []) /\
  (forall p, In p (diff s) \/ In p (src s) \/ In p (dst s) ->
     In p (upload s2) \/ In p (download s2) \/ In p (map fst (local_move s2)) \/
     In p (local_backup s2) \/ In p (remote_backup s2)) /\
  (forall p, In p (diff s) -> In p (upload s2) \/ In p (download s2)) /\
  (forall p, In p (src s) -> In p (upload s2) \/ In p (local_backup s2)) /\
  (forall p, In p (dst s) -> In p (download s2) \/ In p (remote_backup s2)).
Proof.
  intros Hsort.
  destruct (sort_spec _ _ _ Hsort) as [_ (Hc & Hcs & Hcd)].
  cbn [diff src dst local_check remote_check set_lastsync] in Hc, Hcs, Hcd.
  assert (P1 : forall p, In p (diff s) -> In p (upload s2) \/ In p (download s2)).
  { intros f Hf.
    assert (Hn : diff_verdict (set_lastsync cycle_start s) f <> None)
      by (apply diff_verdict_known; exact (Hc f Hf)).
    destruct (diff_verdict (set_lastsync cycle_start s) f) as [v|] eqn:Hv;
      [|congruence].
    destruct v.
    - left. apply (in_upload _ _ _ Hsort). auto.
    - right. apply (in_download _ _ _ Hsort). auto.
    - right. apply (in_download _ _ _ Hsort). auto. }
  assert (P2 : forall p, In p (src s) -> In p (upload s2) \/ In p (local_backup s2)).
  { intros f Hf. specialize (Hcs f Hf).
    destruct (known (local_check s) f) as [t|] eqn:Ht; [|congruence].
    destruct (time_ge t cycle_start) eqn:Hge.
    - left. apply (in_upload _ _ _ Hsort). right; right. split; [exact Hf|]. eauto.
    - right. apply (in_local_backup _ _ _ Hsort). right. split; [exact Hf|]. eauto. }
  assert (P3 : forall p, In p (dst s) -> In p (download s2) \/ In p (remote_backup s2)).
  { intros f Hf. specialize (Hcd f Hf).
    destruct (known (remote_check s) f) as [t|] eqn:Ht; [|congruence].
    destruct (time_ge t cycle_start) eqn:Hge.
    - left. apply (in_download _ _ _ Hsort). right. split; [exact Hf|]. eauto.
    - right. apply (in_remote_backup _ _ _ Hsort). right. split; [exact Hf|]. eauto. }
  split; [|split; [|split; [exact P1|split; [exact P2|exact P3]]]].
  - split.
    + intros (Hu & Hdn & _ & Hlb & Hrb). split; [|split].
      * destruct (diff s) as [|f rest]; [reflexivity|exfalso].
        destruct (P1 f (or_introl eq_refl)) as [H|H];
          [rewrite Hu in H|rewrite Hdn in H]; destruct H.
      * destruct (src s) as [|f rest]; [reflexivity|exfalso].
        destruct (P2 f (or_introl eq_refl)) as [H|H];
          [rewrite Hu in H|rewrite Hlb in H]; destruct H.
      * destruct (dst s) as [|f rest]; [reflexivity|exfalso].
        destruct (P3 f (or_introl eq_refl)) as [H|H];
          [rewrite Hdn in H|rewrite Hrb in H]; destruct H.
    + intros (Hd & Hs & Ht).
      destruct (sort_spec _ _ _ Hsort) as [-> _].
      unfold plan_empty, sorted; simpl. rewrite Hd, Hs, Ht. simpl. auto.
  - intros p [H|[H|H]].
    + destruct (P1 p H); auto.
    + destruct (P2 p H); auto.
    + destruct (P3 p H); auto 6.
Qed.

Lemma sort_again_empty_iff_witness :
  let s2 := sorted stamp0 (set_lastsync one_upload_cycle_start one_upload) in
  (plan_empty s2 <->
   diff one_upload = [] /\ src one_upload = [] /\ dst one_upload = []) /\
  (forall p, In p (diff one_upload) \/ In p (src one_upload) \/ In p (dst one_upload) ->
     In p (upload s2) \/ In p (download s2) \/ In p (map fst (local_move s2)) \/
     In p (local_backup s2) \/ In p (remote_backup s2)) /\
  (forall p, In p (diff one_upload) -> In p (upload s2) \/ In p (download s2)) /\
  (forall p, In p (src one_upload) -> In p (upload s2) \/ In p (local_backup s2)) /\
  (forall p, In p (dst one_upload) -> In p (download s2) \/ In p (remote_backup s2)).
Proof.
  apply (sort_again_empty_iff stamp0 one_upload_cycle_start one_upload).
  vm_compute; reflexivity.
Defined.

(** C6 as worded fails: [one_upload] plans one upload; planning again over
    the same snapshot with lastsync moved to the start of that cycle finds
    both modtimes older than lastsync and plans a conflict. *)
Lemma replanning_idempotence_property_fails : ~ replanning_idempotence_property.
Proof.
  intros H.
  specialize (H stamp0 stamp0 one_upload_cycle_start one_upload
                (sorted stamp0 one_upload)
                (sorted stamp0 (set_lastsync one_upload_cycle_start one_upload))
                ltac:(vm_compute; reflexivity) ltac:(vm_compute; reflexivity)).
  destruct H as (Hu & _). vm_compute in Hu. discriminate Hu.
Qed.

(** ** Reasoning about the monad *)

Lemma bind_Return_inv {A B} (m : M A) (k : A -> M B) w b w' :
  (x <- m ;; k x) w = (Return b, w') ->
  exists a w1, m w = (Return a, w1) /\ k a w1 = (Return b, w').
Proof.
  unfold bind. destruct (m w) as [[a|e|] w1]; try discriminate. eauto.
Qed.

Section Post.
Variable R : world -> world -> Prop.
Variable E : exn -> Prop.
Hypothesis R_refl : forall w, R w w.
Hypothesis R_trans : forall a b c, R a b -> R b c -> R a c.

Lemma post_ret {A} (V : A -> Prop) (a : A) : V a -> post R E V (ret a).
Proof.
  intros Ha w o w' [= <- <-]. split; [apply R_refl|].
  repeat split; try discriminate. now intros ? [= <-].
Qed.

Lemma post_raise {A} (V : A -> Prop) e : E e -> post R E V (raise e).
Proof.
  intros He w o w' [= <- <-]. split; [apply R_refl|].
  repeat split; try discriminate. now intros ? [= <-].
Qed.

Lemma post_lift {A} (V : A -> Prop) (r : result A) :
  (forall e, r = Raise e -> E e) -> (forall a, r = Ok a -> V a) ->
  post R E V (lift r).
Proof.
  destruct r as [a|e]; intros He Ha; [apply post_ret|apply post_raise]; auto.
Qed.

Lemma post_weaken {A} (V V' : A -> Prop) (m : M A) :
  post R E V m -> (forall a, V a -> V' a) -> post R E V' m.
Proof.
  intros Hm HV w o w' H. destruct (Hm _ _ _ H) as (H1 & H2 & H3 & H4).
  repeat split; auto.
Qed.

Lemma post_bind {A B} (V : A -> Prop) (V' : B -> Prop) (m : M A) (k : A -> M B) :
  post R E V m -> (forall a, V a -> post R E V' (k a)) ->
  post R E V' (x <- m ;; k x).
Proof.
  intros Hm Hk w o w'. unfold bind.
  destruct (m w) as [[a|e|] w1] eqn:E1;
    destruct (Hm _ _ _ E1) as (R1 & X1 & V1 & N1).
  - intros H2. destruct (Hk a (V1 a eq_refl) _ _ _ H2) as (R2 & X2 & V2 & N2).
    repeat split; eauto.
  - intros [= <- <-]. split; [auto|]. repeat split; try discriminate.
    intros e0 [= <-]. now apply X1.
  - congruence.
Qed.

Lemma post_try_except {A} (V : A -> Prop) (body : M A)
    (handler : exn -> option (M A)) (E0 : exn -> Prop) :
  post R E0 V body ->
  (forall e h, handler e = Some h -> post R E V h) ->
  (forall e, E0 e -> handler e = None -> E e) ->
  post R E V (try_except body handler).
Proof.
  intros Hb Hh Hn w o w'. unfold try_except.
  destruct (body w) as [[a|e|] w1] eqn:E1;
    destruct (Hb _ _ _ E1) as (R1 & X1 & V1 & N1).
  - intros [= <- <-]. split; [auto|]. repeat split; try discriminate. auto.
  - destruct (handler e) as [h|] eqn:Eh.
    + intros H2. destruct (Hh e h Eh _ _ _ H2) as (R2 & X2 & V2 & N2).
      repeat split; eauto.
    + intros [= <- <-]. split; [auto|]. repeat split; try discriminate.
      intros e0 [= <-]. apply Hn; auto.
  - congruence.
Qed.

Lemma post_for_ {A} (xs : list A) (body : A -> M unit) :
  (forall x, In x xs -> post R E anything (body x)) ->
  post R E anything (for_ xs body).
Proof.
  induction xs as [|x rest IH]; simpl; intros H; [now apply post_ret|].
  eapply post_bind; [apply H; now left|]. intros _ _. apply IH. auto.
Qed.

Lemma post_if {A} (V : A -> Prop) (b : bool) (m1 m2 : M A) :
  (b = true -> post R E V m1) -> (b = false -> post R E V m2) ->
  post R E V (if b then m1 else m2).
Proof. destruct b; auto. Qed.

End Post.

Lemma grows_refl P w : grows P w w.
Proof. exists []. now rewrite app_nil_r. Qed.

Lemma grows_trans P a b c : grows P a b -> grows P b c -> grows P a c.
Proof.
  intros (n1 & E1 & F1) (n2 & E2 & F2). exists (n1 ++ n2).
  rewrite E2, E1, app_assoc. split; [reflexivity|]. apply Forall_app; auto.
Qed.

Lemma frame_refl {X} P (g : bool -> option string -> storage -> X) w :
  frame P g w w.
Proof. split; [reflexivity|apply grows_refl]. Qed.

Lemma frame_trans {X} P (g : bool -> option string -> storage -> X) a b c :
  frame P g a b -> frame P g b c -> frame P g a c.
Proof.
  intros [G1 H1] [G2 H2]. split; [congruence|eapply grows_trans; eauto].
Qed.

(** Exceptions of the pure stages. *)

Lemma for_each_raises {A S} (P : exn -> Prop) (body : A -> S -> result S) xs :
  (forall x s e, body x s = Raise e -> P e) ->
  forall s e, for_each xs body s = Raise e -> P e.
Proof.
  intros Hb. induction xs as [|x rest IH]; simpl; intros s e H; [discriminate|].
  destruct (body x s) as [s1|e1] eqn:E1; simpl in H.
  - eapply IH; eauto.
  - injection H as <-. eapply Hb; eauto.
Qed.

Lemma modtime_ge_raises table f ls e :
  modtime_ge table f ls = Raise e -> lookup_error e.
Proof.
  unfold modtime_ge. destruct (PyDict.get table f) as [[t|]|]; intros [= <-]; exact I.
Qed.

Lemma modtime_lt_raises table f ls e :
  modtime_lt table f ls = Raise e -> lookup_error e.
Proof.
  unfold modtime_lt. destruct (PyDict.get table f) as [[t|]|]; intros [= <-]; exact I.
Qed.

Lemma and_then_raises a b e :
  (forall e, a = Raise e -> lookup_error e) ->
  (forall e, b = Raise e -> lookup_error e) ->
  and_then a b = Raise e -> lookup_error e.
Proof.
  unfold and_then. destruct a as [[|]|ea]; simpl; intros Ha Hb H; auto; discriminate.
Qed.

Lemma sort_raises stamp s e : sort stamp s = Raise e -> lookup_error e.
Proof.
  unfold sort. cbv zeta.
  set (s0 := set_remote_backup [] _).
  destruct (for_each (diff s0) _ s0) as [s1|e1] eqn:H1; simpl.
  - destruct (for_each (src s1) sort_src_file s1) as [s2|e2] eqn:H2; simpl.
    + apply for_each_raises. intros f x e0. unfold sort_dst_file.
      destruct (modtime_ge _ _ _) as [[|]|e3] eqn:E3; simpl; try discriminate.
      intros [= <-]. eapply modtime_ge_raises; eauto.
    + intros [= <-]. revert H2. apply for_each_raises. intros f x e0.
      unfold sort_src_file.
      destruct (modtime_ge _ _ _) as [[|]|e3] eqn:E3; simpl; try discriminate.
      intros [= <-]. eapply modtime_ge_raises; eauto.
  - intros [= <-]. revert H1. apply for_each_raises. intros f x e0.
    unfold sort_diff_file.
    destruct (and_then (modtime_ge _ _ _) _) as [[|]|e3] eqn:E3; simpl.
    + destruct (careful _); discriminate.
    + destruct (and_then (modtime_lt _ _ _) _) as [[|]|e4] eqn:E4; simpl.
      * destruct (careful _); discriminate.
      * discriminate.
      * intros [= <-]. revert E4. apply and_then_raises;
          eauto using modtime_ge_raises, modtime_lt_raises.
    + intros [= <-]. revert E3. apply and_then_raises;
        eauto using modtime_ge_raises, modtime_lt_raises.
Qed.

Lemma sort_configuration stamp s s' :
  sort stamp s = Ok s' -> configuration s' = configuration s.
Proof. intros H. apply sort_spec in H as [-> _]. reflexivity. Qed.

Lemma lookup_error_stage e : lookup_error e -> stage_error e.
Proof. destruct e; simpl; auto. Qed.

Lemma stage_error_not_SyncException e : stage_error e -> not_SyncException e.
Proof. destruct e; simpl; auto. Qed.

Lemma stage_error_is_Exception e : stage_error e -> is_Exception e = true.
Proof. destruct e; simpl; tauto. Qed.

(** ** What a cycle does to the world

    One pass over the stages, for any class [P] of events and any
    observation [g] that the commands of the cycle respect. *)

(** The parts of a [post] that need no thought. *)
Ltac rest_of_post :=
  repeat split; try discriminate; try (intros; exact I);
  try (now intros ? [= <-]).

Section Stages.
Variable env : environment.
Variable cfg : config.
Variable X : Type.
Variable P : event -> Prop.
Variable g : bool -> option string -> storage -> X.

Hypothesis P_log : forall l lvl msg, P (Log l lvl msg).
Hypothesis P_rclone :
  forall c found st, rclone_call cfg c -> P (Exec (rclone_cmd cfg c) found st).
Hypothesis g_rclone :
  forall c n found st r l m, rclone_call cfg c ->
    subprocess env n (rclone_cmd cfg c) found st = Completed r ->
    g l m (storage_after r) = g l m st.
Hypothesis P_mv :
  dryrun cfg = false -> forall mv found st, P (Exec (mv_cmd cfg mv) found st).
Hypothesis g_mv :
  dryrun cfg = false -> forall mv n found st r l m,
    subprocess env n (mv_cmd cfg mv) found st = Completed r ->
    g l m (storage_after r) = g l m st.
Hypothesis P_marker : dryrun cfg = false -> forall c, P (WriteMarker c).
Hypothesis g_marker :
  dryrun cfg = false -> forall l m m' st, g l m st = g l m' st.

Local Abbreviation ok := (post (frame P g) stage_error).

Lemma ok_ret {A} (V : A -> Prop) a : V a -> ok V (ret a).
Proof. intros H. apply post_ret; [apply frame_refl|exact H]. Qed.

Lemma ok_bind {A B} (V : A -> Prop) (V' : B -> Prop) (m : M A) (k : A -> M B) :
  ok V m -> (forall a, V a -> ok V' (k a)) -> ok V' (x <- m ;; k x).
Proof. apply post_bind. apply frame_trans. Qed.

Lemma ok_seq {A B} (V : A -> Prop) (V' : B -> Prop) (m : M A) (k : M B) :
  ok V m -> ok V' k -> ok V' (m ;; k).
Proof. intros Hm Hk. eapply ok_bind; eauto. Qed.

Lemma ok_lift {A} (V : A -> Prop) (r : result A) :
  (forall e, r = Raise e -> stage_error e) -> (forall a, r = Ok a -> V a) ->
  ok V (lift r).
Proof. apply post_lift. apply frame_refl. Qed.

Lemma ok_emit ev : P ev -> ok anything (emit ev).
Proof.
  intros Hev w o w' [= <- <-]. split; [|rest_of_post].
  split; [reflexivity|]. exists [ev]. simpl. auto.
Qed.

Lemma ok_log l lvl msg : ok anything (log l lvl msg).
Proof. apply ok_emit, P_log. Qed.

Lemma ok_instant : ok anything instant.
Proof.
  intros w o w' [= <- <-]. split; [apply frame_refl with (w := w)|rest_of_post].
Qed.

Lemma ok_now_formatted fmt : ok anything (now_formatted env fmt).
Proof.
  unfold now_formatted. eapply ok_bind; [apply ok_instant|].
  intros n _. now apply ok_ret.
Qed.

Lemma ok_open_write c name content : ok anything (open_write c name content).
Proof.
  intros w o w'. unfold open_write. destruct (lock_dir w) eqn:L; intros [= <- <-].
  - split; [split; [reflexivity|apply grows_refl with (w := w)]|rest_of_post].
  - split; [apply frame_refl|rest_of_post].
Qed.

Lemma ok_open_read c name : ok anything (open_read c name).
Proof.
  intros w o w'. unfold open_read.
  destruct (PyDict.get (scratch w) name); intros [= <- <-];
    (split; [apply frame_refl|rest_of_post]).
Qed.

Lemma ok_os_remove c name : ok anything (os_remove c name).
Proof.
  intros w o w'. unfold os_remove.
  destruct (PyDict.get (scratch w) name); intros [= <- <-].
  - split; [split; [reflexivity|apply grows_refl with (w := w)]|rest_of_post].
  - split; [apply frame_refl|rest_of_post].
Qed.

Lemma ok_subprocess_run cmd check_ec :
  (forall found st, P (Exec cmd found st)) ->
  (forall n found st r l m,
     subprocess env n cmd found st = Completed r ->
     g l m (storage_after r) = g l m st) ->
  ok anything (subprocess_run env cmd check_ec).
Proof.
  intros HP Hg w o w'. unfold subprocess_run.
  assert (G : grows P w (mk_world (S (ticks w)) (lock_dir w) (scratch w)
                (lastsync_txt w) (store w)
                (events w ++ [Exec cmd (scratch w) (store w)]))).
  { exists [Exec cmd (scratch w) (store w)]. simpl. auto. }
  destruct (subprocess env (ticks w) cmd (scratch w) (store w)) as [|r] eqn:Er.
  - intros [= <- <-]. split; [split; [reflexivity|exact G]|rest_of_post].
  - specialize (Hg _ _ _ _ (lock_dir w) (lastsync_txt w) Er).
    destruct (check_ec && negb (returncode r =? 0)%Z); intros [= <- <-];
      (split; [split; [exact Hg|destruct G as (new & G1 & G2); exists new; auto]
              |rest_of_post]).
Qed.

Lemma ok_exec_cmd cmd check_ec :
  (forall found st, P (Exec cmd found st)) ->
  (forall n found st r l m,
     subprocess env n cmd found st = Completed r ->
     g l m (storage_after r) = g l m st) ->
  ok anything (exec_cmd env cmd check_ec).
Proof.
  intros HP Hg. unfold exec_cmd.
  eapply ok_seq; [apply ok_log|].
  eapply ok_bind; [now apply ok_subprocess_run|]. intros exe _.
  eapply ok_seq; [apply ok_log|].
  eapply ok_seq; [apply ok_log|]. now apply ok_ret.
Qed.

Lemma ok_exec_rclone s c check_ec :
  same_cfg cfg s -> rclone_call cfg c -> ok anything (exec_rclone env s c check_ec).
Proof.
  intros Hs Hc. unfold exec_rclone. rewrite Hs. apply ok_exec_cmd.
  - intros found st. now apply P_rclone.
  - intros n found st r l m. now apply g_rclone.
Qed.

Lemma parse_time_raises text e :
  parse_time env text = Raise e -> stage_error e.
Proof. unfold parse_time. destruct (strptime env text); intros [= <-]; exact I. Qed.

Lemma record_modtime_raises line table e :
  record_modtime env line table = Raise e -> stage_error e.
Proof.
  unfold record_modtime.
  destruct (split_on ";" line) as [|k [|m [|? ?]]]; try (intros [= <-]; exact I).
  destruct (parse_time env m) eqn:Ep; simpl; [discriminate|].
  intros [= <-]. eapply parse_time_raises; eauto.
Qed.

Lemma ok_load_last_sync s : same_cfg cfg s -> ok (same_cfg cfg) (load_last_sync env s).
Proof.
  intros Hs. unfold load_last_sync.
  apply post_try_except with (E0 := stage_error);
    [apply frame_refl || apply frame_trans .. | | |].
  - eapply ok_bind with (V := anything).
    + intros w o w'. destruct (lastsync_txt w); intros [= <- <-];
        (split; [apply frame_refl|rest_of_post]).
    + intros content _. eapply ok_bind with (V := anything).
      * apply ok_lift; [|intros; exact I]. unfold first_line.
        destruct (splitlines content); intros e [= <-]; exact I.
      * intros line _. eapply ok_bind with (V := anything).
        -- apply ok_lift; [apply parse_time_raises|intros; exact I].
        -- intros t _. apply ok_ret. exact Hs.
  - intros e h. destruct e; intros [= <-]. apply ok_ret. exact Hs.
  - auto.
Qed.

Lemma ok_read_lines c name : ok anything (read_lines c name).
Proof.
  unfold read_lines. eapply ok_bind; [apply ok_open_read|].
  intros content _. now apply ok_ret.
Qed.

Lemma ok_run_check s : same_cfg cfg s -> ok (same_cfg cfg) (run_check env s).
Proof.
  intros Hs. unfold run_check. cbv zeta.
  eapply ok_bind; [apply ok_now_formatted|]. intros start _.
  eapply ok_seq; [apply ok_exec_rclone; [exact Hs|rewrite Hs; constructor]|].
  eapply ok_bind; [apply ok_read_lines|]. intros d1 _.
  eapply ok_bind; [apply ok_read_lines|]. intros d2 _.
  eapply ok_bind; [apply ok_read_lines|]. intros d3 _.
  eapply ok_seq; [apply ok_os_remove|].
  eapply ok_seq; [apply ok_os_remove|].
  eapply ok_seq; [apply ok_os_remove|].
  apply ok_ret. exact Hs.
Qed.

Lemma ok_get_modtimes s : same_cfg cfg s -> ok (same_cfg cfg) (get_modtimes env s).
Proof.
  intros Hs. unfold get_modtimes. cbv zeta.
  eapply ok_seq; [apply ok_open_write|].
  eapply ok_bind; [apply ok_exec_rclone; [exact Hs|simpl; rewrite Hs; constructor]|].
  intros out1 _.
  eapply ok_bind with (V := anything).
  { apply ok_lift; [|intros; exact I].
    apply for_each_raises. intros ? ? ?. apply record_modtime_raises. }
  intros lc _.
  eapply ok_seq; [apply ok_os_remove|].
  eapply ok_seq; [apply ok_open_write|].
  eapply ok_bind; [apply ok_exec_rclone; [exact Hs|simpl; rewrite Hs; constructor]|].
  intros out2 _.
  eapply ok_bind with (V := anything).
  { apply ok_lift; [|intros; exact I].
    apply for_each_raises. intros ? ? ?. apply record_modtime_raises. }
  intros rc _.
  eapply ok_seq; [apply ok_os_remove|].
  apply ok_ret. exact Hs.
Qed.

Lemma ok_sort_now s : same_cfg cfg s -> ok (same_cfg cfg) (sort_now env s).
Proof.
  intros Hs. unfold sort_now.
  eapply ok_bind; [apply ok_now_formatted|]. intros stamp _.
  apply ok_lift.
  - intros e H. apply lookup_error_stage. eapply sort_raises; eauto.
  - intros s' H. unfold same_cfg. now rewrite (sort_configuration _ _ _ H).
Qed.

Lemma ok_log_summary s : ok anything (log_summary s).
Proof.
  unfold log_summary. repeat (eapply ok_seq; [apply ok_log|]). apply ok_log.
Qed.

Lemma ok_do_local_moves s : same_cfg cfg s -> ok anything (do_local_moves env s).
Proof.
  intros Hs. unfold do_local_moves. rewrite Hs.
  apply post_if; intros D; [|now apply ok_ret].
  apply negb_true_iff in D.
  apply post_for_; [apply frame_refl || apply frame_trans .. |].
  intros mv _. eapply ok_seq; [|now apply ok_ret].
  unfold same_cfg in Hs. rewrite Hs. apply ok_exec_cmd.
  - intros found st. now apply P_mv.
  - intros n found st r l m. now apply (g_mv D).
Qed.

Lemma ok_do_local_backup bp s : same_cfg cfg s -> ok anything (do_local_backup env bp s).
Proof.
  intros Hs. unfold do_local_backup. cbv zeta.
  destruct (0 <? List.length (local_backup s))%nat; [|now apply ok_ret].
  eapply ok_seq; [apply ok_open_write|].
  eapply ok_seq; [apply ok_exec_rclone; [exact Hs|rewrite Hs; constructor]|].
  eapply ok_seq; [apply ok_exec_rclone; [exact Hs|rewrite Hs; constructor]|].
  apply ok_os_remove.
Qed.

Lemma ok_do_remote_backup bp s : same_cfg cfg s -> ok anything (do_remote_backup env bp s).
Proof.
  intros Hs. unfold do_remote_backup. cbv zeta.
  destruct (0 <? List.length (remote_backup s))%nat; [|now apply ok_ret].
  eapply ok_seq; [apply ok_open_write|].
  eapply ok_seq; [apply ok_exec_rclone; [exact Hs|rewrite Hs; constructor]|].
  eapply ok_seq; [apply ok_exec_rclone; [exact Hs|rewrite Hs; constructor]|].
  apply ok_os_remove.
Qed.

Lemma ok_do_upload s : same_cfg cfg s -> ok anything (do_upload env s).
Proof.
  intros Hs. unfold do_upload. cbv zeta.
  destruct (0 <? List.length (upload s))%nat; [|now apply ok_ret].
  eapply ok_seq; [apply ok_open_write|].
  eapply ok_seq; [apply ok_exec_rclone; [exact Hs|rewrite Hs; constructor]|].
  apply ok_os_remove.
Qed.

Lemma ok_do_download s : same_cfg cfg s -> ok anything (do_download env s).
Proof.
  intros Hs. unfold do_download. cbv zeta.
  destruct (0 <? List.length (download s))%nat; [|now apply ok_ret].
  eapply ok_seq; [apply ok_open_write|].
  eapply ok_seq; [apply ok_exec_rclone; [exact Hs|rewrite Hs; constructor]|].
  apply ok_os_remove.
Qed.

Lemma ok_action s : same_cfg cfg s -> ok anything (action env s).
Proof.
  intros Hs. unfold action. cbv zeta.
  eapply ok_bind; [apply ok_now_formatted|]. intros stamp _.
  eapply ok_seq; [now apply ok_do_local_moves|].
  eapply ok_seq; [now apply ok_do_local_backup|].
  eapply ok_seq; [now apply ok_do_remote_backup|].
  eapply ok_seq; [now apply ok_do_upload|].
  now apply ok_do_download.
Qed.

Lemma ok_set_last_sync s : dryrun cfg = false -> ok anything (set_last_sync s).
Proof.
  intros D w o w'. unfold set_last_sync, emit. simpl. intros [= <- <-].
  split; [|rest_of_post].
  split; simpl; [now apply g_marker|].
  exists [WriteMarker (syncstart s +++ newline)]. split; [reflexivity|].
  constructor; [now apply P_marker|constructor].
Qed.

Lemma ok_run s : same_cfg cfg s -> ok anything (run env s).
Proof.
  intros Hs. unfold run.
  eapply ok_bind; [now apply ok_load_last_sync|]. intros s1 H1.
  eapply ok_bind; [now apply ok_run_check|]. intros s2 H2.
  eapply ok_bind; [now apply ok_get_modtimes|]. intros s3 H3.
  eapply ok_bind; [now apply ok_sort_now|]. intros s4 H4.
  eapply ok_seq; [apply ok_log_summary|].
  eapply ok_seq; [now apply ok_action|].
  rewrite H4. apply post_if; intros D.
  - apply ok_set_last_sync. now apply negb_true_iff.
  - now apply ok_ret.
Qed.

End Stages.

(** ** The outcome of [run] *)

Lemma run_outcome env s w o w' :
  run env s w = (o, w') ->
  (forall e, o = Raised e -> stage_error e) /\ o <> Hangs /\
  lock_dir w' = lock_dir w /\ grows not_rmdir w w'.
Proof.
  intros H.
  assert (Q : post (frame not_rmdir (fun l _ _ => l)) stage_error anything
                (run env s)).
  { apply (ok_run env (configuration s)); try reflexivity; auto. }
  destruct (Q _ _ _ H) as ((G & Hg) & X & _ & N). auto.
Qed.

(** [release_lock] never raises: it removes the marker when the lock
    directory is empty, and logs its failure otherwise. *)
Lemma release_lock_spec s w :
  exists ok logs,
    release_lock s w =
      (Return tt,
       mk_world (ticks w) (lock_dir w && negb ok) (if ok then [] else scratch w)
         (lastsync_txt w) (store w)
         (events w ++ Rmdir (lock_path (configuration s)) ok :: logs)) /\
    Forall not_rmdir logs /\
    ok = lock_dir w && match scratch w with [] => true | _ => false end.
Proof.
  unfold release_lock, try_except, os_rmdir.
  destruct w as [t l sc mk st ev]; simpl.
  destruct l; [destruct sc as [|f rest]|]; simpl.
  - exists true, []. repeat split; constructor.
  - exists false,
      [Log logger_syncer WARNING [Lit "Failed to remove Sync Lock."];
       Log logger_syncer ERROR [ExcInfo (OSError (lock_path (configuration s)))]].
    cbn. unfold log_exception, log, emit. cbn. rewrite <- !app_assoc. cbn.
    split; [reflexivity|]. split; [repeat constructor|reflexivity].
  - exists false,
      [Log logger_syncer WARNING [Lit "Failed to remove Sync Lock."];
       Log logger_syncer ERROR
         [ExcInfo (FileNotFoundError (lock_path (configuration s)))]].
    cbn. unfold log_exception, log, emit. cbn. rewrite <- !app_assoc. cbn.
    split; [reflexivity|]. split; [repeat constructor|reflexivity].
Qed.

Lemma guarded_run_spec env s w o w' :
  guarded_run env s w = (o, w') ->
  exists w2, run env s w = (o, w2) /\ release_lock s w2 = (Return tt, w').
Proof.
  unfold guarded_run, try_finally, try_except.
  destruct (run env s w) as [[[]|e|] w2] eqn:Hrun;
    destruct (run_outcome _ _ _ _ _ Hrun) as (X & N & _).
  - destruct (release_lock_spec s w2) as (ok & logs & Hrel & _).
    unfold bind. rewrite Hrel. intros [= <- <-]. eauto.
  - assert (Hs : stage_error e) by (now apply X).
    destruct e; try contradiction;
      destruct (release_lock_spec s w2) as (ok & logs & Hrel & _);
      unfold bind; rewrite Hrel; intros [= <- <-]; eauto.
  - congruence.
Qed.

Lemma acquire_lock_free env fuel s w :
  lock_dir w = false ->
  acquire_lock env fuel s w =
    (Return tt,
     mk_world (ticks w) true [] (lastsync_txt w) (store w)
       (events w ++ [Mkdir (lock_path (configuration s))])).
Proof.
  intros L. unfold acquire_lock, bind.
  assert (Hp : forall msg, poll env fuel 0 lock_dir logger_syncer msg w = (Return tt, w)).
  { intros msg. destruct fuel; simpl; now rewrite L. }
  rewrite Hp. unfold os_mkdir. rewrite L. reflexivity.
Qed.

(** The end of a round touches neither the lock nor the lock directory. *)
Lemma pace_frame env cfg start w o w' :
  pace env cfg start w = (o, w') ->
  lock_dir w' = lock_dir w /\ grows not_rmdir w w' /\ o <> Hangs /\
  (forall e, o = Raised e -> e = SystemExit 0).
Proof.
  unfold pace, now_seconds, sleep, try_except, bind, instant, ret, raise, log,
    emit. cbn.
  destruct (Qle_bool 0 _); cbn.
  - destruct (interrupt env _); cbn; intros [= <- <-]; cbn;
      (split; [reflexivity|]); (split; [|split; [discriminate|]]).
    + eexists. rewrite <- !app_assoc. split; [reflexivity|]. repeat constructor.
    + now intros e [= <-].
    + eexists. rewrite <- !app_assoc. split; [reflexivity|]. repeat constructor.
    + discriminate.
  - intros [= <- <-]. cbn. split; [reflexivity|]. split; [|split; discriminate].
    eexists. split; [reflexivity|]. repeat constructor.
Qed.

(** The shape of a round that finds the lock free: the marker is
    created, [run] comes to an end, one removal of the marker is
    attempted, and the round ends. *)
Lemma sync_round_shape env fuel cfg w o w' :
  lock_dir w = false ->
  sync_round env fuel cfg w = (o, w') ->
  exists w1 o2 w2 w3,
    lock_dir w1 = true /\ scratch w1 = [] /\ grows not_rmdir w w1 /\
    run env (new_Sync cfg) w1 = (o2, w2) /\
    release_lock (new_Sync cfg) w2 = (Return tt, w3) /\
    lock_dir w' = lock_dir w3 /\ grows not_rmdir w3 w' /\
    o <> Hangs /\
    match o2 with
    | Return _ => o = Return tt \/ o = Raised (SystemExit 0)
    | Raised e => o = Raised e
    | Hangs => False
    end.
Proof.
  intros L. unfold sync_round. cbv zeta.
  unfold bind at 1. unfold now_seconds, bind at 1, instant, ret.
  unfold bind at 1. unfold log, emit.
  unfold bind at 1. rewrite acquire_lock_free by exact L. cbn [ticks lock_dir scratch lastsync_txt store events configuration new_Sync].
  set (w1 := mk_world _ true [] _ _ _).
  unfold bind at 1.
  destruct (guarded_run env (new_Sync cfg) w1) as [o1 w3] eqn:Hg.
  destruct (guarded_run_spec _ _ _ _ _ Hg) as (w2 & Hrun & Hrel).
  destruct (run_outcome _ _ _ _ _ Hrun) as (X & N & _).
  assert (G1 : grows not_rmdir w w1).
  { eexists. unfold w1; cbn. rewrite <- app_assoc. split; [reflexivity|].
    repeat constructor. }
  destruct o1 as [[]|e|].
  - intros Hp. destruct (pace_frame _ _ _ _ _ _ Hp) as (A & B & C & D).
    exists w1, (Return tt), w2, w3. repeat split; auto.
    destruct o as [[]|e|]; [now left|right|congruence].
    now rewrite (D e eq_refl).
  - intros [= <- <-]. exists w1, (Raised e), w2, w3.
    repeat split; auto using grows_refl; discriminate.
  - congruence.
Qed.

(** ** The lock directory over a cycle that completes *)

Lemma triple_bind {A B} Pre (m : M A) (Mid : A -> world -> Prop) (k : A -> M B) Post :
  triple Pre m Mid -> (forall a, triple (Mid a) (k a) Post) ->
  triple Pre (x <- m ;; k x) Post.
Proof.
  intros Hm Hk w b w' HP H.
  apply bind_Return_inv in H as (a & w1 & H1 & H2).
  eapply Hk; eauto.
Qed.

Lemma triple_ret {A} (Pre : world -> Prop) (a : A) :
  triple Pre (ret a) (fun _ => Pre).
Proof. intros w b w' HP [= <- <-]. exact HP. Qed.

Lemma triple_weaken {A} (Pre Pre' : world -> Prop) (m : M A)
    (Post Post' : A -> world -> Prop) :
  triple Pre m Post -> (forall w, Pre' w -> Pre w) ->
  (forall a w, Post a w -> Post' a w) -> triple Pre' m Post'.
Proof. intros H H1 H2 w a w' HP Hm. eauto. Qed.

Lemma triple_value {A} R E (V : A -> Prop) (m : M A) (Pre : world -> Prop) :
  post R E V m -> triple Pre m (fun _ => Pre) ->
  triple Pre m (fun a w => V a /\ Pre w).
Proof.
  intros Hp Ht w a w' HP H. split; [|eapply Ht; eauto].
  destruct (Hp _ _ _ H) as (_ & _ & HV & _). now apply HV.
Qed.

Lemma keys_in_set names (d : files) k v :
  keys_in names d -> In k names -> keys_in names (PyDict.set d k v).
Proof.
  unfold keys_in, PyDict.keys. intros Hd Hk.
  induction d as [|[k0 v0] rest IH]; simpl.
  - intros x [<-|[]]. exact Hk.
  - destruct (String.eqb k0 k) eqn:E; simpl; intros x [<-|Hx].
    + apply Hd. now left.
    + apply Hd. now right.
    + apply Hd. now left.
    + apply IH; [|exact Hx]. intros y Hy. apply Hd. now right.
Qed.

Lemma keys_in_write_all names new : forall d : files,
  keys_in names d -> (forall k v, In (k, v) new -> In k names) ->
  keys_in names (write_all d new).
Proof.
  unfold write_all.
  induction new as [|[k v] rest IH]; simpl; intros d Hd Hn; [exact Hd|].
  apply IH; [|eauto]. apply keys_in_set; eauto.
Qed.

Lemma keys_in_remove names (d : files) k :
  keys_in (k :: names) d -> keys_in names (remove_key d k).
Proof.
  unfold keys_in, PyDict.keys.
  induction d as [|[k0 v0] rest IH]; simpl; intros Hd x Hx; [destruct Hx|].
  assert (Hrest : forall y, In y (map fst rest) -> In y (k :: names))
    by (intros y Hy; apply Hd; now right).
  destruct (String.eqb k0 k) eqn:E.
  - apply IH; auto.
  - simpl in Hx. destruct Hx as [<-|Hx]; [|apply IH; auto].
    destruct (Hd k0 (or_introl eq_refl)) as [<-|H]; [|exact H].
    now rewrite String.eqb_refl in E.
Qed.

Lemma keys_in_nil (d : files) : keys_in [] d -> d = [].
Proof.
  destruct d as [|[k v] rest]; [reflexivity|]. intros H.
  destruct (H k). now left.
Qed.

(** Only the command line of the check is the command line of the check. *)
Lemma rclone_opts_check cfg : rclone_opts cfg (check_cmd cfg) = base_opts cfg.
Proof. unfold rclone_opts, base_opts. simpl. now rewrite andb_false_r. Qed.

Lemma rclone_opts_cases cfg c :
  rclone_opts cfg c = base_opts cfg \/
  rclone_opts cfg c = base_opts cfg ++ ["--dry-run"].
Proof.
  unfold rclone_opts, base_opts.
  destruct (dryrun cfg && negb (String.eqb (hd "" c) "check")); auto.
Qed.

Lemma rclone_cmd_not_check cfg c :
  hd "" c <> "check" ->
  rclone_cmd cfg c <> rclone_cmd cfg (check_cmd cfg).
Proof.
  intros Hc. unfold rclone_cmd. rewrite rclone_opts_check. simpl.
  intros [= H]. destruct (rclone_opts_cases cfg c) as [E|E]; rewrite E in H.
  - apply app_inv_head in H. subst c. now apply Hc.
  - rewrite <- app_assoc in H. apply app_inv_head in H. discriminate H.
Qed.

Section Clean.
Variable env : environment.
Variable cfg : config.
Hypothesis tidy : tidy_backend env cfg.

Lemma t_emit d ev : triple (holds d) (emit ev) (fun _ => holds d).
Proof. intros w a w' HP [= <- <-]. exact HP. Qed.

Lemma t_log d l lvl msg : triple (holds d) (log l lvl msg) (fun _ => holds d).
Proof. apply t_emit. Qed.

Lemma t_now_formatted d fmt :
  triple (holds d) (now_formatted env fmt) (fun _ => holds d).
Proof. intros w a w' HP [= <- <-]. exact HP. Qed.

Lemma t_lift {A} d (r : result A) : triple (holds d) (lift r) (fun _ => holds d).
Proof. intros w a w' HP. destruct r; intros [= <- <-]. exact HP. Qed.

Lemma t_open_write d c name content :
  triple (holds d) (open_write c name content)
         (fun _ => holds (PyDict.set d name content)).
Proof.
  intros w a w' [L S]. unfold open_write. rewrite L. intros [= <- <-].
  split; simpl; congruence.
Qed.

Lemma t_os_remove d c name :
  triple (holds d) (os_remove c name) (fun _ => holds (remove_key d name)).
Proof.
  intros w a w' [L S]. unfold os_remove.
  destruct (PyDict.get (scratch w) name); intros [= <- <-].
  split; simpl; congruence.
Qed.

Lemma t_os_remove_within names c name :
  triple (within (name :: names)) (os_remove c name) (fun _ => within names).
Proof.
  intros w a w' [L S]. unfold os_remove.
  destruct (PyDict.get (scratch w) name); intros [= <- <-].
  split; simpl; [exact L|]. now apply keys_in_remove.
Qed.

Lemma t_read_lines_within names c name :
  triple (within names) (read_lines c name) (fun _ => within names).
Proof.
  intros w a w' HP. unfold read_lines, bind, open_read.
  destruct (PyDict.get (scratch w) name); intros [= <- <-]. exact HP.
Qed.

Lemma written_nil cmd n found st r :
  cmd <> rclone_cmd cfg (check_cmd cfg) ->
  subprocess env n cmd found st = Completed r -> written r = [].
Proof.
  intros Hc Hr. destruct (written r) as [|[k v] rest] eqn:E; [reflexivity|].
  destruct (tidy n cmd found st r k v Hr) as [H _]; [rewrite E; now left|].
  contradiction.
Qed.

Lemma t_exec_cmd d cmd check_ec :
  cmd <> rclone_cmd cfg (check_cmd cfg) ->
  triple (holds d) (exec_cmd env cmd check_ec) (fun _ => holds d).
Proof.
  intros Hc w a w' [L S]. unfold exec_cmd, bind, log, emit, subprocess_run. cbn.
  destruct (subprocess env _ cmd _ _) as [|r] eqn:Er; [discriminate|].
  rewrite L, (written_nil _ _ _ _ _ Hc Er).
  destruct (check_ec && negb (returncode r =? 0)%Z); [discriminate|].
  intros [= <- <-]. split; simpl; auto.
Qed.

Lemma t_exec_check check_ec :
  triple (holds []) (exec_cmd env (rclone_cmd cfg (check_cmd cfg)) check_ec)
         (fun _ => within ["diff.txt"; "dst.txt"; "src.txt"]).
Proof.
  intros w a w' [L S]. unfold exec_cmd, bind, log, emit, subprocess_run. cbn.
  destruct (subprocess env _ _ _ _) as [|r] eqn:Er; [discriminate|].
  rewrite L.
  destruct (check_ec && negb (returncode r =? 0)%Z); [discriminate|].
  intros [= <- <-]. split; simpl; [reflexivity|].
  apply keys_in_write_all.
  - rewrite S. intros k [].
  - intros k v Hkv. now destruct (tidy _ _ _ _ r k v Er Hkv).
Qed.

Lemma t_exec_rclone d s c check_ec :
  same_cfg cfg s -> hd "" c <> "check" ->
  triple (holds d) (exec_rclone env s c check_ec) (fun _ => holds d).
Proof.
  intros Hs Hc. unfold exec_rclone. rewrite Hs.
  apply t_exec_cmd. now apply rclone_cmd_not_check.
Qed.

Lemma t_run_check s :
  same_cfg cfg s -> triple (holds []) (run_check env s) (fun _ => holds []).
Proof.
  intros Hs. unfold run_check. cbv zeta.
  eapply triple_bind; [apply t_now_formatted|]. intros start; cbv beta.
  eapply triple_bind.
  { unfold exec_rclone. simpl. rewrite Hs. apply t_exec_check. }
  intros ?; cbv beta.
  eapply triple_bind; [apply t_read_lines_within|]. intros d1; cbv beta.
  eapply triple_bind; [apply t_read_lines_within|]. intros d2; cbv beta.
  eapply triple_bind; [apply t_read_lines_within|]. intros d3; cbv beta.
  eapply triple_bind; [apply t_os_remove_within|]. intros ?; cbv beta.
  eapply triple_bind; [apply t_os_remove_within|]. intros ?; cbv beta.
  eapply triple_bind; [apply t_os_remove_within|]. intros ?; cbv beta.
  intros w x w' [L K] [= <- <-]. split; [exact L|]. now apply keys_in_nil.
Qed.

Lemma t_get_modtimes s :
  same_cfg cfg s -> triple (holds []) (get_modtimes env s) (fun _ => holds []).
Proof.
  intros Hs. unfold get_modtimes. cbv zeta.
  eapply triple_bind; [apply t_open_write|]. intros ?; cbv beta.
  eapply triple_bind; [apply t_exec_rclone; [exact Hs|discriminate]|]. intros out1; cbv beta.
  eapply triple_bind; [apply t_lift|]. intros lc; cbv beta.
  eapply triple_bind; [apply t_os_remove|]. intros ?; cbv beta. simpl.
  eapply triple_bind; [apply t_open_write|]. intros ?; cbv beta.
  eapply triple_bind; [apply t_exec_rclone; [exact Hs|discriminate]|]. intros out2; cbv beta.
  eapply triple_bind; [apply t_lift|]. intros rc; cbv beta.
  eapply triple_bind; [apply t_os_remove|]. intros ?; cbv beta. simpl.
  apply triple_ret.
Qed.

Lemma t_sort_now s : triple (holds []) (sort_now env s) (fun _ => holds []).
Proof.
  unfold sort_now. eapply triple_bind; [apply t_now_formatted|].
  intros stamp. apply t_lift.
Qed.

Lemma t_log_summary d s : triple (holds d) (log_summary s) (fun _ => holds d).
Proof.
  unfold log_summary. repeat (eapply triple_bind; [apply t_log|]; intros ?; cbv beta).
  apply t_log.
Qed.

Lemma t_for_ {A} d (xs : list A) (body : A -> M unit) :
  (forall x, triple (holds d) (body x) (fun _ => holds d)) ->
  triple (holds d) (for_ xs body) (fun _ => holds d).
Proof.
  intros Hb. induction xs as [|x rest IH]; simpl; [apply triple_ret|].
  eapply triple_bind; [apply Hb|]. intros ?; cbv beta. exact IH.
Qed.

Lemma t_do_local_moves s :
  triple (holds []) (do_local_moves env s) (fun _ => holds []).
Proof.
  unfold do_local_moves. destruct (negb _); [|apply triple_ret].
  apply t_for_. intros mv.
  eapply triple_bind; [|intros ?; cbv beta; apply triple_ret].
  apply t_exec_cmd. unfold mv_cmd, rclone_cmd. discriminate.
Qed.

Lemma t_do_local_backup bp s :
  same_cfg cfg s ->
  triple (holds []) (do_local_backup env bp s) (fun _ => holds []).
Proof.
  intros Hs. unfold do_local_backup. cbv zeta.
  destruct (0 <? _)%nat; [|apply triple_ret].
  eapply triple_bind; [apply t_open_write|]. intros ?; cbv beta.
  eapply triple_bind; [apply t_exec_rclone; [exact Hs|discriminate]|]. intros ?; cbv beta.
  eapply triple_bind; [apply t_exec_rclone; [exact Hs|discriminate]|]. intros ?; cbv beta.
  eapply triple_weaken;
    [apply t_os_remove|intros ? H; exact H|intros ? ? H; exact H].
Qed.

Lemma t_do_remote_backup bp s :
  same_cfg cfg s ->
  triple (holds []) (do_remote_backup env bp s) (fun _ => holds []).
Proof.
  intros Hs. unfold do_remote_backup. cbv zeta.
  destruct (0 <? _)%nat; [|apply triple_ret].
  eapply triple_bind; [apply t_open_write|]. intros ?; cbv beta.
  eapply triple_bind; [apply t_exec_rclone; [exact Hs|discriminate]|]. intros ?; cbv beta.
  eapply triple_bind; [apply t_exec_rclone; [exact Hs|discriminate]|]. intros ?; cbv beta.
  eapply triple_weaken;
    [apply t_os_remove|intros ? H; exact H|intros ? ? H; exact H].
Qed.

Lemma t_do_upload s :
  same_cfg cfg s -> triple (holds []) (do_upload env s) (fun _ => holds []).
Proof.
  intros Hs. unfold do_upload. cbv zeta.
  destruct (0 <? _)%nat; [|apply triple_ret].
  eapply triple_bind; [apply t_open_write|]. intros ?; cbv beta.
  eapply triple_bind; [apply t_exec_rclone; [exact Hs|discriminate]|]. intros ?; cbv beta.
  eapply triple_weaken;
    [apply t_os_remove|intros ? H; exact H|intros ? ? H; exact H].
Qed.

Lemma t_do_download s :
  same_cfg cfg s -> triple (holds []) (do_download env s) (fun _ => holds []).
Proof.
  intros Hs. unfold do_download. cbv zeta.
  destruct (0 <? _)%nat; [|apply triple_ret].
  eapply triple_bind; [apply t_open_write|]. intros ?; cbv beta.
  eapply triple_bind; [apply t_exec_rclone; [exact Hs|discriminate]|]. intros ?; cbv beta.
  eapply triple_weaken;
    [apply t_os_remove|intros ? H; exact H|intros ? ? H; exact H].
Qed.

Lemma t_action s :
  same_cfg cfg s -> triple (holds []) (action env s) (fun _ => holds []).
Proof.
  intros Hs. unfold action. cbv zeta.
  eapply triple_bind; [apply t_now_formatted|]. intros stamp; cbv beta.
  eapply triple_bind; [apply t_do_local_moves|]. intros ?; cbv beta.
  eapply triple_bind; [now apply t_do_local_backup|]. intros ?; cbv beta.
  eapply triple_bind; [now apply t_do_remote_backup|]. intros ?; cbv beta.
  eapply triple_bind; [now apply t_do_upload|]. intros ?; cbv beta.
  now apply t_do_download.
Qed.

End Clean.

Lemma load_last_sync_world env s w o w' :
  load_last_sync env s w = (o, w') -> w' = w.
Proof.
  unfold load_last_sync, try_except, bind, lift, ret, raise.
  destruct (lastsync_txt w); cbn; [|now intros [= <- <-]].
  destruct (first_line _) as [line|e]; cbn.
  - destruct (parse_time _ _) as [t|e]; cbn; [now intros [= <- <-]|].
    destruct e; now intros [= <- <-].
  - destruct e; now intros [= <- <-].
Qed.

(** The stages hand the configuration on. *)
Section Configuration.
Variable env : environment.
Variable cfg : config.

Local Abbreviation hands_on :=
  (post (frame (fun _ => True) (fun _ _ _ => tt)) stage_error (same_cfg cfg)).

Lemma load_last_sync_cfg s : same_cfg cfg s -> hands_on (load_last_sync env s).
Proof. intros Hs. apply ok_load_last_sync; auto. Qed.

Lemma run_check_cfg s : same_cfg cfg s -> hands_on (run_check env s).
Proof. intros Hs. apply ok_run_check; auto. Qed.

Lemma get_modtimes_cfg s : same_cfg cfg s -> hands_on (get_modtimes env s).
Proof. intros Hs. apply ok_get_modtimes; auto. Qed.

Lemma sort_now_cfg s : same_cfg cfg s -> hands_on (sort_now env s).
Proof. intros Hs. apply ok_sort_now; auto. Qed.

End Configuration.

(** A cycle that completes with a tidy backend leaves the lock directory
    empty. *)
Lemma t_run env cfg s :
  tidy_backend env cfg -> same_cfg cfg s ->
  triple (holds []) (run env s) (fun _ => holds []).
Proof.
  intros tidy Hs. unfold run.
  eapply triple_bind.
  { eapply triple_value; [now apply (load_last_sync_cfg env cfg)|].
    intros w a w' HP H. now rewrite (load_last_sync_world _ _ _ _ _ H). }
  intros s1; cbv beta.
  intros w a w' [H1 HP]. revert w a w' HP.
  change (triple (holds [])
            (s2 <- run_check env s1 ;; s3 <- get_modtimes env s2 ;;
             s4 <- sort_now env s3 ;; log_summary s4 ;; action env s4 ;;
             (if negb (dryrun (configuration s4)) then set_last_sync s4 else ret tt))
            (fun _ => holds [])).
  eapply triple_bind.
  { eapply triple_value; [now apply (run_check_cfg env cfg)|]. now apply (t_run_check env cfg tidy). }
  intros s2; cbv beta.
  intros w a w' [H2 HP]. revert w a w' HP.
  change (triple (holds [])
            (s3 <- get_modtimes env s2 ;;
             s4 <- sort_now env s3 ;; log_summary s4 ;; action env s4 ;;
             (if negb (dryrun (configuration s4)) then set_last_sync s4 else ret tt))
            (fun _ => holds [])).
  eapply triple_bind.
  { eapply triple_value; [now apply (get_modtimes_cfg env cfg)|]. now apply (t_get_modtimes env cfg tidy). }
  intros s3; cbv beta.
  intros w a w' [H3 HP]. revert w a w' HP.
  change (triple (holds [])
            (s4 <- sort_now env s3 ;; log_summary s4 ;; action env s4 ;;
             (if negb (dryrun (configuration s4)) then set_last_sync s4 else ret tt))
            (fun _ => holds [])).
  eapply triple_bind.
  { eapply triple_value; [now apply (sort_now_cfg env cfg)|]. apply t_sort_now. }
  intros s4; cbv beta.
  intros w a w' [H4 HP]. revert w a w' HP.
  change (triple (holds [])
            (log_summary s4 ;; action env s4 ;;
             (if negb (dryrun (configuration s4)) then set_last_sync s4 else ret tt))
            (fun _ => holds [])).
  eapply triple_bind; [apply t_log_summary|]. intros ?; cbv beta.
  eapply triple_bind; [now apply (t_action env cfg tidy)|]. intros ?; cbv beta.
  destruct (negb _); [|apply triple_ret].
  intros w x w' HP [= <- <-]. exact HP.
Qed.

(** In general: in every round that finds the lock free,
    whatever its outcome, [release_lock] is executed exactly once, after
    [run] has come to an end: one removal of the marker is attempted. The
    marker is gone when the round is over exactly when that removal
    succeeded; a failed removal is not propagated. When the round
    completes (it returns, or it ends on the user's interrupt during the
    sleep) and the backend is tidy, the marker is gone. *)
Theorem sync_round_releases_lock env fuel cfg w o w' :
  lock_dir w = false ->
  sync_round env fuel cfg w = (o, w') ->
  o <> Hangs /\
  (exists before ok after,
     events w' = events w ++ before ++ Rmdir (lock_path cfg) ok :: after /\
     Forall not_rmdir before /\ Forall not_rmdir after /\
     lock_dir w' = negb ok) /\
  (tidy_backend env cfg ->
   o = Return tt \/ o = Raised (SystemExit 0) ->
   lock_dir w' = false).
Proof.
  intros L H.
  destruct (sync_round_shape _ _ _ _ _ _ L H)
    as (w1 & o2 & w2 & w3 & L1 & S1 & G1 & Hrun & Hrel & L3 & G3 & N & Ho).
  destruct (run_outcome _ _ _ _ _ Hrun) as (X & N2 & L2 & G2).
  destruct (release_lock_spec (new_Sync cfg) w2) as (ok & logs & Hrel' & Flogs & Hok).
  rewrite Hrel' in Hrel. injection Hrel as <-. simpl in L3.
  rewrite L2, L1 in L3, Hok. simpl in L3, Hok.
  split; [exact N|]. split.
  - destruct G1 as (n1 & E1 & F1), G2 as (n2 & E2 & F2), G3 as (n3 & E3 & F3).
    exists (n1 ++ n2), ok, (logs ++ n3). simpl in E3.
    rewrite E3, E2, E1, <- !app_assoc. simpl.
    split; [reflexivity|].
    split; [apply Forall_app; auto|].
    split; [apply Forall_app; auto|exact L3].
  - intros tidy Hdone. rewrite L3. apply negb_false_iff.
    destruct o2 as [[]|e|]; [| |contradiction].
    + assert (Hh : holds [] w2).
      { apply (t_run env cfg (new_Sync cfg) tidy eq_refl w1 tt w2); [|exact Hrun].
        split; assumption. }
      destruct Hh as [_ S2]. now rewrite Hok, S2.
    + specialize (X e eq_refl). subst o.
      destruct Hdone as [Hd|Hd]; [discriminate|].
      injection Hd as ->. destruct X.
Qed.

Lemma sample_check_cmd dry c :
  rclone_cmd (sample_config dry c) (check_cmd (sample_config dry c)) = sample_check.
Proof. destruct dry; reflexivity. Qed.

Lemma sample_tidy remote_down dry c dry' c' :
  tidy_backend (sample_env remote_down dry c) (sample_config dry' c').
Proof.
  intros n cmd found st r name content H Hin.
  rewrite sample_check_cmd.
  unfold sample_env, subprocess, sample_backend in H.
  destruct (list_eq_dec string_dec cmd sample_check) as [->|_].
  - injection H as <-. split; [reflexivity|]. simpl in Hin.
    destruct Hin as [[= <- _]|[[= <- _]|[[= <- _]|[]]]]; simpl; auto.
  - destruct (mentions "lsf" cmd); [destruct (String.eqb _ _);
      [|destruct remote_down]|]; injection H as <-; destruct Hin.
Qed.

(** C5 at the failing input: the listing of the remote exits with status
    1 while [remote_check.txt] lies in the lock directory. [release_lock]
    runs, once, after the failure; its [os.rmdir] fails on the directory
    that is not empty, which is logged as a warning and goes no further;
    the [CalledProcessError] of the stage leaves the round. The cleanup
    path has completed and the lock directory is still there. *)
Theorem failed_listing_leaves_lock :
  let cfg := sample_config false false in
  let r := sync_round (sample_env true false false) 3 cfg sample_world in
  fst r = Raised (CalledProcessError
                    (rclone_cmd cfg (lsf_cmd cfg "remote_check.txt" (remote_root cfg)))
                    1) /\
  lock_dir (snd r) = true /\
  PyDict.keys (scratch (snd r)) = ["remote_check.txt"] /\
  filter is_rmdir (events (snd r)) = [Rmdir (lock_path cfg) false] /\
  In (Log logger_syncer WARNING [Lit "Failed to remove Sync Lock."])
     (events (snd r)) /\
  In (Log logger_syncer ERROR [ExcInfo (OSError (lock_path cfg))])
     (events (snd r)).
Proof.
  vm_compute.
  split; [reflexivity|split; [reflexivity|split; [reflexivity|split; [reflexivity|]]]].
  split; repeat (first [left; reflexivity | right]).
Qed.

(** So the marker can outlive a round whose backend is tidy. *)
Lemma lock_released_property_fails : ~ lock_released_property.
Proof.
  intros H.
  specialize (H (sample_env true false false) 3%nat (sample_config false false)
                sample_world _ _ (sample_tidy _ _ _ _ _) eq_refl
                (surjective_pairing _)).
  vm_compute in H. discriminate H.
Qed.

(** C4 at the failing input: the listing of the remote exits with status
    1 in the first round. The exception leaves [sync_loop]; [main] logs it
    as critical and exits with status 1. Of the five rounds asked for,
    one was started; the lock was not released. *)
Theorem remote_listing_failure_ends_process :
  let r := main (sample_env true false false) 3 5 "/data" sample_world in
  fst r = Raised (SystemExit 1) /\
  rounds_started (snd r) = 1%nat /\
  In (Log logger_main CRITICAL
        [Lit "rclouned encountered a critical error and cannot continue."])
     (events (snd r)) /\
  ~ In (Log logger_main WARNING [Lit "Error during sync!"]) (events (snd r)).
Proof.
  vm_compute. repeat split; auto 30.
  intros H. repeat (destruct H as [H|H]; [discriminate H|]). exact H.
Qed.

(** In general: an exception of [run] leaves the round as it is, so the
    loop starts no further round. *)
Lemma run_error_ends_loop env fuel rounds cfg w o w' :
  lock_dir w = false ->
  sync_round env fuel cfg w = (o, w') ->
  (exists e, o = Raised e) ->
  sync_loop env fuel (S rounds) cfg w = (o, w').
Proof.
  intros _ H [e ->]. simpl. unfold bind. now rewrite H.
Qed.

(** A round ends on the user's interrupt or on the error of a stage,
    which nothing has caught. *)
Lemma sync_round_raises env fuel cfg w e w' :
  lock_dir w = false ->
  sync_round env fuel cfg w = (Raised e, w') ->
  e = SystemExit 0 \/ stage_error e.
Proof.
  intros L H.
  destruct (sync_round_shape _ _ _ _ _ _ L H)
    as (w1 & o2 & w2 & w3 & _ & _ & _ & Hrun & _ & _ & _ & _ & Ho).
  destruct (run_outcome _ _ _ _ _ Hrun) as (X & _).
  destruct o2 as [[]|e2|]; [|right|contradiction].
  - destruct Ho as [Ho|Ho]; [discriminate|]. left. congruence.
  - injection Ho as ->. now apply X.
Qed.

(** An error of a stage that leaves [sync_loop] makes [main] exit with
    status 1. *)
Lemma main_exits_on_stage_error env fuel rounds folder_arg w e w1 :
  (wait_for_folder env fuel (set_folder folder_arg default_config) ;;
   cfg <- parse_config env (set_folder folder_arg default_config) ;;
   sync_loop env fuel rounds cfg) w = (Raised e, w1) ->
  stage_error e ->
  fst (main env fuel rounds folder_arg w) = Raised (SystemExit 1).
Proof.
  intros H He. unfold main, try_except. cbv zeta. rewrite H.
  now rewrite (stage_error_is_Exception e He).
Qed.

(** ** The commands of the executor *)

Lemma prefix_nil {A} (xs : list A) : prefix [] xs.
Proof. now exists xs. Qed.

Lemma prefix_refl {A} (xs : list A) : prefix xs xs.
Proof. exists []. now rewrite app_nil_r. Qed.

Lemma prefix_app_l {A} (xs ys zs : list A) : prefix xs ys -> prefix xs (ys ++ zs).
Proof. intros [r ->]. exists (r ++ zs). now rewrite app_assoc. Qed.

Lemma prefix_app_r {A} (xs ys zs : list A) : prefix ys zs -> prefix (xs ++ ys) (xs ++ zs).
Proof. intros [r ->]. exists r. now rewrite app_assoc. Qed.

Lemma issues_ret {A} (a : A) : issues (ret a) [].
Proof.
  intros w o w' [= <- <-]. exists []. rewrite app_nil_r.
  split; [reflexivity|]. split; [apply prefix_nil|reflexivity].
Qed.

Lemma issues_bind {A B} (m : M A) (k : A -> M B) c1 c2 :
  issues m c1 -> (forall a, issues (k a) c2) -> issues (x <- m ;; k x) (c1 ++ c2).
Proof.
  intros Hm Hk w o w'. unfold bind.
  destruct (m w) as [[a|e|] w1] eqn:E1; destruct (Hm _ _ _ E1) as (d1 & C1 & P1 & R1).
  - intros H2. destruct (Hk a _ _ _ H2) as (d2 & C2 & P2 & R2).
    rewrite (R1 a eq_refl) in C1.
    exists (c1 ++ d2). rewrite C2, C1, app_assoc. split; [reflexivity|].
    split; [now apply prefix_app_r|]. intros b Hb. now rewrite (R2 b Hb).
  - intros [= <- <-]. exists d1. split; [exact C1|].
    split; [now apply prefix_app_l|discriminate].
  - intros [= <- <-]. exists d1. split; [exact C1|].
    split; [now apply prefix_app_l|discriminate].
Qed.

Lemma issues_seq {A B} (m : M A) (k : M B) c1 c2 :
  issues m c1 -> issues k c2 -> issues (m ;; k) (c1 ++ c2).
Proof. intros Hm Hk. apply issues_bind; auto. Qed.

(** A computation that leaves the list of events as it is. *)
Lemma issues_silent {A} (m : M A) :
  (forall w o w', m w = (o, w') -> events w' = events w) -> issues m [].
Proof.
  intros H w o w' Hm. exists []. unfold commands. rewrite (H _ _ _ Hm), app_nil_r.
  split; [reflexivity|]. split; [apply prefix_nil|reflexivity].
Qed.

Lemma issues_emit ev : command_of ev = [] -> issues (emit ev) [].
Proof.
  intros Hev w o w' [= <- <-]. exists []. unfold commands. simpl.
  rewrite flat_map_app. simpl. rewrite Hev.
  split; [reflexivity|]. split; [apply prefix_nil|reflexivity].
Qed.

Lemma issues_log l lvl msg : issues (log l lvl msg) [].
Proof. now apply issues_emit. Qed.

Lemma issues_open_write cfg name content : issues (open_write cfg name content) [].
Proof.
  apply issues_silent. intros w o w'. unfold open_write.
  destruct (lock_dir w); now intros [= <- <-].
Qed.

Lemma issues_os_remove cfg name : issues (os_remove cfg name) [].
Proof.
  apply issues_silent. intros w o w'. unfold os_remove.
  destruct (PyDict.get _ _); now intros [= <- <-].
Qed.

Lemma issues_subprocess_run env cmd check_ec :
  issues (subprocess_run env cmd check_ec) [cmd].
Proof.
  intros w o w'. unfold subprocess_run.
  assert (C : forall t l sc mk st,
             commands (mk_world t l sc mk st
                         (events w ++ [Exec cmd (scratch w) (store w)])) =
             commands w ++ [cmd]).
  { intros. unfold commands. simpl. now rewrite flat_map_app. }
  destruct (subprocess env _ _ _ _) as [|r].
  - intros [= <- <-]. exists [cmd]. rewrite C.
    split; [reflexivity|]. split; [apply prefix_refl|reflexivity].
  - destruct (check_ec && _); intros [= <- <-]; exists [cmd];
      unfold with_store, with_scratch; simpl; rewrite C;
      (split; [reflexivity|]); (split; [apply prefix_refl|reflexivity]).
Qed.

Lemma issues_exec_cmd env cmd check_ec : issues (exec_cmd env cmd check_ec) [cmd].
Proof.
  unfold exec_cmd.
  change [cmd] with ([] ++ [cmd] ++ [] ++ [] ++ []).
  apply issues_seq; [apply issues_log|].
  apply issues_bind; [apply issues_subprocess_run|]. intros exe.
  apply issues_seq; [apply issues_log|].
  apply issues_seq; [apply issues_log|]. apply issues_ret.
Qed.

Lemma issues_for_ {A} (xs : list A) (body : A -> M unit) (f : A -> list string) :
  (forall x, issues (body x) [f x]) -> issues (for_ xs body) (map f xs).
Proof.
  intros Hb. induction xs as [|x rest IH]; simpl; [apply issues_ret|].
  change (f x :: map f rest) with ([f x] ++ map f rest).
  apply issues_seq; auto.
Qed.

Section Executor.
Variable env : environment.
Variable s : Sync.

Lemma issues_do_local_moves : issues (do_local_moves env s) (step_moves s).
Proof.
  unfold do_local_moves, step_moves.
  destruct (dryrun (configuration s)); simpl; [apply issues_ret|].
  apply issues_for_. intros mv.
  change [mv_cmd (configuration s) mv] with ([mv_cmd (configuration s) mv] ++ []).
  apply issues_seq; [apply issues_exec_cmd|apply issues_ret].
Qed.

Lemma issues_do_local_backup bp :
  issues (do_local_backup env bp s) (step_local_backup bp s).
Proof.
  unfold do_local_backup, step_local_backup. cbv zeta.
  destruct (local_backup s) as [|f rest]; simpl; [apply issues_ret|].
  match goal with |- issues _ [?a; ?b] =>
    change [a; b] with ([] ++ [a] ++ [b] ++ []) end.
  apply issues_seq; [apply issues_open_write|].
  apply issues_seq; [apply issues_exec_cmd|].
  apply issues_seq; [apply issues_exec_cmd|apply issues_os_remove].
Qed.

Lemma issues_do_remote_backup bp :
  issues (do_remote_backup env bp s) (step_remote_backup bp s).
Proof.
  unfold do_remote_backup, step_remote_backup. cbv zeta.
  destruct (remote_backup s) as [|f rest]; simpl; [apply issues_ret|].
  match goal with |- issues _ [?a; ?b] =>
    change [a; b] with ([] ++ [a] ++ [b] ++ []) end.
  apply issues_seq; [apply issues_open_write|].
  apply issues_seq; [apply issues_exec_cmd|].
  apply issues_seq; [apply issues_exec_cmd|apply issues_os_remove].
Qed.

Lemma issues_do_upload : issues (do_upload env s) (step_upload s).
Proof.
  unfold do_upload, step_upload. cbv zeta.
  destruct (upload s) as [|f rest]; simpl; [apply issues_ret|].
  match goal with |- issues _ [?a] => change [a] with ([] ++ [a] ++ []) end.
  apply issues_seq; [apply issues_open_write|].
  apply issues_seq; [apply issues_exec_cmd|apply issues_os_remove].
Qed.

Lemma issues_do_download : issues (do_download env s) (step_download s).
Proof.
  unfold do_download, step_download. cbv zeta.
  destruct (download s) as [|f rest]; simpl; [apply issues_ret|].
  match goal with |- issues _ [?a] => change [a] with ([] ++ [a] ++ []) end.
  apply issues_seq; [apply issues_open_write|].
  apply issues_seq; [apply issues_exec_cmd|apply issues_os_remove].
Qed.

(** The executor against the five steps. *)
Lemma action_issues w o w' :
  action env s w = (o, w') ->
  let bp := backup_prefix_at env w in
  exists done,
    commands w' = commands w ++ done /\
    prefix done (step_moves s ++ step_local_backup bp s ++
                 step_remote_backup bp s ++ step_upload s ++ step_download s) /\
    (o = Return tt ->
     done = step_moves s ++ step_local_backup bp s ++
            step_remote_backup bp s ++ step_upload s ++ step_download s).
Proof.
  intros H bp. unfold action, now_formatted, bind at 1, bind at 1, instant, ret in H.
  cbv zeta in H.
  set (w0 := mk_world (S (ticks w)) _ _ _ _ _) in H.
  assert (Q : issues
            (do_local_moves env s ;; do_local_backup env bp s ;;
             do_remote_backup env bp s ;; do_upload env s ;; do_download env s)
            (step_moves s ++ step_local_backup bp s ++
             step_remote_backup bp s ++ step_upload s ++ step_download s)).
  { apply issues_seq; [apply issues_do_local_moves|].
    apply issues_seq; [apply issues_do_local_backup|].
    apply issues_seq; [apply issues_do_remote_backup|].
    apply issues_seq; [apply issues_do_upload|apply issues_do_download]. }
  destruct (Q _ _ _ H) as (done & C & Pf & R). exists done.
  split; [exact C|]. split; [exact Pf|]. intros ->. now apply (R tt).
Qed.

End Executor.



(** ** The dry run *)

Lemma simulated_rclone cfg c :
  dryrun cfg = true -> hd "" c <> "check" -> simulated cfg (rclone_cmd cfg c).
Proof.
  intros D Hc. exists c. unfold rclone_cmd, rclone_opts. fold (base_opts cfg).
  rewrite D. simpl.
  destruct (String.eqb (hd "" c) "check") eqn:E.
  - apply String.eqb_eq in E. contradiction.
  - simpl. now rewrite <- app_assoc.
Qed.

Lemma harmless_rclone cfg c found st :
  dryrun cfg = true -> rclone_call cfg c ->
  harmless cfg (Exec (rclone_cmd cfg c) found st).
Proof.
  intros D Hc. simpl. destruct Hc; [now left| | |];
    right; apply simulated_rclone; auto; discriminate.
Qed.

Lemma dry_run_frame env s :
  dryrun (configuration s) = true ->
  post (frame (harmless (configuration s)) (fun _ m _ => m)) stage_error anything
       (run env s).
Proof.
  intros D. apply (ok_run env (configuration s));
    first [ reflexivity
          | congruence
          | intros; now apply harmless_rclone
          | intros; exact I ].
Qed.

Lemma prefix_Forall {A} (P : A -> Prop) xs ys :
  prefix xs ys -> Forall P ys -> Forall P xs.
Proof. intros [r ->] H. now apply Forall_app in H. Qed.

Lemma dry_steps_simulated bp s :
  dryrun (configuration s) = true ->
  Forall (simulated (configuration s))
    (step_local_backup bp s ++ step_remote_backup bp s ++
     step_upload s ++ step_download s).
Proof.
  intros D. unfold step_local_backup, step_remote_backup, step_upload,
    step_download. cbv zeta.
  apply Forall_app; split; [|apply Forall_app; split; [|apply Forall_app; split]].
  - destruct (local_backup s); constructor; [|constructor; [|constructor]];
      apply simulated_rclone; auto; discriminate.
  - destruct (remote_backup s); constructor; [|constructor; [|constructor]];
      apply simulated_rclone; auto; discriminate.
  - destruct (upload s); constructor; [|constructor];
      apply simulated_rclone; auto; discriminate.
  - destruct (download s); constructor; [|constructor];
      apply simulated_rclone; auto; discriminate.
Qed.

(** C8, as the code has it: in a dry run no write of the lastsync marker
    occurs during a cycle, and no command is run for real: every command
    of the cycle is the check or an rclone command line that carries
    [--dry-run], and no [mv] is issued. In the executor step 1 (the
    renames) is suppressed, and steps 2 to 5 (archive and removal on both
    sides, upload, download) are all issued, each in simulate mode. *)
Theorem dry_run_cycle env s w o w' :
  dryrun (configuration s) = true ->
  (run env s w = (o, w') ->
   lastsync_txt w' = lastsync_txt w /\ grows (harmless (configuration s)) w w') /\
  (action env s w = (o, w') ->
   let bp := backup_prefix_at env w in
   exists done,
     commands w' = commands w ++ done /\
     prefix done (step_local_backup bp s ++ step_remote_backup bp s ++
                  step_upload s ++ step_download s) /\
     (o = Return tt ->
      done = step_local_backup bp s ++ step_remote_backup bp s ++
             step_upload s ++ step_download s) /\
     Forall (simulated (configuration s)) done).
Proof.
  intros D. split.
  - intros H. destruct (dry_run_frame env s D _ _ _ H) as ((G & Hg) & _). auto.
  - intros H bp. destruct (action_issues env s w o w' H) as (done & C & Pf & R).
    fold bp in Pf, R. unfold step_moves in Pf, R. rewrite D in Pf, R.
    simpl in Pf, R. exists done. repeat split; auto.
    eapply prefix_Forall; [exact Pf|]. now apply dry_steps_simulated.
Qed.

Lemma dry_run_cycle_witness :
  let env := sample_env false true false in
  let r := action env dry_plan locked_world in
  fst r = Return tt /\
  exists done,
    commands (snd r) = commands locked_world ++ done /\
    Forall (simulated (configuration dry_plan)) done /\
    done = step_local_backup (backup_prefix_at env locked_world) dry_plan ++
           step_remote_backup (backup_prefix_at env locked_world) dry_plan ++
           step_upload dry_plan ++ step_download dry_plan.
Proof.
  intros env r.
  assert (Hret : fst r = Return tt) by (vm_compute; reflexivity).
  split; [exact Hret|].
  destruct (proj2 (dry_run_cycle env dry_plan locked_world (fst r) (snd r) eq_refl)
              (surjective_pairing _)) as (done & C & _ & R & F).
  exists done. repeat split; auto.
Defined.

(** C8 as worded fails: for the plan of the scenarios, which archives
    "c.txt" locally, the executor of a dry run first issues the copy and
    the removal of step 2 (in simulate mode); step 2 is not suppressed. *)
Lemma dry_run_property_fails : ~ dry_run_property.
Proof.
  intros H.
  destruct (H (sample_env false true false) dry_plan locked_world
              (fst (action (sample_env false true false) dry_plan locked_world))
              (snd (action (sample_env false true false) dry_plan locked_world))
              eq_refl) as [_ H2].
  destruct (H2 (surjective_pairing _)) as (done & C & [rest Hp] & _).
  vm_compute in C. subst done. vm_compute in Hp. discriminate Hp.
Qed.

(** ** The upload of a dry run after a conflict *)

Lemma get_set_same {V} (d : PyDict.t V) k v : PyDict.get (PyDict.set d k v) k = Some v.
Proof.
  induction d as [|[k0 v0] rest IH]; simpl.
  - now rewrite String.eqb_refl.
  - destruct (String.eqb k0 k) eqn:E; simpl; rewrite E; auto.
Qed.

Lemma open_write_ret cfg name content w w' :
  open_write cfg name content w = (Return tt, w') ->
  w' = with_scratch (PyDict.set (scratch w) name content) w.
Proof.
  unfold open_write. destruct (lock_dir w); [|discriminate]. now intros [= <-].
Qed.

Lemma os_remove_events cfg name w o w' :
  os_remove cfg name w = (o, w') -> events w' = events w.
Proof.
  unfold os_remove. destruct (PyDict.get _ _); now intros [= <- <-].
Qed.

(** A command that returns was run against the lock directory and the
    storage of the moment. *)
Lemma exec_cmd_events env cmd check_ec w out w' :
  exec_cmd env cmd check_ec w = (Return out, w') ->
  exists before after,
    events w' = events w ++ before ++ Exec cmd (scratch w) (store w) :: after.
Proof.
  unfold exec_cmd. intros H.
  apply bind_Return_inv in H as ([] & wa & Ha & H).
  apply bind_Return_inv in H as (exe & wb & Hb & H).
  apply bind_Return_inv in H as ([] & wc & Hc & H).
  apply bind_Return_inv in H as ([] & wd & Hd & H).
  injection H as _ <-.
  unfold log, emit in Ha, Hc, Hd.
  injection Ha as <-. injection Hc as <-. injection Hd as <-.
  cbn [events ticks lock_dir scratch lastsync_txt store].
  assert (Eb : events wb =
               (events w ++ [Log logger_syncer DEBUG
                               [Lit "Running an external command: "; Str (PStrs cmd)]]) ++
               [Exec cmd (scratch w) (store w)]).
  { unfold subprocess_run in Hb.
    cbn [events ticks lock_dir scratch lastsync_txt store] in Hb.
    destruct (subprocess env _ _ _ _) as [|r]; [discriminate|].
    destruct (check_ec && _); [discriminate|]. now injection Hb as _ <-. }
  exists [Log logger_syncer DEBUG
            [Lit "Running an external command: "; Str (PStrs cmd)]],
    [Log logger_syncer DEBUG
       [Lit "External command returned with exit code ";
        Str (PInt (returncode exe)); Lit ", output:"];
     Log logger_syncer DEBUG [Lit (stdout exe)]].
  rewrite Eb, <- !app_assoc. reflexivity.
Qed.

(** When the upload step returns, it has run its copy against the list
    it wrote and against the storage it found. *)
Lemma do_upload_exec env s w w' :
  do_upload env s w = (Return tt, w') -> upload s <> [] ->
  exists found before after,
    events w' =
      events w ++ before ++
      Exec (rclone_cmd (configuration s)
              (copy_cmd (configuration s) "upload.txt" (folder (configuration s))
                 (remote_root (configuration s))))
           found (store w) :: after /\
    PyDict.get found "upload.txt" = Some (join newline (upload s)).
Proof.
  unfold do_upload. cbv zeta. intros H Hne.
  destruct (0 <? List.length (upload s))%nat eqn:E.
  2:{ destruct (upload s); [congruence|discriminate E]. }
  apply bind_Return_inv in H as ([] & w1 & H1 & H).
  apply bind_Return_inv in H as (out & w2 & H2 & H3).
  apply open_write_ret in H1. subst w1.
  apply exec_cmd_events in H2 as (before & after & H2).
  apply os_remove_events in H3.
  exists (PyDict.set (scratch w) "upload.txt" (join newline (upload s))),
    before, after.
  split; [|apply get_set_same]. rewrite H3, H2. reflexivity.
Qed.

(** The steps before the upload, in a dry run against an inert backend,
    leave the storage as it is. *)
Section DryStorage.
Variable env : environment.
Variable cfg : config.
Hypothesis dry : dryrun cfg = true.
Hypothesis inert : inert_backend env cfg.

Local Abbreviation keeps_storage :=
  (post (frame (fun _ => True) (fun _ _ st => st)) stage_error anything).

Lemma dry_moves_storage s : same_cfg cfg s -> keeps_storage (do_local_moves env s).
Proof.
  intros Hs. apply (ok_do_local_moves env cfg); auto; congruence.
Qed.

Lemma dry_local_backup_storage bp s :
  same_cfg cfg s -> keeps_storage (do_local_backup env bp s).
Proof.
  intros Hs. apply (ok_do_local_backup env cfg); auto.
  intros c n found st r _ _ Hc Hr. now apply (inert n c found st r).
Qed.

Lemma dry_remote_backup_storage bp s :
  same_cfg cfg s -> keeps_storage (do_remote_backup env bp s).
Proof.
  intros Hs. apply (ok_do_remote_backup env cfg); auto.
  intros c n found st r _ _ Hc Hr. now apply (inert n c found st r).
Qed.

End DryStorage.

(** The steps of the executor only add events. *)
Section StepsGrow.
Variable env : environment.
Variable s : Sync.

Local Abbreviation only_adds :=
  (post (frame (fun _ => True) (fun _ _ _ => tt)) stage_error anything).

Lemma moves_grow : only_adds (do_local_moves env s).
Proof. apply (ok_do_local_moves env (configuration s)); auto; reflexivity. Qed.

Lemma local_backup_grows bp : only_adds (do_local_backup env bp s).
Proof. apply (ok_do_local_backup env (configuration s)); auto; reflexivity. Qed.

Lemma remote_backup_grows bp : only_adds (do_remote_backup env bp s).
Proof. apply (ok_do_remote_backup env (configuration s)); auto; reflexivity. Qed.

Lemma download_grows : only_adds (do_download env s).
Proof. apply (ok_do_download env (configuration s)); auto; reflexivity. Qed.

End StepsGrow.

Lemma simulated_not_mv cfg cmd : simulated cfg cmd -> hd "" cmd <> "mv".
Proof. intros [c ->]. discriminate. Qed.


Lemma sample_inert remote_down dry c cfg :
  inert_backend (sample_env remote_down dry c) cfg.
Proof.
  intros n cmd found st r _ H.
  unfold sample_env, subprocess, sample_backend in H.
  destruct (list_eq_dec string_dec _ sample_check).
  - now injection H as <-.
  - destruct (mentions "lsf" _); [destruct (String.eqb _ _);
      [|destruct remote_down]|]; now injection H as <-.
Qed.

Lemma returned_pair {A} (r : outcome A * world) a :
  fst r = Return a -> r = (Return a, snd r).
Proof. destruct r; simpl. now intros ->. Qed.

Lemma dry_action_returns :
  action (sample_env false true false) dry_plan locked_world =
  (Return tt, snd (action (sample_env false true false) dry_plan locked_world)).
Proof. apply returned_pair. vm_compute. reflexivity. Qed.


(* ================================================================== *)
(** * Further properties of the code *)

(** ** More on the planning step *)

(** What the loop over the differing paths appends, list by list. *)
Lemma diff_deltas_download sfx s files :
  d_download (diff_deltas sfx s files) =
  filter (fun f => match diff_verdict s f with
                   | Some RemoteOnly | Some Conflict => true
                   | _ => false
                   end) files.
Proof.
  induction files as [|f rest IH]; simpl; [reflexivity|].
  destruct (diff_verdict s f) as [[]|]; simpl; now rewrite IH.
Qed.

Lemma diff_deltas_local_backup sfx s files :
  d_local_backup (diff_deltas sfx s files) =
  filter (fun f => match diff_verdict s f with
                   | Some RemoteOnly => careful (configuration s)
                   | _ => false
                   end) files.
Proof.
  induction files as [|f rest IH]; simpl; [reflexivity|].
  destruct (diff_verdict s f) as [[]|]; simpl; try now rewrite IH.
  destruct (careful _); simpl; now rewrite IH.
Qed.

Lemma diff_deltas_remote_backup sfx s files :
  d_remote_backup (diff_deltas sfx s files) =
  filter (fun f => match diff_verdict s f with
                   | Some LocalOnly => careful (configuration s)
                   | _ => false
                   end) files.
Proof.
  induction files as [|f rest IH]; simpl; [reflexivity|].
  destruct (diff_verdict s f) as [[]|]; simpl; try now rewrite IH.
  destruct (careful _); simpl; now rewrite IH.
Qed.

Lemma diff_deltas_move_keys sfx s files :
  map fst (d_local_move (diff_deltas sfx s files)) =
  filter (fun f => match diff_verdict s f with
                   | Some Conflict => true
                   | _ => false
                   end) files.
Proof.
  induction files as [|f rest IH]; simpl; [reflexivity|].
  destruct (diff_verdict s f) as [[]|]; simpl; now rewrite IH.
Qed.

Lemma diff_deltas_upload sfx s files :
  d_upload (diff_deltas sfx s files) =
  map (fun f => match diff_verdict s f with
                | Some Conflict => f +++ sfx
                | _ => f
                end)
      (filter (fun f => match diff_verdict s f with
                        | Some LocalOnly | Some Conflict => true
                        | _ => false
                        end) files).
Proof.
  induction files as [|f rest IH]; simpl; [reflexivity|].
  destruct (diff_verdict s f) as [[]|] eqn:E; simpl; rewrite ?E; now rewrite IH.
Qed.

Lemma src_deltas_upload s files :
  d_upload (src_deltas s files) =
  filter (fun f => match known (local_check s) f with
                   | Some t => time_ge t (lastsync s)
                   | None => false
                   end) files.
Proof.
  induction files as [|f rest IH]; simpl; [reflexivity|].
  destruct (known _ f) as [t|]; simpl; [|exact IH].
  destruct (time_ge t _); simpl; now rewrite IH.
Qed.

Lemma src_deltas_local_backup s files :
  d_local_backup (src_deltas s files) =
  filter (fun f => match known (local_check s) f with
                   | Some t => negb (time_ge t (lastsync s))
                   | None => false
                   end) files.
Proof.
  induction files as [|f rest IH]; simpl; [reflexivity|].
  destruct (known _ f) as [t|]; simpl; [|exact IH].
  destruct (time_ge t _); simpl; now rewrite IH.
Qed.

Lemma dst_deltas_download s files :
  d_download (dst_deltas s files) =
  filter (fun f => match known (remote_check s) f with
                   | Some t => time_ge t (lastsync s)
                   | None => false
                   end) files.
Proof.
  induction files as [|f rest IH]; simpl; [reflexivity|].
  destruct (known _ f) as [t|]; simpl; [|exact IH].
  destruct (time_ge t _); simpl; now rewrite IH.
Qed.

Lemma dst_deltas_remote_backup s files :
  d_remote_backup (dst_deltas s files) =
  filter (fun f => match known (remote_check s) f with
                   | Some t => negb (time_ge t (lastsync s))
                   | None => false
                   end) files.
Proof.
  induction files as [|f rest IH]; simpl; [reflexivity|].
  destruct (known _ f) as [t|]; simpl; [|exact IH].
  destruct (time_ge t _); simpl; now rewrite IH.
Qed.

Lemma NoDup_filter_app {A} (f g : A -> bool) xs ys :
  NoDup xs -> NoDup ys -> (forall x, In x xs -> ~ In x ys) ->
  NoDup (filter f xs ++ filter g ys).
Proof.
  intros Hx Hy D. apply NoDup_app; auto using NoDup_filter.
  intros a Ha Hb. apply filter_In in Ha as [Ha _]. apply filter_In in Hb as [Hb _].
  exact (D a Ha Hb).
Qed.

Lemma append_length a b : String.length (a +++ b) = (String.length a + String.length b)%nat.
Proof. induction a as [|c a IH]; simpl; [reflexivity|now rewrite IH]. Qed.

(** [a + x == b + x] only when [a == b]. *)
Lemma append_cancel_r x : forall a b, a +++ x = b +++ x -> a = b.
Proof.
  induction a as [|c a IH]; intros [|d b] H; simpl in H.
  - reflexivity.
  - apply (f_equal String.length) in H. simpl in H. rewrite append_length in H. lia.
  - apply (f_equal String.length) in H. simpl in H. rewrite append_length in H. lia.
  - injection H as -> H. f_equal. now apply IH.
Qed.

(** X1 ([Sync.sort], error behaviour). [sort] returns exactly when every
    path it looks up has a modtime: each differing path in both tables,
    each path missing on the remote in the local table, each path missing
    locally in the remote table. It then returns the closed-form plan;
    otherwise it raises a [KeyError] or a [TypeError] and nothing else. *)
Theorem sort_returns_iff_tables_complete stamp s :
  match sort stamp s with
  | Ok s' => tables_complete s /\ s' = sorted stamp s
  | Raise e => ~ tables_complete s /\ lookup_error e
  end.
Proof.
  destruct (sort stamp s) as [s'|e] eqn:H.
  - apply sort_spec in H as [-> C]. now split.
  - split; [|now apply sort_raises in H].
    intros C. apply (sort_total stamp) in C. congruence.
Qed.

(** X2 ([Sync.sort], what it never plans). Every entry of the plan comes
    from the partition the loop that adds it runs over: downloads and remote
    backups from Differing or MissingOnLocal, local backups from Differing
    or MissingOnRemote, renames from Differing with the cycle's suffix, and
    uploads from Differing, MissingOnRemote or the target of a rename. The
    inputs of the planning step are handed on unchanged. *)
Theorem sort_plans_only_given_paths stamp s s' :
  sort stamp s = Ok s' ->
  (forall x, In x (download s') -> In x (diff s) \/ In x (dst s)) /\
  (forall x, In x (upload s') ->
     In x (diff s) \/ In x (src s) \/
     exists q, In (q, x) (local_move s')) /\
  (forall a b, In (a, b) (local_move s') ->
     In a (diff s) /\ b = a +++ conflict_suffix_of stamp) /\
  (forall x, In x (local_backup s') -> In x (diff s) \/ In x (src s)) /\
  (forall x, In x (remote_backup s') -> In x (diff s) \/ In x (dst s)) /\
  (diff s' = diff s /\ src s' = src s /\ dst s' = dst s /\
   lastsync s' = lastsync s /\ syncstart s' = syncstart s /\
   local_check s' = local_check s /\ remote_check s' = remote_check s /\
   configuration s' = configuration s).
Proof.
  intros H. split; [|split; [|split; [|split; [|split]]]].
  - intros x Hx. apply (in_download stamp s s' H) in Hx as [[A _]|[A _]]; auto.
  - intros x Hx. apply (in_upload stamp s s' H) in Hx as [[A _]|[(f & A & B & ->)|[A _]]]; auto.
    right; right. exists f. now apply (in_local_move stamp s s' H).
  - intros a b Hm. apply (in_local_move stamp s s' H) in Hm as (A & _ & B). auto.
  - intros x Hx. apply (in_local_backup stamp s s' H) in Hx as [[A _]|[A _]]; auto.
  - intros x Hx. apply (in_remote_backup stamp s s' H) in Hx as [[A _]|[A _]]; auto.
  - apply sort_spec in H as [-> _]. cbn. repeat split.
Qed.

Lemma sort_plans_only_given_paths_witness :
  let s' := sorted stamp0 (scenarios true) in
  (forall x, In x (download s') ->
     In x (diff (scenarios true)) \/ In x (dst (scenarios true))) /\
  (forall a b, In (a, b) (local_move s') ->
     In a (diff (scenarios true)) /\ b = a +++ conflict_suffix_of stamp0).
Proof.
  intros s'.
  assert (Hs : sort stamp0 (scenarios true) = Ok s') by (vm_compute; reflexivity).
  split.
  - exact (proj1 (sort_plans_only_given_paths stamp0 (scenarios true) s' Hs)).
  - exact (proj1 (proj2 (proj2 (sort_plans_only_given_paths stamp0 (scenarios true) s' Hs)))).
Defined.

(** The verdicts depend on the tables and on lastsync only. *)
Lemma diff_verdict_ext s t f :
  lastsync t = lastsync s -> local_check t = local_check s ->
  remote_check t = remote_check s ->
  diff_verdict t f = diff_verdict s f.
Proof. unfold diff_verdict. now intros -> -> ->. Qed.

(** X3 ([Sync.sort], the role of the configuration). Two objects that hold
    the same snapshot (lastsync, the three partitions, the two tables) get
    the same Upload, Download and LocalMove lists whatever their
    configurations: careful mode and dry-run mode change no transfer and no
    rename. Without careful mode the backup lists hold orphans only. *)
Theorem sort_transfers_ignore_configuration stamp s t s' t' :
  lastsync t = lastsync s -> diff t = diff s -> src t = src s -> dst t = dst s ->
  local_check t = local_check s -> remote_check t = remote_check s ->
  sort stamp s = Ok s' -> sort stamp t = Ok t' ->
  (upload t' = upload s' /\ download t' = download s' /\
   local_move t' = local_move s') /\
  (careful (configuration s) = false ->
   (forall x, In x (local_backup s') -> In x (src s)) /\
   (forall x, In x (remote_backup s') -> In x (dst s))).
Proof.
  intros E1 E2 E3 E4 E5 E6 Hs Ht. split.
  - apply sort_spec in Hs as [-> _]. apply sort_spec in Ht as [-> _].
    assert (V : forall f, diff_verdict t f = diff_verdict s f)
      by (intros f; now apply diff_verdict_ext).
    assert (U : forall sfx files,
               d_upload (diff_deltas sfx t files) = d_upload (diff_deltas sfx s files) /\
               d_download (diff_deltas sfx t files) = d_download (diff_deltas sfx s files) /\
               d_local_move (diff_deltas sfx t files) = d_local_move (diff_deltas sfx s files)).
    { intros sfx files. induction files as [|f rest (I1 & I2 & I3)]; simpl; [auto|].
      rewrite V. destruct (diff_verdict s f) as [[]|]; simpl; rewrite ?I1, ?I2, ?I3; auto. }
    unfold sorted; cbn [upload download local_move]. rewrite E2, E3, E4.
    destruct (U (conflict_suffix_of stamp) (diff s)) as (-> & -> & ->).
    rewrite src_deltas_upload, dst_deltas_download.
    rewrite (src_deltas_upload s), (dst_deltas_download s), E1, E5, E6. auto.
  - intros C. split; intros x Hx.
    + apply (in_local_backup stamp s s' Hs) in Hx as [(_ & _ & A)|[A _]]; [congruence|auto].
    + apply (in_remote_backup stamp s s' Hs) in Hx as [(_ & _ & A)|[A _]]; [congruence|auto].
Qed.

Lemma sort_transfers_ignore_configuration_witness :
  (upload (sorted stamp0 (scenarios true)) = upload (sorted stamp0 (scenarios false)) /\
   download (sorted stamp0 (scenarios true)) = download (sorted stamp0 (scenarios false)) /\
   local_move (sorted stamp0 (scenarios true)) =
   local_move (sorted stamp0 (scenarios false))) /\
  (careful (configuration (scenarios false)) = false ->
   (forall x, In x (local_backup (sorted stamp0 (scenarios false))) ->
              In x (src (scenarios false))) /\
   (forall x, In x (remote_backup (sorted stamp0 (scenarios false))) ->
              In x (dst (scenarios false)))).
Proof.
  apply (sort_transfers_ignore_configuration stamp0 (scenarios false) (scenarios true));
    try reflexivity; vm_compute; reflexivity.
Defined.

(** X4 ([Sync.sort], idempotence). [sort] starts from five empty lists, so
    planning again on the object it returned, with the same suffix, returns
    that very object: nothing accumulates from one call to the next. *)
Theorem sort_idempotent stamp s s' :
  sort stamp s = Ok s' -> sort stamp s' = Ok s'.
Proof.
  intros H. apply sort_spec in H as [-> C].
  rewrite (sort_total stamp (sorted stamp s)); [reflexivity|exact C].
Qed.

Lemma sort_idempotent_witness :
  sort stamp0 (sorted stamp0 (scenarios true)) = Ok (sorted stamp0 (scenarios true)).
Proof.
  apply (sort_idempotent stamp0 (scenarios true)). vm_compute; reflexivity.
Defined.

(** X5 ([Sync.sort], no path is planned twice). When the three partitions
    are duplicate-free and pairwise disjoint, so are the Download list, the
    two backup lists and the keys of LocalMove; the Upload list is too when
    no given path already bears the name a conflict rename would produce. *)
Theorem sort_no_duplicates stamp s s' :
  sort stamp s = Ok s' ->
  NoDup (diff s) -> NoDup (src s) -> NoDup (dst s) -> partitions_disjoint s ->
  NoDup (download s') /\ NoDup (local_backup s') /\ NoDup (remote_backup s') /\
  NoDup (map fst (local_move s')) /\
  ((forall q, In q (diff s) ->
      ~ In (q +++ conflict_suffix_of stamp) (diff s ++ src s)) ->
   NoDup (upload s')).
Proof.
  intros H Nd Ns Nt (D1 & D2). apply sort_spec in H as [-> _].
  unfold sorted. cbn [upload download local_move local_backup remote_backup].
  rewrite diff_deltas_download, dst_deltas_download, diff_deltas_local_backup,
    src_deltas_local_backup, diff_deltas_remote_backup, dst_deltas_remote_backup,
    diff_deltas_move_keys, diff_deltas_upload, src_deltas_upload.
  split; [|split; [|split; [|split]]].
  - apply NoDup_filter_app; auto. intros x Hx. exact (proj2 (D1 x Hx)).
  - apply NoDup_filter_app; auto. intros x Hx. exact (proj1 (D1 x Hx)).
  - apply NoDup_filter_app; auto. intros x Hx. exact (proj2 (D1 x Hx)).
  - now apply NoDup_filter.
  - intros Fresh. set (sfx := conflict_suffix_of stamp) in *.
    apply NoDup_app.
    + apply NoDup_map_NoDup_ForallPairs; [|now apply NoDup_filter].
      intros a b Ha Hb. apply filter_In in Ha as [Ha _]. apply filter_In in Hb as [Hb _].
      destruct (diff_verdict s a) as [[]|]; destruct (diff_verdict s b) as [[]|];
        intros E; try exact E;
        try (now apply append_cancel_r in E);
        exfalso;
        first [ apply (Fresh a Ha); rewrite E; apply in_or_app; now left
              | apply (Fresh b Hb); rewrite <- E; apply in_or_app; now left ].
    + now apply NoDup_filter.
    + intros x Hx Hy. apply filter_In in Hy as [Hy _].
      apply in_map_iff in Hx as (a & <- & Ha). apply filter_In in Ha as [Ha _].
      destruct (diff_verdict s a) as [[]|];
        try exact (proj1 (D1 a Ha) Hy);
        apply (Fresh a Ha); apply in_or_app; now right.
Qed.

Lemma scenarios_NoDup c :
  NoDup (diff (scenarios c)) /\ NoDup (src (scenarios c)) /\ NoDup (dst (scenarios c)).
Proof.
  cbn. repeat split; repeat constructor; simpl; intuition discriminate.
Qed.

Lemma sort_no_duplicates_witness :
  let s' := sorted stamp0 (scenarios true) in
  NoDup (download s') /\ NoDup (local_backup s') /\ NoDup (remote_backup s') /\
  NoDup (map fst (local_move s')) /\
  ((forall q, In q (diff (scenarios true)) ->
      ~ In (q +++ conflict_suffix_of stamp0)
           (diff (scenarios true) ++ src (scenarios true))) ->
   NoDup (upload s')).
Proof.
  intros s'.
  apply (sort_no_duplicates stamp0 (scenarios true) s').
  - vm_compute; reflexivity.
  - apply (scenarios_NoDup true).
  - apply (scenarios_NoDup true).
  - apply (scenarios_NoDup true).
  - apply scenarios_disjoint.
Defined.

(** ** Text *)

Lemma append_nil_r s : s +++ "" = s.
Proof. induction s as [|c s IH]; simpl; [reflexivity|now rewrite IH]. Qed.

Lemma append_assoc a b c : (a +++ b) +++ c = a +++ b +++ c.
Proof. induction a as [|x a IH]; simpl; [reflexivity|now rewrite IH]. Qed.

Lemma lstrip_head s :
  lstrip s = "" \/ exists c r, lstrip s = String c r /\ is_space c = false.
Proof.
  induction s as [|c s IH]; simpl; [now left|].
  destruct (is_space c) eqn:E; [exact IH|]. right. eauto.
Qed.

Lemma rstrip_idempotent s : rstrip (rstrip s) = rstrip s.
Proof.
  induction s as [|c s IH]; simpl; [reflexivity|].
  destruct (rstrip s) as [|c' k] eqn:E.
  - destruct (is_space c) eqn:S; simpl; [reflexivity|now rewrite S].
  - change (rstrip (String c (String c' k))) with
      (match rstrip (String c' k) with
       | "" => if is_space c then "" else String c ""
       | kept => String c kept
       end).
    now rewrite IH.
Qed.

Lemma rstrip_head c r :
  is_space c = false -> exists k, rstrip (String c r) = String c k.
Proof.
  intros S. simpl. destruct (rstrip r) as [|c' k]; [rewrite S|]; eauto.
Qed.

(** [strip] gives a text that [strip] leaves alone. *)
Lemma strip_stripped s : stripped (strip s).
Proof.
  unfold stripped, strip.
  destruct (lstrip_head s) as [->|(c & r & -> & S)]; [reflexivity|].
  destruct (rstrip_head c r S) as (k & E). rewrite E. simpl lstrip. rewrite S.
  rewrite <- E. apply rstrip_idempotent.
Qed.

Lemma split_from_cons sep s : forall cur, split_from sep cur s <> [].
Proof.
  induction s as [|c s IH]; intros cur; simpl; [discriminate|].
  destruct (Ascii.eqb c sep); [discriminate|apply IH].
Qed.

Lemma join_cons sep x xs : xs <> [] -> join sep (x :: xs) = x +++ sep +++ join sep xs.
Proof. destruct xs; [congruence|reflexivity]. Qed.

(** [sep.join(s.split(sep)) == s]. *)
Lemma join_split_from sep s : forall cur,
  join (String sep "") (split_from sep cur s) = cur +++ s.
Proof.
  induction s as [|c s IH]; intros cur; simpl.
  - now rewrite append_nil_r.
  - destruct (Ascii.eqb c sep) eqn:E.
    + apply Ascii.eqb_eq in E as ->.
      rewrite join_cons by apply split_from_cons. now rewrite IH.
    + rewrite IH, append_assoc. reflexivity.
Qed.

Lemma join_split_on sep s : join (String sep "") (split_on sep s) = s.
Proof. apply join_split_from. Qed.

Lemma split_from_plain sep s : forall cur,
  contains sep s = false -> split_from sep cur s = [cur +++ s].
Proof.
  induction s as [|c s IH]; intros cur H; simpl in *.
  - now rewrite append_nil_r.
  - apply orb_false_iff in H as [E H]. rewrite E, IH by exact H.
    now rewrite append_assoc.
Qed.

Lemma split_from_sep sep k m : forall cur,
  contains sep k = false ->
  split_from sep cur (k +++ String sep m) = (cur +++ k) :: split_from sep "" m.
Proof.
  induction k as [|c k IH]; intros cur H; simpl in *.
  - now rewrite Ascii.eqb_refl, append_nil_r.
  - apply orb_false_iff in H as [E H]. rewrite E, IH by exact H.
    now rewrite append_assoc.
Qed.

(** The pieces of a split hold no separator. *)
Lemma split_from_pieces sep s : forall cur,
  contains sep cur = false ->
  Forall (fun x => contains sep x = false) (split_from sep cur s).
Proof.
  induction s as [|c s IH]; intros cur H; simpl.
  - now constructor.
  - destruct (Ascii.eqb c sep) eqn:E.
    + constructor; [exact H|]. now apply IH.
    + apply IH. clear IH. induction cur as [|x cur IHc]; simpl in *.
      * now rewrite E.
      * apply orb_false_iff in H as [E1 H]. rewrite E1. now apply IHc.
Qed.

Lemma splitlines_from_last s : forall cur,
  has_linebreak s = false -> splitlines_from cur (s +++ newline) = [cur +++ s].
Proof.
  induction s as [|c s IH]; intros cur H; simpl in *.
  - now rewrite append_nil_r.
  - apply orb_false_iff in H as [E H]. rewrite E, IH by exact H.
    now rewrite append_assoc.
Qed.

(** ** Dictionaries *)

Lemma get_set_other {V} (d : PyDict.t V) k k' v :
  k <> k' -> PyDict.get (PyDict.set d k v) k' = PyDict.get d k'.
Proof.
  intros N. induction d as [|[k0 v0] rest IH]; simpl.
  - apply String.eqb_neq in N. now rewrite N.
  - destruct (String.eqb k0 k) eqn:E; simpl.
    + apply String.eqb_eq in E as ->.
      apply String.eqb_neq in N. now rewrite N.
    + now rewrite IH.
Qed.

Lemma in_keys_get {V} (d : PyDict.t V) k :
  In k (PyDict.keys d) <-> PyDict.get d k <> None.
Proof.
  induction d as [|[k0 v0] rest IH]; simpl.
  - split; [contradiction|congruence].
  - destruct (String.eqb k0 k) eqn:E.
    + apply String.eqb_eq in E. split; [discriminate|auto].
    + apply String.eqb_neq in E. rewrite <- IH. split; [intros [?|?]|]; auto; congruence.
Qed.

Lemma keys_set_old {V} (d : PyDict.t V) k v :
  In k (PyDict.keys d) -> PyDict.keys (PyDict.set d k v) = PyDict.keys d.
Proof.
  induction d as [|[k0 v0] rest IH]; simpl; [contradiction|].
  destruct (String.eqb k0 k) eqn:E; [reflexivity|].
  apply String.eqb_neq in E. intros [?|H]; [congruence|]. simpl. now rewrite IH.
Qed.

Lemma keys_set_new {V} (d : PyDict.t V) k v :
  ~ In k (PyDict.keys d) -> PyDict.keys (PyDict.set d k v) = PyDict.keys d ++ [k].
Proof.
  induction d as [|[k0 v0] rest IH]; simpl; [reflexivity|].
  intros N. destruct (String.eqb k0 k) eqn:E.
  - apply String.eqb_eq in E. tauto.
  - simpl. rewrite IH; tauto.
Qed.

Lemma in_keys_set {V} (d : PyDict.t V) k v x :
  In x (PyDict.keys (PyDict.set d k v)) <-> In x (PyDict.keys d) \/ x = k.
Proof.
  rewrite !in_keys_get. destruct (string_dec k x) as [->|N].
  - rewrite get_set_same. split; [auto|discriminate].
  - rewrite get_set_other by exact N. split; [auto|intros [?|?]; congruence].
Qed.

Lemma NoDup_keys_set {V} (d : PyDict.t V) k v :
  NoDup (PyDict.keys d) -> NoDup (PyDict.keys (PyDict.set d k v)).
Proof.
  intros N. destruct (in_dec string_dec k (PyDict.keys d)) as [I|I].
  - now rewrite keys_set_old.
  - rewrite keys_set_new by exact I. apply NoDup_app; auto.
    + repeat constructor. intros [].
    + intros a Ha [<-|[]]. contradiction.
Qed.

(** The keys of a table after [for name in names: table[name] = None]:
    the old keys, then the new names, each once. *)
Lemma none_for_keys names : forall table,
  NoDup (PyDict.keys table) ->
  NoDup (PyDict.keys (none_for names table)) /\
  forall x, In x (PyDict.keys (none_for names table)) <->
            In x (PyDict.keys table) \/ In x names.
Proof.
  induction names as [|n names IH]; intros table N; simpl.
  - split; [exact N|]. tauto.
  - destruct (IH (PyDict.set table n None) (NoDup_keys_set _ _ _ N)) as [A B].
    split; [exact A|]. intros x. rewrite B, in_keys_set.
    split; [intros [[?|?]|?]|intros [?|[?|?]]]; auto.
Qed.

(** ** The listing of the modtimes *)

(** X6 ([Sync.get_modtimes], the parsing of a listing line). A line is
    accepted exactly when it is [key;time] with no other semicolon and a
    time that [strptime] parses; the time is then stored under the key. Any
    other line (no semicolon, a path with a semicolon in it, a malformed
    time) raises [ValueError]. *)
Theorem record_modtime_accepts env line table :
  (forall table',
     record_modtime env line table = Ok table' <->
     exists k m t,
       line = k +++ ";" +++ m /\ contains ";" k = false /\ contains ";" m = false /\
       strptime env m = Some t /\ table' = PyDict.set table k (Some t)) /\
  (forall e, record_modtime env line table = Raise e -> e = ValueError).
Proof.
  split.
  - intros table'. split.
    + unfold record_modtime, parse_time.
      destruct (split_on ";" line) as [|k [|m [|? ?]]] eqn:E; try discriminate.
      destruct (strptime env m) as [t|] eqn:Et; simpl; [|discriminate].
      intros [= <-]. exists k, m, t.
      pose proof (join_split_on ";" line) as J. rewrite E in J.
      pose proof (split_from_pieces ";" line "" eq_refl) as F.
      unfold split_on in E. rewrite E in F.
      inversion F as [|? ? Fk F1]; subst. inversion F1 as [|? ? Fm _]; subst.
      repeat split; auto.
    + intros (k & m & t & -> & Hk & Hm & Ht & ->).
      unfold record_modtime, split_on, parse_time. simpl (";" +++ m).
      rewrite split_from_sep by exact Hk. rewrite split_from_plain by exact Hm.
      simpl. rewrite Ht. reflexivity.
  - unfold record_modtime, parse_time. intros e.
    destruct (split_on ";" line) as [|k [|m [|? ?]]]; try (now intros [= <-]).
    destruct (strptime env m); simpl; [discriminate|now intros [= <-]].
Qed.

Lemma record_modtime_keys env line table table' x :
  record_modtime env line table = Ok table' ->
  In x (PyDict.keys table) -> In x (PyDict.keys table').
Proof.
  unfold record_modtime.
  destruct (split_on ";" line) as [|k [|m [|? ?]]]; try discriminate.
  destruct (parse_time env m); simpl; [|discriminate].
  intros [= <-] H. apply in_keys_set. now left.
Qed.

Lemma record_all_keys env lines : forall table table' x,
  for_each lines (record_modtime env) table = Ok table' ->
  In x (PyDict.keys table) -> In x (PyDict.keys table').
Proof.
  induction lines as [|l rest IH]; simpl; intros table table' x H Hx.
  - now injection H as <-.
  - destruct (record_modtime env l table) as [t1|] eqn:E; simpl in H; [|discriminate].
    eapply IH; eauto using record_modtime_keys.
Qed.

Lemma os_remove_ret cfg name w w' :
  os_remove cfg name w = (Return tt, w') ->
  w' = with_scratch (remove_key (scratch w) name) w.
Proof.
  unfold os_remove. destruct (PyDict.get _ _); [|discriminate]. now intros [= <-].
Qed.

Lemma lift_ret {A} (r : result A) a w w' :
  lift r w = (Return a, w') -> r = Ok a /\ w' = w.
Proof. destruct r; simpl; unfold ret, raise; now intros [= <- <-]. Qed.

(** The steps of a listing that returns. *)
Lemma get_modtimes_returns env s w s' w' :
  get_modtimes env s w = (Return s', w') ->
  let cfg := configuration s in
  let lc0 := none_for (src s) (none_for (diff s) PyDict.empty) in
  let rc0 := none_for (dst s) (none_for (diff s) PyDict.empty) in
  exists out1 out2 lc rc w1 w2,
    exec_cmd env (rclone_cmd cfg (lsf_cmd cfg "local_check.txt" (folder cfg))) true
      (with_scratch (PyDict.set (scratch w) "local_check.txt"
                       (join newline (PyDict.keys lc0))) w) = (Return out1, w1) /\
    for_each (map strip (splitlines out1)) (record_modtime env) lc0 = Ok lc /\
    exec_cmd env (rclone_cmd cfg (lsf_cmd cfg "remote_check.txt" (remote_root cfg))) true
      (with_scratch (PyDict.set (remove_key (scratch w1) "local_check.txt")
                       "remote_check.txt" (join newline (PyDict.keys rc0))) w1)
      = (Return out2, w2) /\
    for_each (map strip (splitlines out2)) (record_modtime env) rc0 = Ok rc /\
    s' = set_remote_check rc (set_local_check lc s) /\
    w' = with_scratch (remove_key (scratch w2) "remote_check.txt") w2.
Proof.
  unfold get_modtimes. cbv zeta. intros H.
  apply bind_Return_inv in H as ([] & wa & Ha & H).
  apply bind_Return_inv in H as (out1 & w1 & H1 & H).
  apply bind_Return_inv in H as (lc & wb & Hb & H).
  apply bind_Return_inv in H as ([] & wc & Hc & H).
  apply bind_Return_inv in H as ([] & wd & Hd & H).
  apply bind_Return_inv in H as (out2 & w2 & H2 & H).
  apply bind_Return_inv in H as (rc & we & He & H).
  apply bind_Return_inv in H as ([] & wf & Hf & H).
  apply open_write_ret in Ha. apply lift_ret in Hb as [Hb ->].
  apply os_remove_ret in Hc. apply open_write_ret in Hd.
  apply lift_ret in He as [He ->]. apply os_remove_ret in Hf.
  unfold ret in H. injection H as <- <-. subst wa wc wd wf.
  exists out1, out2, lc, rc, w1, w2.
  unfold exec_rclone in H1, H2. cbn in H1, H2, Hb, He.
  repeat split; assumption.
Qed.

(** X7 ([Sync.get_modtimes], what the listings are asked for). A listing
    step that returns has run [rclone lsf] twice, first on the local folder
    and then on the remote. The first found in [local_check.txt] the
    differing paths and the paths missing on the remote, the second found
    in [remote_check.txt] the differing paths and the paths missing locally;
    each list names every such path once, however often the check
    reported it. *)
Theorem get_modtimes_requests env s w s' w' :
  get_modtimes env s w = (Return s', w') ->
  let cfg := configuration s in
  exists asked_local asked_remote found1 st1 found2 st2 before between after,
    events w' =
      events w ++ before ++
      Exec (rclone_cmd cfg (lsf_cmd cfg "local_check.txt" (folder cfg))) found1 st1 ::
      between ++
      Exec (rclone_cmd cfg (lsf_cmd cfg "remote_check.txt" (remote_root cfg))) found2 st2 ::
      after /\
    PyDict.get found1 "local_check.txt" = Some (join newline asked_local) /\
    PyDict.get found2 "remote_check.txt" = Some (join newline asked_remote) /\
    NoDup asked_local /\ NoDup asked_remote /\
    (forall x, In x asked_local <-> In x (diff s) \/ In x (src s)) /\
    (forall x, In x asked_remote <-> In x (diff s) \/ In x (dst s)).
Proof.
  intros H cfg.
  destruct (get_modtimes_returns _ _ _ _ _ H)
    as (out1 & out2 & lc & rc & w1 & w2 & H1 & _ & H2 & _ & _ & ->).
  apply exec_cmd_events in H1 as (b1 & a1 & E1).
  apply exec_cmd_events in H2 as (b2 & a2 & E2).
  cbn [events scratch store with_scratch] in E1, E2.
  destruct (none_for_keys (diff s) PyDict.empty (NoDup_nil _)) as [Nd Kd].
  destruct (none_for_keys (src s) _ Nd) as [Nl Kl].
  destruct (none_for_keys (dst s) _ Nd) as [Nr Kr].
  eexists _, _, _, _, _, _, b1, (a1 ++ b2), a2.
  split; [|split; [apply get_set_same|split; [apply get_set_same|
    split; [exact Nl|split; [exact Nr|split]]]]].
  - cbn [events with_scratch]. rewrite E2, E1. fold cfg.
    rewrite <- !app_assoc. cbn [app]. rewrite <- ?app_assoc. reflexivity.
  - intros x. rewrite Kl, Kd. cbn. tauto.
  - intros x. rewrite Kr, Kd. cbn. tauto.
Qed.

Lemma for_each_inv {A S} (Inv : S -> Prop) (body : A -> S -> result S) xs :
  (forall x s s', Inv s -> body x s = Ok s' -> Inv s') ->
  forall s s', Inv s -> for_each xs body s = Ok s' -> Inv s'.
Proof.
  intros Hb. induction xs as [|x rest IH]; simpl; intros s s' I H.
  - now injection H as <-.
  - destruct (body x s) as [s1|] eqn:E; simpl in H; [|discriminate]. eauto.
Qed.

Lemma for_each_raises_in {A S} (Inv : S -> Prop) (P : exn -> Prop)
    (body : A -> S -> result S) xs :
  (forall x s s', Inv s -> body x s = Ok s' -> Inv s') ->
  (forall x s e, In x xs -> Inv s -> body x s = Raise e -> P e) ->
  forall s e, Inv s -> for_each xs body s = Raise e -> P e.
Proof.
  intros Hb. induction xs as [|x rest IH]; simpl; intros Hr s e I H; [discriminate|].
  destruct (body x s) as [s1|e1] eqn:E; simpl in H.
  - apply (IH (fun y t e0 Hy => Hr y t e0 (or_intror Hy)) s1 e); eauto.
  - injection H as <-. eapply Hr; eauto.
Qed.

Lemma sort_diff_file_tables sfx f s s1 s2 :
  same_tables s s1 -> sort_diff_file sfx f s1 = Ok s2 -> same_tables s s2.
Proof. intros I H. apply sort_diff_file_spec in H as (v & _ & ->). exact I. Qed.

Lemma sort_src_file_tables f s s1 s2 :
  same_tables s s1 -> sort_src_file f s1 = Ok s2 -> same_tables s s2.
Proof. intros I H. apply sort_src_file_spec in H as (v & _ & ->). exact I. Qed.

Lemma sort_dst_file_tables f s s1 s2 :
  same_tables s s1 -> sort_dst_file f s1 = Ok s2 -> same_tables s s2.
Proof. intros I H. apply sort_dst_file_spec in H as (v & _ & ->). exact I. Qed.

Lemma sort_diff_file_raises sfx f s e :
  sort_diff_file sfx f s = Raise e ->
  match e with
  | KeyError g =>
      g = f /\ (PyDict.get (local_check s) f = None \/
                PyDict.get (remote_check s) f = None)
  | TypeError => True
  | _ => False
  end.
Proof.
  unfold sort_diff_file, and_then, modtime_ge, modtime_lt, rbind.
  destruct (PyDict.get (local_check s) f) as [[lt|]|];
    destruct (PyDict.get (remote_check s) f) as [[rt|]|]; simpl;
    repeat match goal with
           | |- context [if ?b then _ else _] => destruct b; simpl
           end;
    intros [= <-]; auto.
Qed.

Lemma sort_src_file_raises f s e :
  sort_src_file f s = Raise e ->
  match e with
  | KeyError g => g = f /\ PyDict.get (local_check s) f = None
  | TypeError => True
  | _ => False
  end.
Proof.
  unfold sort_src_file, modtime_ge, rbind.
  destruct (PyDict.get (local_check s) f) as [[lt|]|]; simpl;
    try destruct (time_ge _ _); intros [= <-]; auto.
Qed.

Lemma sort_dst_file_raises f s e :
  sort_dst_file f s = Raise e ->
  match e with
  | KeyError g => g = f /\ PyDict.get (remote_check s) f = None
  | TypeError => True
  | _ => False
  end.
Proof.
  unfold sort_dst_file, modtime_ge, rbind.
  destruct (PyDict.get (remote_check s) f) as [[lt|]|]; simpl;
    try destruct (time_ge _ _); intros [= <-]; auto.
Qed.

(** A [KeyError] of [sort] names a path that is no key of the table. *)
Lemma sort_raises_missing stamp s e : sort stamp s = Raise e -> missing_key s e.
Proof.
  unfold sort. cbv zeta.
  set (s0 := set_remote_backup [] _).
  assert (I0 : same_tables s s0) by (split; reflexivity).
  destruct (for_each (diff s0) _ s0) as [s1|e1] eqn:H1; simpl.
  - assert (I1 : same_tables s s1).
    { revert H1. apply for_each_inv; [|exact I0].
      intros x a b. apply sort_diff_file_tables. }
    assert (D1 : src s1 = src s /\ dst s1 = dst s).
    { apply diff_loop_spec in H1 as [-> _]. split; reflexivity. }
    destruct D1 as [Es Ed].
    destruct (for_each (src s1) sort_src_file s1) as [s2|e2] eqn:H2; simpl.
    + assert (I2 : same_tables s s2).
      { revert H2. apply for_each_inv; [|exact I1].
        intros x a b. apply sort_src_file_tables. }
      assert (D2 : dst s2 = dst s).
      { apply src_loop_spec in H2 as [-> _]. exact Ed. }
      rewrite D2.
      apply (for_each_raises_in (same_tables s)); [|  |exact I2].
      * intros x a b. apply sort_dst_file_tables.
      * intros x a e0 Hx [_ Ir] Hr. apply sort_dst_file_raises in Hr.
        destruct e0; try contradiction; [|exact I].
        destruct Hr as [-> Hr]. right. rewrite <- Ir. auto.
    + intros [= <-]. revert H2. rewrite Es.
      apply (for_each_raises_in (same_tables s)); [|  |exact I1].
      * intros x a b. apply sort_src_file_tables.
      * intros x a e0 Hx [Il _] Hr. apply sort_src_file_raises in Hr.
        destruct e0; try contradiction; [|exact I].
        destruct Hr as [-> Hr]. left. rewrite <- Il. auto.
  - intros [= <-]. revert H1.
    apply (for_each_raises_in (same_tables s)); [|  |exact I0].
    + intros x a b. apply sort_diff_file_tables.
    + intros x a e0 Hx [Il Ir] Hr. apply sort_diff_file_raises in Hr.
      destruct e0; try contradiction; [|exact I].
      destruct Hr as [-> [Hr|Hr]]; [left; rewrite <- Il|right; rewrite <- Ir]; auto.
Qed.

(** ** What the tables hold after the listing *)

Lemma none_for_keeps names : forall (table : modtimes) f,
  PyDict.get table f = Some None ->
  PyDict.get (none_for names table) f = Some None.
Proof.
  induction names as [|k names IH]; intros table f H; [exact H|].
  change (none_for (k :: names) table) with (none_for names (PyDict.set table k None)).
  apply IH. destruct (string_dec k f) as [->|Hk]; [apply get_set_same|].
  now rewrite get_set_other.
Qed.

Lemma none_for_in names : forall (table : modtimes) f,
  In f names -> PyDict.get (none_for names table) f = Some None.
Proof.
  induction names as [|n names IH]; intros table f H; [destruct H|].
  change (none_for (n :: names) table) with (none_for names (PyDict.set table n None)).
  destruct H as [->|H]; [|now apply IH].
  apply none_for_keeps, get_set_same.
Qed.

(** Before the listing, every path to be asked for has the value [None]. *)
Lemma none_for_asked s f :
  (In f (diff s) \/ In f (src s) ->
   PyDict.get (none_for (src s) (none_for (diff s) PyDict.empty)) f = Some None) /\
  (In f (diff s) \/ In f (dst s) ->
   PyDict.get (none_for (dst s) (none_for (diff s) PyDict.empty)) f = Some None).
Proof.
  split; (intros [H|H]; [apply none_for_keeps; now apply none_for_in
                        |now apply none_for_in]).
Qed.

Lemma record_modtime_get env line table table' f :
  record_modtime env line table = Ok table' ->
  if names_path f line
  then exists t, PyDict.get table' f = Some (Some t)
  else PyDict.get table' f = PyDict.get table f.
Proof.
  unfold record_modtime, names_path.
  destruct (split_on ";" line) as [|k [|m [|? ?]]]; try discriminate.
  destruct (parse_time env m) as [t|]; simpl; [|discriminate].
  intros [= <-]. destruct (String.eqb k f) eqn:E.
  - apply String.eqb_eq in E as ->. exists t. apply get_set_same.
  - apply String.eqb_neq in E. now apply get_set_other.
Qed.

Lemma record_all_get env f lines : forall table table',
  for_each lines (record_modtime env) table = Ok table' ->
  if existsb (names_path f) lines
  then exists t, PyDict.get table' f = Some (Some t)
  else PyDict.get table' f = PyDict.get table f.
Proof.
  induction lines as [|l rest IH]; intros table table' H; cbn [for_each existsb] in *.
  - now injection H as <-.
  - destruct (record_modtime env l table) as [t1|] eqn:E; cbn [rbind] in H;
      [|discriminate].
    specialize (IH _ _ H). apply (record_modtime_get env l table t1 f) in E.
    destruct (existsb (names_path f) rest).
    + rewrite orb_true_r. exact IH.
    + rewrite orb_false_r. destruct (names_path f l).
      * destruct E as (t & E). exists t. congruence.
      * congruence.
Qed.

Lemma exec_cmd_returns env cmd check_ec w out w' :
  exec_cmd env cmd check_ec w = (Return out, w') ->
  exists c, subprocess env (ticks w) cmd (scratch w) (store w) = Completed c /\
            out = stdout c.
Proof.
  unfold exec_cmd. intros H.
  apply bind_Return_inv in H as ([] & wa & Ha & H).
  apply bind_Return_inv in H as (exe & wb & Hb & H).
  apply bind_Return_inv in H as ([] & wc & Hc & H).
  apply bind_Return_inv in H as ([] & wd & Hd & H).
  unfold ret in H. injection H as <- _.
  unfold log, emit in Ha. injection Ha as <-.
  unfold subprocess_run in Hb.
  cbn [events ticks lock_dir scratch lastsync_txt store] in Hb.
  destruct (subprocess env _ _ _ _) as [|r]; [discriminate|].
  destruct (check_ec && _); [discriminate|]. injection Hb as <- _. eauto.
Qed.

(** X8 ([Sync.get_modtimes] then [Sync.sort], the missing modtime). A
    listing step that returns leaves the partitions as they were and has
    every path [sort] will look up as a key of the table it will use, so
    in a cycle [sort] never raises [KeyError]. The value under such a key
    is a modtime when the output of the listing has a line for the path,
    and is still [None] when it has none; and when some path that [sort]
    looks up was not reported, [sort] fails with [TypeError]. *)
Theorem listed_tables_have_every_key env s w s' w' :
  get_modtimes env s w = (Return s', w') ->
  let cfg := configuration s in
  (diff s' = diff s /\ src s' = src s /\ dst s' = dst s /\
   lastsync s' = lastsync s /\ syncstart s' = syncstart s /\
   configuration s' = configuration s) /\
  (forall f, In f (diff s) \/ In f (src s) ->
             PyDict.get (local_check s') f <> None) /\
  (forall f, In f (diff s) \/ In f (dst s) ->
             PyDict.get (remote_check s') f <> None) /\
  (forall stamp e, sort stamp s' = Raise e -> e = TypeError) /\
  exists n1 found1 st1 listing1 n2 found2 st2 listing2,
    subprocess env n1 (rclone_cmd cfg (lsf_cmd cfg "local_check.txt" (folder cfg)))
      found1 st1 = Completed listing1 /\
    subprocess env n2 (rclone_cmd cfg (lsf_cmd cfg "remote_check.txt" (remote_root cfg)))
      found2 st2 = Completed listing2 /\
    (forall f, In f (diff s) \/ In f (src s) ->
       if reported (stdout listing1) f
       then exists t, PyDict.get (local_check s') f = Some (Some t)
       else PyDict.get (local_check s') f = Some None) /\
    (forall f, In f (diff s) \/ In f (dst s) ->
       if reported (stdout listing2) f
       then exists t, PyDict.get (remote_check s') f = Some (Some t)
       else PyDict.get (remote_check s') f = Some None) /\
    (forall f stamp,
       (In f (diff s) \/ In f (src s)) /\ reported (stdout listing1) f = false \/
       (In f (diff s) \/ In f (dst s)) /\ reported (stdout listing2) f = false ->
       sort stamp s' = Raise TypeError).
Proof.
  intros H cfg.
  destruct (get_modtimes_returns _ _ _ _ _ H)
    as (out1 & out2 & lc & rc & w1 & w2 & X1 & Hl & X2 & Hr & -> & _).
  destruct (none_for_keys (diff s) PyDict.empty (NoDup_nil _)) as [Nd Kd].
  destruct (none_for_keys (src s) _ Nd) as [_ Kl].
  destruct (none_for_keys (dst s) _ Nd) as [_ Kr].
  assert (L : forall f, In f (diff s) \/ In f (src s) -> PyDict.get lc f <> None).
  { intros f Hf. apply in_keys_get. eapply record_all_keys; [exact Hl|].
    apply Kl. rewrite Kd. tauto. }
  assert (R : forall f, In f (diff s) \/ In f (dst s) -> PyDict.get rc f <> None).
  { intros f Hf. apply in_keys_get. eapply record_all_keys; [exact Hr|].
    apply Kr. rewrite Kd. tauto. }
  assert (T : forall stamp e,
            sort stamp (set_remote_check rc (set_local_check lc s)) = Raise e ->
            e = TypeError).
  { intros stamp e He. apply sort_raises_missing in He.
    destruct e; try contradiction; [|reflexivity].
    exfalso. cbn in He.
    destruct He as [[A B]|[A B]]; [exact (L _ A B)|exact (R _ A B)]. }
  apply exec_cmd_returns in X1 as (c1 & S1 & ->).
  apply exec_cmd_returns in X2 as (c2 & S2 & ->).
  assert (VL : forall f, In f (diff s) \/ In f (src s) ->
               if reported (stdout c1) f
               then exists t, PyDict.get lc f = Some (Some t)
               else PyDict.get lc f = Some None).
  { intros f Hf. pose proof (record_all_get env f _ _ _ Hl) as G.
    unfold reported. destruct (existsb _ _); [exact G|].
    rewrite G. now apply (none_for_asked s f). }
  assert (VR : forall f, In f (diff s) \/ In f (dst s) ->
               if reported (stdout c2) f
               then exists t, PyDict.get rc f = Some (Some t)
               else PyDict.get rc f = Some None).
  { intros f Hf. pose proof (record_all_get env f _ _ _ Hr) as G.
    unfold reported. destruct (existsb _ _); [exact G|].
    rewrite G. now apply (none_for_asked s f). }
  split; [repeat split|split; [exact L|split; [exact R|split; [exact T|]]]].
  eexists _, _, _, c1, _, _, _, c2.
  split; [exact S1|split; [exact S2|split; [exact VL|split; [exact VR|]]]].
  intros f stamp Hf.
  destruct (sort stamp (set_remote_check rc (set_local_check lc s))) as [s2|e] eqn:So.
  - exfalso. apply sort_spec in So as [_ (C1 & C2 & C3)].
    cbn [diff src dst local_check remote_check set_remote_check set_local_check]
      in C1, C2, C3.
    destruct Hf as [[Hf U]|[Hf U]].
    + specialize (VL f Hf). rewrite U in VL.
      assert (K : known lc f = None) by (unfold known; now rewrite VL).
      destruct Hf as [Hf|Hf]; [destruct (C1 f Hf) as [A _]|pose proof (C2 f Hf) as A];
        contradiction.
    + specialize (VR f Hf). rewrite U in VR.
      assert (K : known rc f = None) by (unfold known; now rewrite VR).
      destruct Hf as [Hf|Hf]; [destruct (C1 f Hf) as [_ A]|pose proof (C3 f Hf) as A];
        contradiction.
  - now rewrite (T stamp e So).
Qed.

Lemma get_modtimes_sample_returns :
  get_modtimes (sample_env false false false) (scenarios false) locked_world =
  (Return (returned (scenarios false)
             (get_modtimes (sample_env false false false) (scenarios false)
                locked_world)),
   snd (get_modtimes (sample_env false false false) (scenarios false) locked_world)).
Proof. apply returned_pair. vm_compute. reflexivity. Qed.

Lemma get_modtimes_partial_returns :
  get_modtimes partial_env (scenarios false) locked_world =
  (Return (returned (scenarios false)
             (get_modtimes partial_env (scenarios false) locked_world)),
   snd (get_modtimes partial_env (scenarios false) locked_world)).
Proof. apply returned_pair. vm_compute. reflexivity. Qed.

Lemma listed_tables_have_every_key_witness :
  let env := partial_env in
  let s := scenarios false in
  let s' := returned s (get_modtimes env s locked_world) in
  let cfg := configuration s in
  (diff s' = diff s /\ src s' = src s /\ dst s' = dst s /\
   lastsync s' = lastsync s /\ syncstart s' = syncstart s /\
   configuration s' = configuration s) /\
  (forall f, In f (diff s) \/ In f (src s) ->
             PyDict.get (local_check s') f <> None) /\
  (forall f, In f (diff s) \/ In f (dst s) ->
             PyDict.get (remote_check s') f <> None) /\
  (forall stamp e, sort stamp s' = Raise e -> e = TypeError) /\
  exists n1 found1 st1 listing1 n2 found2 st2 listing2,
    subprocess env n1 (rclone_cmd cfg (lsf_cmd cfg "local_check.txt" (folder cfg)))
      found1 st1 = Completed listing1 /\
    subprocess env n2 (rclone_cmd cfg (lsf_cmd cfg "remote_check.txt" (remote_root cfg)))
      found2 st2 = Completed listing2 /\
    (forall f, In f (diff s) \/ In f (src s) ->
       if reported (stdout listing1) f
       then exists t, PyDict.get (local_check s') f = Some (Some t)
       else PyDict.get (local_check s') f = Some None) /\
    (forall f, In f (diff s) \/ In f (dst s) ->
       if reported (stdout listing2) f
       then exists t, PyDict.get (remote_check s') f = Some (Some t)
       else PyDict.get (remote_check s') f = Some None) /\
    (forall f stamp,
       (In f (diff s) \/ In f (src s)) /\ reported (stdout listing1) f = false \/
       (In f (diff s) \/ In f (dst s)) /\ reported (stdout listing2) f = false ->
       sort stamp s' = Raise TypeError).
Proof.
  exact (listed_tables_have_every_key _ _ _ _ _ get_modtimes_partial_returns).
Defined.

Lemma get_modtimes_requests_witness :
  let s := scenarios false in
  let cfg := configuration s in
  let w' := snd (get_modtimes (sample_env false false false) s locked_world) in
  exists asked_local asked_remote found1 st1 found2 st2 before between after,
    events w' =
      events locked_world ++ before ++
      Exec (rclone_cmd cfg (lsf_cmd cfg "local_check.txt" (folder cfg))) found1 st1 ::
      between ++
      Exec (rclone_cmd cfg (lsf_cmd cfg "remote_check.txt" (remote_root cfg))) found2 st2 ::
      after /\
    PyDict.get found1 "local_check.txt" = Some (join newline asked_local) /\
    PyDict.get found2 "remote_check.txt" = Some (join newline asked_remote) /\
    NoDup asked_local /\ NoDup asked_remote /\
    (forall x, In x asked_local <-> In x (diff s) \/ In x (src s)) /\
    (forall x, In x asked_remote <-> In x (diff s) \/ In x (dst s)).
Proof.
  exact (get_modtimes_requests _ _ _ _ _ get_modtimes_sample_returns).
Defined.

(** ** The marker of the last sync *)

Lemma bind_cases {A B} (m : M A) (k : A -> M B) w o w' :
  (x <- m ;; k x) w = (o, w') ->
  (exists a w1, m w = (Return a, w1) /\ k a w1 = (o, w')) \/
  (exists o1, m w = (o1, w') /\ (forall a, o1 <> Return a) /\ forall b, o <> Return b).
Proof.
  unfold bind. destruct (m w) as [[a|e|] w1] eqn:E.
  - left. eauto.
  - intros [= <- <-]. right. exists (Raised e). repeat split; discriminate.
  - intros [= <- <-]. right. exists Hangs. repeat split; discriminate.
Qed.

Lemma now_formatted_ret env fmt w a w' :
  now_formatted env fmt w = (Return a, w') -> a = strftime env fmt (ticks w).
Proof. unfold now_formatted, bind, instant, ret. now intros [= <- <-]. Qed.

Lemma run_check_returns env s w s' w' :
  run_check env s w = (Return s', w') ->
  syncstart s' = strftime env time_format (ticks w) /\
  lastsync s' = lastsync s /\ configuration s' = configuration s /\
  exists d1 d2 d3, s' = set_src d3 (set_dst d2 (set_diff d1
                          (set_syncstart (strftime env time_format (ticks w)) s))) /\
                   Forall stripped d1 /\ Forall stripped d2 /\ Forall stripped d3.
Proof.
  unfold run_check. cbv zeta. intros H.
  apply bind_Return_inv in H as (start & w1 & H1 & H).
  apply now_formatted_ret in H1. subst start.
  apply bind_Return_inv in H as (out & w2 & H2 & H).
  apply bind_Return_inv in H as (d1 & w3 & H3 & H).
  apply bind_Return_inv in H as (d2 & w4 & H4 & H).
  apply bind_Return_inv in H as (d3 & w5 & H5 & H).
  apply bind_Return_inv in H as ([] & w6 & H6 & H).
  apply bind_Return_inv in H as ([] & w7 & H7 & H).
  apply bind_Return_inv in H as ([] & w8 & H8 & H).
  unfold ret in H. injection H as <- <-.
  assert (St : forall cfg name w d w', read_lines cfg name w = (Return d, w') ->
               Forall stripped d).
  { clear. intros cfg name w d w' H. unfold read_lines in H.
    apply bind_Return_inv in H as (c & w1 & _ & H). unfold ret in H.
    injection H as <- _. apply Forall_forall. intros x Hx.
    apply in_map_iff in Hx as (y & <- & _). apply strip_stripped. }
  repeat split. exists d1, d2, d3. repeat split; eauto.
Qed.

Section Marker.
Variable env : environment.
Variable s : Sync.

Local Abbreviation quiet :=
  (post (frame not_marker_write the_marker) stage_error).

Lemma quiet_keeps {A} (V : A -> Prop) (m : M A) : quiet V m -> keeps_marker m.
Proof. intros Q w o w' H. destruct (Q _ _ _ H) as ((G & Hg) & _). now split. Qed.

Lemma load_last_sync_keeps : keeps_marker (load_last_sync env s).
Proof.
  apply (quiet_keeps (same_cfg (configuration s))).
  now apply ok_load_last_sync.
Qed.

Lemma run_check_keeps : keeps_marker (run_check env s).
Proof.
  apply (quiet_keeps (same_cfg (configuration s))).
  apply ok_run_check; first [reflexivity | intros; exact I].
Qed.

Lemma get_modtimes_keeps : keeps_marker (get_modtimes env s).
Proof.
  apply (quiet_keeps (same_cfg (configuration s))).
  apply ok_get_modtimes; first [reflexivity | intros; exact I].
Qed.

Lemma sort_now_keeps : keeps_marker (sort_now env s).
Proof.
  apply (quiet_keeps (same_cfg (configuration s))).
  now apply ok_sort_now.
Qed.

Lemma log_summary_keeps : keeps_marker (log_summary s).
Proof.
  apply (quiet_keeps anything).
  apply ok_log_summary. intros; exact I.
Qed.

Lemma action_keeps : keeps_marker (action env s).
Proof.
  apply (quiet_keeps anything).
  apply (ok_action env (configuration s)); first [reflexivity | intros; exact I].
Qed.

End Marker.

Lemma keeps_marker_trans w1 w2 w3 :
  lastsync_txt w2 = lastsync_txt w1 /\ grows not_marker_write w1 w2 ->
  lastsync_txt w3 = lastsync_txt w2 /\ grows not_marker_write w2 w3 ->
  lastsync_txt w3 = lastsync_txt w1 /\ grows not_marker_write w1 w3.
Proof.
  intros [A B] [C D]. split; [congruence|eapply grows_trans; eauto].
Qed.

Lemma sort_now_returns env s w s' w' :
  sort_now env s w = (Return s', w') ->
  s' = sorted (strftime env stamp_format (ticks w)) s.
Proof.
  unfold sort_now. intros H.
  apply bind_Return_inv in H as (stamp & w1 & H1 & H).
  apply now_formatted_ret in H1. subst stamp.
  apply lift_ret in H as [H _]. now apply sort_spec in H as [-> _].
Qed.

(** X9 ([Sync.load_last_sync], every case). Reading the marker changes
    nothing in the world and never hangs. Without a marker file the last
    sync is the epoch ([time.localtime(0)]), and this is the only error
    that is absorbed. With a marker file, its first line decides: a file
    without any line (an empty one) raises [IndexError], a first line that
    [strptime] does not parse, once stripped, raises [ValueError], and a
    first line that parses gives [lastsync]. Nothing else is raised, and a
    value that is returned differs from the object given in [lastsync]
    only. *)
Theorem load_last_sync_outcome env s w o w' :
  load_last_sync env s w = (o, w') ->
  w' = w /\ o <> Hangs /\
  (lastsync_txt w = None -> o = Return (set_lastsync (localtime_0 env) s)) /\
  (forall content, lastsync_txt w = Some content ->
     o = match splitlines content with
         | [] => Raised IndexError
         | line :: _ =>
             match strptime env (strip line) with
             | Some t => Return (set_lastsync t s)
             | None => Raised ValueError
             end
         end) /\
  (lastsync_txt w = Some "" -> o = Raised IndexError) /\
  (forall e, o = Raised e ->
             lastsync_txt w <> None /\ (e = IndexError \/ e = ValueError)) /\
  (forall s', o = Return s' -> exists t, s' = set_lastsync t s).
Proof.
  unfold load_last_sync, try_except, bind, lift, ret, raise, first_line, parse_time.
  destruct (lastsync_txt w) as [c|] eqn:L; cbn.
  - destruct (splitlines c) as [|line rest] eqn:Sp; cbn.
    + intros [= <- <-].
      split; [reflexivity|split; [discriminate|split; [|split; [|split; [|split]]]]].
      * discriminate.
      * intros content [= <-]. now rewrite Sp.
      * reflexivity.
      * intros e [= <-]. split; [discriminate|now left].
      * discriminate.
    + destruct (strptime env (strip line)) as [t|] eqn:Pt; cbn; intros [= <- <-];
        (split; [reflexivity|split; [discriminate|split; [|split; [|split; [|split]]]]]).
      * discriminate.
      * intros content [= <-]. now rewrite Sp, Pt.
      * intros [= ->]. discriminate Sp.
      * discriminate.
      * intros s' [= <-]. eauto.
      * discriminate.
      * intros content [= <-]. now rewrite Sp, Pt.
      * intros [= ->]. discriminate Sp.
      * intros e [= <-]. split; [discriminate|now right].
      * discriminate.
  - intros [= <- <-].
    split; [reflexivity|split; [discriminate|split; [|split; [|split; [|split]]]]].
    + reflexivity.
    + discriminate.
    + discriminate.
    + discriminate.
    + intros s' [= <-]. eauto.
Qed.

Lemma load_last_sync_outcome_witness :
  let env := sample_env false false false in
  let r := load_last_sync env one_upload sample_world in
  snd r = sample_world /\ fst r <> Hangs /\
  (lastsync_txt sample_world = None ->
   fst r = Return (set_lastsync (localtime_0 env) one_upload)) /\
  (forall content, lastsync_txt sample_world = Some content ->
     fst r = match splitlines content with
             | [] => Raised IndexError
             | line :: _ =>
                 match strptime env (strip line) with
                 | Some t => Return (set_lastsync t one_upload)
                 | None => Raised ValueError
                 end
             end) /\
  (lastsync_txt sample_world = Some "" -> fst r = Raised IndexError) /\
  (forall e, fst r = Raised e ->
             lastsync_txt sample_world <> None /\ (e = IndexError \/ e = ValueError)) /\
  (forall s', fst r = Return s' -> exists t, s' = set_lastsync t one_upload).
Proof.
  intros env r.
  apply (load_last_sync_outcome env one_upload sample_world (fst r) (snd r)).
  apply surjective_pairing.
Defined.

(** X10 ([Sync.set_last_sync] then [Sync.load_last_sync], round trip).
    What one cycle writes, the next one reads back: after [set_last_sync]
    on an object whose [syncstart] holds no line boundary, [load_last_sync]
    returns with [lastsync] set to the time [strptime] reads from
    [syncstart] (stripped), and raises [ValueError] when it reads none. *)
Theorem marker_round_trip env s next w :
  has_linebreak (syncstart s) = false ->
  load_last_sync env next (snd (set_last_sync s w)) =
  (match strptime env (strip (syncstart s)) with
   | Some t => Return (set_lastsync t next)
   | None => Raised ValueError
   end,
   snd (set_last_sync s w)).
Proof.
  intros N.
  unfold load_last_sync, try_except, bind, lift, ret, raise, first_line, parse_time,
    set_last_sync, emit, with_marker, splitlines.
  cbn [snd lastsync_txt]. rewrite splitlines_from_last by exact N.
  cbn [append]. destruct (strptime env (strip (syncstart s))); reflexivity.
Qed.

Lemma marker_round_trip_witness :
  load_last_sync (sample_env false false false) one_upload
    (snd (set_last_sync started_at_T0 sample_world)) =
  (match strptime (sample_env false false false) (strip (syncstart started_at_T0)) with
   | Some t => Return (set_lastsync t one_upload)
   | None => Raised ValueError
   end,
   snd (set_last_sync started_at_T0 sample_world)).
Proof.
  apply (marker_round_trip (sample_env false false false) started_at_T0 one_upload
           sample_world).
  vm_compute; reflexivity.
Defined.

Lemma load_last_sync_returns env s w s1 w1 :
  load_last_sync env s w = (Return s1, w1) ->
  w1 = w /\ exists t, s1 = set_lastsync t s.
Proof.
  intros H. split; [now apply load_last_sync_world in H|]. revert H.
  unfold load_last_sync, try_except, bind, lift, ret, raise.
  destruct (lastsync_txt w); cbn; [|intros [= <- _]; eauto].
  destruct (first_line _) as [line|e]; cbn.
  - destruct (parse_time _ _) as [t|e]; cbn; [intros [= <- _]; eauto|].
    destruct e; try discriminate. intros [= <- _]; eauto.
  - destruct e; try discriminate. intros [= <- _]; eauto.
Qed.

(** X11 ([Sync.run], when the marker is written). A cycle that does not
    return, whatever stage stopped it, has not written the marker. A cycle
    that returns has written it exactly when dry-run is off, and then the
    marker holds the time read when the check began, before any transfer,
    followed by a line feed. *)
Theorem run_writes_marker_on_success_only env s w o w' :
  run env s w = (o, w') ->
  (o <> Return tt ->
   lastsync_txt w' = lastsync_txt w /\ grows not_marker_write w w') /\
  (o = Return tt ->
   lastsync_txt w' =
   if dryrun (configuration s) then lastsync_txt w
   else Some (strftime env time_format (ticks w) +++ newline)).
Proof.
  unfold run. intros H.
  assert (K0 : lastsync_txt w = lastsync_txt w /\ grows not_marker_write w w)
    by (split; [reflexivity|apply grows_refl]).
  apply bind_cases in H as [(s1 & w1 & H1 & H)|(o1 & H1 & _ & N)].
  2:{ split; [intros _; eapply load_last_sync_keeps; eauto|].
      intros ->. now destruct (N tt). }
  apply load_last_sync_returns in H1 as (-> & t & ->).
  apply bind_cases in H as [(s2 & w2 & H2 & H)|(o2 & H2 & _ & N)].
  2:{ split; [intros _; eapply run_check_keeps; eauto|].
      intros ->. now destruct (N tt). }
  pose proof (run_check_keeps _ _ _ _ _ H2) as K2.
  apply run_check_returns in H2 as (A2 & _ & C2 & _). cbn in C2.
  apply bind_cases in H as [(s3 & w3 & H3 & H)|(o3 & H3 & _ & N)].
  2:{ split; [intros _; eapply keeps_marker_trans; [exact K2|];
              eapply get_modtimes_keeps; eauto|].
      intros ->. now destruct (N tt). }
  pose proof (keeps_marker_trans _ _ _ K2 (get_modtimes_keeps _ _ _ _ _ H3)) as K3.
  apply get_modtimes_returns in H3
    as (out1 & out2 & lc & rc & wa & wb & _ & _ & _ & _ & -> & _).
  apply bind_cases in H as [(s4 & w4 & H4 & H)|(o4 & H4 & _ & N)].
  2:{ split; [intros _; eapply keeps_marker_trans; [exact K3|];
              eapply sort_now_keeps; eauto|].
      intros ->. now destruct (N tt). }
  pose proof (keeps_marker_trans _ _ _ K3 (sort_now_keeps _ _ _ _ _ H4)) as K4.
  apply sort_now_returns in H4. subst s4.
  apply bind_cases in H as [([] & w5 & H5 & H)|(o5 & H5 & _ & N)].
  2:{ split; [intros _; eapply keeps_marker_trans; [exact K4|];
              eapply log_summary_keeps; eauto|].
      intros ->. now destruct (N tt). }
  pose proof (keeps_marker_trans _ _ _ K4 (log_summary_keeps _ _ _ _ H5)) as K5.
  apply bind_cases in H as [([] & w6 & H6 & H)|(o6 & H6 & _ & N)].
  2:{ split; [intros _; eapply keeps_marker_trans; [exact K5|];
              eapply action_keeps; eauto|].
      intros ->. now destruct (N tt). }
  pose proof (keeps_marker_trans _ _ _ K5 (action_keeps _ _ _ _ _ H6)) as [K6 _].
  cbn [configuration sorted set_remote_check set_local_check syncstart] in H.
  rewrite C2 in H.
  destruct (dryrun (configuration s)); cbn [negb] in H.
  - unfold ret in H. injection H as <- <-. split; [congruence|]. now intros _.
  - unfold set_last_sync, emit, with_marker in H.
    cbn [syncstart sorted set_remote_check set_local_check] in H.
    injection H as <- <-. split; [congruence|]. intros _.
    cbn [lastsync_txt]. now rewrite A2.
Qed.

Lemma run_writes_marker_on_success_only_witness :
  let env := sample_env false false false in
  let r := run env (new_Sync (sample_config false false)) locked_world in
  (fst r <> Return tt ->
   lastsync_txt (snd r) = lastsync_txt locked_world /\
   grows not_marker_write locked_world (snd r)) /\
  (fst r = Return tt ->
   lastsync_txt (snd r) =
   if dryrun (configuration (new_Sync (sample_config false false)))
   then lastsync_txt locked_world
   else Some (strftime env time_format (ticks locked_world) +++ newline)).
Proof.
  intros env r.
  apply (run_writes_marker_on_success_only env (new_Sync (sample_config false false))
           locked_world (fst r) (snd r)).
  apply surjective_pairing.
Defined.

(** ** Waiting: the lock and the folder *)

Lemma sleeps_app w w' new :
  events w' = events w ++ new -> sleeps w' = sleeps w ++ flat_map sleep_of new.
Proof. unfold sleeps. intros ->. apply flat_map_app. Qed.

Lemma backoff_S i n : backoff i (S n) = (10 + (i + 1) ^ 2) :: backoff (i + 1) n.
Proof.
  unfold backoff. cbn [seq map]. f_equal.
  rewrite <- seq_shift, map_map. apply map_ext. intros k.
  do 2 f_equal. lia.
Qed.

(** A wait that nothing ends: the loop goes round as long as it is
    followed, sleeping longer each time, and leaves the lock directory, the
    marker and the storage alone. *)
Lemma poll_waits env blocked logger msg :
  stable blocked -> (forall n, interrupt env n = false) ->
  forall fuel i w, blocked w = true ->
  exists w',
    poll env fuel i blocked logger msg w = (Hangs, w') /\
    sleeps w' = sleeps w ++ backoff i fuel /\
    lock_dir w' = lock_dir w /\ scratch w' = scratch w /\
    lastsync_txt w' = lastsync_txt w /\ store w' = store w.
Proof.
  intros St Ni. induction fuel as [|fuel IH]; intros i w B; simpl; rewrite B.
  - exists w. unfold backoff. simpl. rewrite app_nil_r.
    repeat (split; [reflexivity|]). reflexivity.
  - unfold bind at 1. unfold log, emit. unfold bind at 1.
    unfold sleep, bind at 1, instant. unfold bind at 1, emit. rewrite Ni.
    unfold ret. cbn [ticks lock_dir scratch lastsync_txt store events].
    set (w1 := mk_world _ _ _ _ _ _).
    assert (B1 : blocked w1 = true) by (unfold w1; now rewrite St).
    destruct (IH (i + 1) w1 B1) as (w' & H & S1 & A1 & A2 & A3 & A4).
    exists w'. split; [exact H|]. split; [|auto].
    rewrite S1, backoff_S.
    rewrite (sleeps_app w w1 [Log logger INFO [Lit msg]; Sleep (10 + (i + 1) ^ 2)]).
    + cbn. now rewrite <- app_assoc.
    + unfold w1. cbn. now rewrite <- app_assoc.
Qed.

(** While the lock exists, the wait for it never ends in a return. *)
Lemma poll_locked env logger msg : forall fuel i w o w',
  lock_dir w = true ->
  poll env fuel i lock_dir logger msg w = (o, w') ->
  (o = Hangs \/ o = Raised KeyboardInterrupt) /\
  lock_dir w' = true /\ scratch w' = scratch w /\
  lastsync_txt w' = lastsync_txt w /\ store w' = store w /\
  grows (fun ev => match ev with Mkdir _ | Rmdir _ _ => False | _ => True end) w w'.
Proof.
  induction fuel as [|fuel IH]; intros i w o w' L; cbn [poll]; rewrite L.
  - intros [= <- <-]. repeat split; auto. apply grows_refl.
  - unfold bind at 1. unfold log, emit. unfold bind at 1.
    unfold sleep, bind at 1, instant. unfold bind at 1, emit.
    cbn [ticks lock_dir scratch lastsync_txt store events].
    destruct (interrupt env (ticks w)).
    + unfold raise. intros [= <- <-]. cbn. repeat split; auto.
      eexists. rewrite <- app_assoc. split; [reflexivity|]. repeat constructor.
    + unfold ret. intros H. apply IH in H; [|exact L].
      cbn [ticks lock_dir scratch lastsync_txt store events] in H.
      destruct H as (A & B & C & D & E & new & F & G).
      cbn [events] in F.
      split; [exact A|split; [exact B|split; [exact C|split; [exact D|split; [exact E|]]]]].
      exists (Log logger INFO [Lit msg] :: Sleep (10 + (i + 1) ^ 2) :: new).
      split; [rewrite F, <- !app_assoc; reflexivity|].
      constructor; [exact I|constructor; [exact I|exact G]].
Qed.

(** X12 ([Sync.acquire_lock], mutual exclusion). While the lock directory
    exists [acquire_lock] never returns and never touches it: it waits
    (or is interrupted), creates nothing and removes nothing, and there is
    no timeout after which a stale lock is taken over. With the lock free
    it returns at once, without waiting, having created an empty lock
    directory. *)
Theorem acquire_lock_exclusive env fuel s w o w' :
  acquire_lock env fuel s w = (o, w') ->
  (lock_dir w = true ->
   (o = Hangs \/ o = Raised KeyboardInterrupt) /\
   lock_dir w' = true /\ scratch w' = scratch w /\
   grows (fun ev => match ev with Mkdir _ | Rmdir _ _ => False | _ => True end) w w') /\
  (lock_dir w = false ->
   o = Return tt /\ lock_dir w' = true /\ scratch w' = [] /\
   sleeps w' = sleeps w /\
   events w' = events w ++ [Mkdir (lock_path (configuration s))]).
Proof.
  intros H. split; intros L.
  - unfold acquire_lock, bind in H.
    destruct (poll env fuel 0 lock_dir _ _ w) as [o1 w1] eqn:Hp.
    destruct (poll_locked _ _ _ _ _ _ _ _ L Hp) as ([->| ->] & A & B & _ & _ & G);
      injection H as <- <-; auto.
  - rewrite acquire_lock_free in H by exact L. injection H as <- <-.
    cbn. repeat split. unfold sleeps. cbn. rewrite flat_map_app. cbn.
    now rewrite app_nil_r.
Qed.

Lemma acquire_lock_exclusive_witness :
  let r := acquire_lock (sample_env false false false) 3
             (new_Sync (sample_config false false)) locked_world in
  (lock_dir locked_world = true ->
   (fst r = Hangs \/ fst r = Raised KeyboardInterrupt) /\
   lock_dir (snd r) = true /\ scratch (snd r) = scratch locked_world /\
   grows (fun ev => match ev with Mkdir _ | Rmdir _ _ => False | _ => True end)
         locked_world (snd r)) /\
  (lock_dir locked_world = false ->
   fst r = Return tt /\ lock_dir (snd r) = true /\ scratch (snd r) = [] /\
   sleeps (snd r) = sleeps locked_world /\
   events (snd r) =
     events locked_world ++
     [Mkdir (lock_path (configuration (new_Sync (sample_config false false))))]).
Proof.
  intros r.
  apply (acquire_lock_exclusive (sample_env false false false) 3
           (new_Sync (sample_config false false)) locked_world (fst r) (snd r)).
  apply surjective_pairing.
Defined.

(** X13 ([Sync.acquire_lock] and [wait_for_folder], the back-off). With
    no interrupt, a wait for a lock that stays, or for a folder that stays
    away, goes on for as long as it is followed, and its [k]-th sleep lasts
    [10 + k ** 2] seconds: 11, 14, 19, 26, ... When the folder exists,
    [wait_for_folder] returns at once and leaves the world as it is. *)
Theorem waits_back_off env fuel s cfg w :
  (forall n, interrupt env n = false) ->
  (lock_dir w = true ->
   exists w', acquire_lock env fuel s w = (Hangs, w') /\
              sleeps w' = sleeps w ++ backoff 0 fuel) /\
  (folder_exists env (folder cfg) = false ->
   exists w', wait_for_folder env fuel cfg w = (Hangs, w') /\
              sleeps w' = sleeps w ++ backoff 0 fuel) /\
  (folder_exists env (folder cfg) = true ->
   wait_for_folder env fuel cfg w = (Return tt, w)).
Proof.
  intros Ni. split; [|split].
  - intros L.
    destruct (poll_waits env lock_dir logger_syncer
                "Sync Lock exists. Check whether this is desired and otherwise remove the .rclouned/sync.tmp/ folder. Waiting."
                (fun _ _ _ => eq_refl) Ni fuel 0 w L) as (w' & H & S1 & _).
    exists w'. split; [|exact S1]. unfold acquire_lock, bind. now rewrite H.
  - intros F.
    destruct (poll_waits env (fun _ => negb (folder_exists env (folder cfg)))
                logger_main "Folder does not exist. Waiting."
                (fun _ _ _ => eq_refl) Ni fuel 0 w) as (w' & H & S1 & _).
    + now rewrite F.
    + exists w'. split; [exact H|exact S1].
  - intros F. unfold wait_for_folder. destruct fuel; simpl; now rewrite F.
Qed.

Lemma waits_back_off_witness :
  (lock_dir locked_world = true ->
   exists w', acquire_lock unmounted_env 4 (new_Sync (sample_config false false))
                locked_world = (Hangs, w') /\
              sleeps w' = sleeps locked_world ++ backoff 0 4) /\
  (folder_exists unmounted_env (folder (sample_config false false)) = false ->
   exists w', wait_for_folder unmounted_env 4 (sample_config false false)
                locked_world = (Hangs, w') /\
              sleeps w' = sleeps locked_world ++ backoff 0 4) /\
  (folder_exists unmounted_env (folder (sample_config false false)) = true ->
   wait_for_folder unmounted_env 4 (sample_config false false) locked_world =
   (Return tt, locked_world)).
Proof.
  apply (waits_back_off unmounted_env 4 (new_Sync (sample_config false false))
           (sample_config false false) locked_world).
  intros n. reflexivity.
Defined.

(** X14 ([Sync.acquire_lock] then [Sync.release_lock], round trip). Taking
    a free lock and releasing it straight away returns, leaves the lock free
    and the world as it was, but for the record of one [mkdir] and one
    successful [rmdir] of the lock directory. *)
Theorem acquire_then_release env fuel s w :
  lock_dir w = false ->
  (acquire_lock env fuel s ;; release_lock s) w =
  (Return tt,
   mk_world (ticks w) false [] (lastsync_txt w) (store w)
     (events w ++ [Mkdir (lock_path (configuration s));
                   Rmdir (lock_path (configuration s)) true])).
Proof.
  intros L. unfold bind. rewrite acquire_lock_free by exact L.
  unfold release_lock, try_except, os_rmdir, emit. cbn.
  now rewrite <- app_assoc.
Qed.

Lemma acquire_then_release_witness :
  (acquire_lock (sample_env false false false) 3 one_upload ;;
   release_lock one_upload) sample_world =
  (Return tt,
   mk_world (ticks sample_world) false [] (lastsync_txt sample_world)
     (store sample_world)
     (events sample_world ++ [Mkdir (lock_path (configuration one_upload));
                              Rmdir (lock_path (configuration one_upload)) true])).
Proof.
  apply (acquire_then_release (sample_env false false false) 3 one_upload sample_world).
  reflexivity.
Defined.

(** ** Child processes *)

(** X15 ([Sync.exec_cmd], the three ways it ends). Every call logs the
    command line and spawns it once. A program that cannot be started gives
    [FileNotFoundError]; a checked command that exits with a status other
    than zero gives [CalledProcessError], and then neither its status nor
    its output is logged; in every other case the status and the output are
    logged and the output is returned, whatever the status. *)
Theorem exec_cmd_outcome env cmd check_ec w :
  exists o w',
    exec_cmd env cmd check_ec w = (o, w') /\
    ticks w' = S (ticks w) /\
    match subprocess env (ticks w) cmd (scratch w) (store w) with
    | NoSuchProgram =>
        o = Raised (FileNotFoundError (hd "" cmd)) /\
        events w' = events w ++ [log_running cmd; Exec cmd (scratch w) (store w)]
    | Completed c =>
        if check_ec && negb (returncode c =? 0)%Z then
          o = Raised (CalledProcessError cmd (returncode c)) /\
          events w' = events w ++ [log_running cmd; Exec cmd (scratch w) (store w)]
        else
          o = Return (stdout c) /\
          events w' =
            events w ++ [log_running cmd; Exec cmd (scratch w) (store w)] ++
            log_returned c
    end.
Proof.
  unfold exec_cmd, bind, log, emit, subprocess_run, ret, log_running, log_returned.
  cbn [ticks lock_dir scratch lastsync_txt store events].
  destruct (subprocess env (ticks w) cmd (scratch w) (store w)) as [|c].
  - eexists _, _. split; [reflexivity|]. cbn. rewrite <- app_assoc. auto.
  - destruct (check_ec && negb (returncode c =? 0)%Z).
    + eexists _, _. split; [reflexivity|]. cbn. rewrite <- app_assoc. auto.
    + eexists _, _. split; [reflexivity|]. cbn. rewrite <- !app_assoc. auto.
Qed.

Lemma get_remove_same {V} (d : PyDict.t V) k : PyDict.get (remove_key d k) k = None.
Proof.
  induction d as [|[k0 v0] rest IH]; simpl; [reflexivity|].
  destruct (String.eqb k0 k) eqn:E; [exact IH|]. simpl. now rewrite E.
Qed.

Lemma get_remove_other {V} (d : PyDict.t V) k k' :
  k <> k' -> PyDict.get (remove_key d k) k' = PyDict.get d k'.
Proof.
  intros N. induction d as [|[k0 v0] rest IH]; simpl; [reflexivity|].
  destruct (String.eqb k0 k) eqn:E.
  - apply String.eqb_eq in E as ->. apply String.eqb_neq in N. now rewrite N.
  - simpl. now rewrite IH.
Qed.

Section CheckErrors.
Variable env : environment.

Local Abbreviation fnf :=
  (post (fun _ _ : world => True) is_FileNotFoundError).

Lemma fnf_bind {A B} (V : A -> Prop) (V' : B -> Prop) (m : M A) (k : A -> M B) :
  fnf V m -> (forall a, V a -> fnf V' (k a)) -> fnf V' (x <- m ;; k x).
Proof. apply post_bind. auto. Qed.

Lemma fnf_log l lvl msg : fnf anything (log l lvl msg).
Proof. intros w o w' [= <- <-]. split; [exact I|rest_of_post]. Qed.

Lemma fnf_now_formatted fmt : fnf anything (now_formatted env fmt).
Proof. intros w o w' [= <- <-]. split; [exact I|rest_of_post]. Qed.

Lemma fnf_open_read cfg name : fnf anything (open_read cfg name).
Proof.
  intros w o w'. unfold open_read.
  destruct (PyDict.get _ _); intros [= <- <-]; (split; [exact I|rest_of_post]).
Qed.

Lemma fnf_os_remove cfg name : fnf anything (os_remove cfg name).
Proof.
  intros w o w'. unfold os_remove.
  destruct (PyDict.get _ _); intros [= <- <-]; (split; [exact I|rest_of_post]).
Qed.

(** An unchecked command fails only when it cannot be started. *)
Lemma fnf_exec_unchecked cmd : fnf anything (exec_cmd env cmd false).
Proof.
  unfold exec_cmd.
  eapply fnf_bind; [apply fnf_log|intros _ _].
  eapply fnf_bind with (V := anything).
  - intros w o w'. unfold subprocess_run.
    destruct (subprocess env _ _ _ _); cbn [andb]; intros [= <- <-];
      (split; [exact I|rest_of_post]).
  - intros exe _.
    eapply fnf_bind; [apply fnf_log|intros _ _].
    eapply fnf_bind; [apply fnf_log|intros _ _].
    apply post_ret; [auto|exact I].
Qed.

Lemma fnf_read_lines cfg name : fnf anything (read_lines cfg name).
Proof.
  unfold read_lines. eapply fnf_bind; [apply fnf_open_read|intros c _].
  apply post_ret; [auto|exact I].
Qed.

Lemma fnf_run_check s : fnf anything (run_check env s).
Proof.
  unfold run_check. cbv zeta.
  eapply fnf_bind; [apply fnf_now_formatted|intros start _].
  eapply fnf_bind; [apply fnf_exec_unchecked|intros out _].
  eapply fnf_bind; [apply fnf_read_lines|intros d1 _].
  eapply fnf_bind; [apply fnf_read_lines|intros d2 _].
  eapply fnf_bind; [apply fnf_read_lines|intros d3 _].
  eapply fnf_bind; [apply fnf_os_remove|intros _ _].
  eapply fnf_bind; [apply fnf_os_remove|intros _ _].
  eapply fnf_bind; [apply fnf_os_remove|intros _ _].
  apply post_ret; [auto|exact I].
Qed.

End CheckErrors.

Lemma run_check_scratch env s w s' w' :
  run_check env s w = (Return s', w') ->
  PyDict.get (scratch w') "diff.txt" = None /\
  PyDict.get (scratch w') "dst.txt" = None /\
  PyDict.get (scratch w') "src.txt" = None.
Proof.
  unfold run_check. cbv zeta. intros H.
  apply bind_Return_inv in H as (start & w1 & _ & H).
  apply bind_Return_inv in H as (out & w2 & _ & H).
  apply bind_Return_inv in H as (d1 & w3 & _ & H).
  apply bind_Return_inv in H as (d2 & w4 & _ & H).
  apply bind_Return_inv in H as (d3 & w5 & _ & H).
  apply bind_Return_inv in H as ([] & w6 & H6 & H).
  apply bind_Return_inv in H as ([] & w7 & H7 & H).
  apply bind_Return_inv in H as ([] & w8 & H8 & H).
  unfold ret in H. injection H as _ <-.
  apply os_remove_ret in H6, H7, H8. subst w8 w7 w6. cbn [scratch with_scratch].
  split; [|split].
  - rewrite !get_remove_other by discriminate. apply get_remove_same.
  - rewrite get_remove_other by discriminate. apply get_remove_same.
  - apply get_remove_same.
Qed.



(** X17 ([Sync.exec_rclone], the command line). The command line is
    [rclone], the words of the configured options, the dry-run flag, and the
    subcommand with its arguments, in this order. A word of the options is
    never empty and holds no space, so leading, trailing and repeated spaces
    add no argument. The flag is there exactly when dry-run is on and the
    subcommand is not [check]: the check runs for real in both modes. *)
Theorem rclone_cmd_shape cfg c :
  rclone_cmd cfg c =
    "rclone" :: base_opts cfg ++
    (if dryrun cfg && negb (String.eqb (hd "" c) "check")
     then ["--dry-run"] else []) ++ c /\
  Forall (fun x => x <> "" /\ contains " " x = false) (base_opts cfg) /\
  join " " (split_on " " (options cfg)) = options cfg /\
  rclone_cmd cfg (check_cmd cfg) = "rclone" :: base_opts cfg ++ check_cmd cfg.
Proof.
  split; [|split; [|split]].
  - unfold rclone_cmd, rclone_opts, base_opts.
    destruct (dryrun cfg && _); cbn [app]; [now rewrite <- app_assoc|reflexivity].
  - unfold base_opts. apply Forall_forall. intros x Hx.
    apply filter_In in Hx as [Hx Hn]. split.
    + intros ->. discriminate Hn.
    + pose proof (split_from_pieces " " (options cfg) "" eq_refl) as F.
      rewrite Forall_forall in F. now apply F.
  - apply join_split_on.
  - unfold rclone_cmd. now rewrite rclone_opts_check.
Qed.

(** ** The driver *)

(** X18 ([sync_loop], the pause between two cycles). The loop sleeps for
    what is left of the interval, rounded down to whole seconds, and only
    when that is not negative: a cycle that overran the interval is followed
    by the next one at once, and [time.sleep] never gets a negative
    argument. An interrupt during this sleep ends the process with exit
    status 0; otherwise the round returns. *)
Theorem pace_sleeps env cfg start w o w' :
  pace env cfg start w = (o, w') ->
  let rest := (interval cfg - (time_time env (ticks w) - start))%Q in
  ((rest < 0)%Q -> o = Return tt /\ sleeps w' = sleeps w) /\
  ((0 <= rest)%Q ->
   sleeps w' = sleeps w ++ [Qfloor rest] /\ (0 <= Qfloor rest)%Z /\
   o = if interrupt env (S (ticks w)) then Raised (SystemExit 0) else Return tt).
Proof.
  intros H rest.
  unfold pace, now_seconds, sleep, try_except, bind, instant, ret, raise, log,
    emit in H.
  cbv beta iota delta [ticks lock_dir scratch lastsync_txt store events] in H.
  fold (ticks w) (events w) (lock_dir w) (scratch w) (lastsync_txt w) (store w) in H.
  fold rest in H.
  destruct (Qle_bool 0 rest) eqn:Q; cbn [negb] in H.
  - apply Qle_bool_iff in Q. split.
    + intros Lt. now apply Qlt_not_le in Lt.
    + intros _. assert (F : (0 <= Qfloor rest)%Z).
      { change 0%Z with (Qfloor 0). now apply Qfloor_resp_le. }
      destruct (interrupt env (S (ticks w)));
        cbv beta iota delta [ticks lock_dir scratch lastsync_txt store events] in H;
        injection H as <- <-;
        unfold sleeps; cbn [events]; rewrite !flat_map_app;
        cbn [flat_map sleep_of app]; rewrite ?app_nil_r;
        (split; [reflexivity|split; [exact F|reflexivity]]).
  - split.
    + intros _. injection H as <- <-. unfold sleeps; cbn [events].
      rewrite flat_map_app. cbn [flat_map sleep_of app]. now rewrite app_nil_r.
    + intros Le. apply Qle_bool_iff in Le. congruence.
Qed.

Lemma pace_sleeps_witness :
  let env := sample_env false false false in
  let cfg := sample_config false false in
  let r := pace env cfg (2 # 1) locked_world in
  let rest := (interval cfg - (time_time env (ticks locked_world) - (2 # 1)))%Q in
  ((rest < 0)%Q -> fst r = Return tt /\ sleeps (snd r) = sleeps locked_world) /\
  ((0 <= rest)%Q ->
   sleeps (snd r) = sleeps locked_world ++ [Qfloor rest] /\ (0 <= Qfloor rest)%Z /\
   fst r = if interrupt env (S (ticks locked_world))
           then Raised (SystemExit 0) else Return tt).
Proof.
  intros env cfg r.
  apply (pace_sleeps env cfg (2 # 1) locked_world (fst r) (snd r)).
  apply surjective_pairing.
Defined.

(** X19 ([main], exit status). No exception of class [Exception] leaves
    [main]: whichever statement of the [try] raised it, it is logged as
    critical, with its traceback, and the process exits with status 1.
    What is not an [Exception] (the [SystemExit] of an interrupted pause,
    a [KeyboardInterrupt] during a wait) passes through untouched. *)
Theorem main_outcome env fuel rounds folder_arg w o w' :
  main env fuel rounds folder_arg w = (o, w') ->
  (forall e, o = Raised e -> is_Exception e = false) /\
  (forall e w1,
     main_body env fuel rounds folder_arg w = (Raised e, w1) ->
     if is_Exception e
     then o = Raised (SystemExit 1) /\ events w' = events w1 ++ log_critical e /\
          lock_dir w' = lock_dir w1 /\ lastsync_txt w' = lastsync_txt w1
     else o = Raised e /\ w' = w1) /\
  (forall w1, main_body env fuel rounds folder_arg w = (Return tt, w1) ->
              o = Return tt /\ w' = w1).
Proof.
  unfold main, try_except. cbv zeta. fold (main_body env fuel rounds folder_arg).
  destruct (main_body env fuel rounds folder_arg w) as [[[]|e|] w1] eqn:B.
  - intros [= <- <-]. split; [discriminate|]. split; [discriminate|].
    now intros ? [= <-].
  - destruct (is_Exception e) eqn:X.
    + unfold bind, log, log_exception, log, emit, raise. intros [= <- <-].
      split; [now intros ? [= <-]|]. split; [|discriminate].
      intros e0 w0 [= <- <-]. rewrite X. cbn. rewrite <- app_assoc. auto.
    + intros [= <- <-]. split; [intros ? [= <-]; exact X|]. split; [|discriminate].
      intros e0 w0 [= <- <-]. rewrite X. auto.
  - intros [= <- <-]. split; [discriminate|]. split; discriminate.
Qed.

Lemma main_outcome_witness :
  let env := sample_env true false false in
  let r := main env 3 2 "/data" sample_world in
  (forall e, fst r = Raised e -> is_Exception e = false) /\
  (forall e w1,
     main_body env 3 2 "/data" sample_world = (Raised e, w1) ->
     if is_Exception e
     then fst r = Raised (SystemExit 1) /\ events (snd r) = events w1 ++ log_critical e /\
          lock_dir (snd r) = lock_dir w1 /\ lastsync_txt (snd r) = lastsync_txt w1
     else fst r = Raised e /\ snd r = w1) /\
  (forall w1, main_body env 3 2 "/data" sample_world = (Return tt, w1) ->
              fst r = Return tt /\ snd r = w1).
Proof.
  intros env r.
  apply (main_outcome env 3 2 "/data" sample_world (fst r) (snd r)).
  apply surjective_pairing.
Defined.

Lemma last_char_slash s : last_char (s +++ "/") = Some "/"%char.
Proof.
  induction s as [|c s IH]; [reflexivity|].
  change (last_char (String c (s +++ "/")) = Some "/"%char).
  destruct (s +++ "/") eqn:E; [destruct s; discriminate|exact IH].
Qed.

Lemma set_folder_same cfg : set_folder (folder cfg) cfg = cfg.
Proof. now destruct cfg. Qed.

(** X20 ([parse_config]). Parsing the configuration changes nothing in the
    world. An empty folder name raises [IndexError]. When a configuration is
    returned, its remote is not empty, and the [.rclouned] directory and the
    [config.yaml] file were looked for, and found, under the folder name as
    given when it ends with a slash, and under the folder name with one
    slash added when it does not. *)
Theorem parse_config_outcome env cfg w o w' :
  parse_config env cfg w = (o, w') ->
  w' = w /\ o <> Hangs /\
  (folder cfg = "" -> o = Raised IndexError) /\
  (forall cfg', o = Return cfg' ->
     remote cfg' <> "" /\
     exists f,
       (last_char (folder cfg) = Some "/"%char -> f = folder cfg) /\
       (last_char (folder cfg) <> Some "/"%char -> f = folder cfg +++ "/") /\
       last_char f = Some "/"%char /\
       isdir env (f +++ ".rclouned/") = true /\
       isfile env (f +++ ".rclouned/config.yaml") = true /\
       yaml_merge env (f +++ ".rclouned/config.yaml") (set_folder f cfg) = Ok cfg').
Proof.
  unfold parse_config, bind, lift, ret, raise.
  destruct (last_char (folder cfg)) as [c|] eqn:L.
  2:{ intros [= <- <-]. split; [reflexivity|split; [discriminate|split]].
      - reflexivity.
      - discriminate. }
  cbv zeta.
  assert (N : folder cfg = "" -> False).
  { intros F. rewrite F in L. discriminate. }
  set (cfg1 := if Ascii.eqb c "/" then cfg else set_folder (folder cfg +++ "/") cfg).
  assert (C1 : (Some c = Some "/"%char -> folder cfg1 = folder cfg) /\
               (Some c <> Some "/"%char -> folder cfg1 = folder cfg +++ "/") /\
               last_char (folder cfg1) = Some "/"%char /\
               cfg1 = set_folder (folder cfg1) cfg).
  { unfold cfg1. destruct (Ascii.eqb c "/") eqn:E.
    - apply Ascii.eqb_eq in E. subst c. rewrite set_folder_same.
      split; [reflexivity|split; [congruence|split; [exact L|reflexivity]]].
    - apply Ascii.eqb_neq in E. cbn [folder set_folder]. rewrite last_char_slash.
      split; [congruence|split; [reflexivity|split; reflexivity]]. }
  destruct C1 as (Cy & Cn & Cl & Cs).
  destruct (isdir env (folder cfg1 +++ ".rclouned/")) eqn:D; cbn [negb].
  2:{ intros [= <- <-]. split; [reflexivity|split; [discriminate|split]].
      - intros F. now destruct (N F).
      - discriminate. }
  destruct (isfile env (folder cfg1 +++ ".rclouned/config.yaml")) eqn:F; cbn [negb].
  2:{ intros [= <- <-]. split; [reflexivity|split; [discriminate|split]].
      - intros F0. now destruct (N F0).
      - discriminate. }
  destruct (yaml_merge env _ cfg1) as [cfg2|e] eqn:Y.
  2:{ intros [= <- <-]. split; [reflexivity|split; [discriminate|split]].
      - intros F0. now destruct (N F0).
      - discriminate. }
  destruct (String.length (remote cfg2) =? 0)%nat eqn:R.
  - intros [= <- <-]. split; [reflexivity|split; [discriminate|split]].
    + intros F0. now destruct (N F0).
    + discriminate.
  - intros [= <- <-]. split; [reflexivity|split; [discriminate|split]].
    + intros F0. now destruct (N F0).
    + intros cfg' [= <-]. split.
      * intros Z. rewrite Z in R. discriminate.
      * exists (folder cfg1). rewrite <- Cs.
        split; [exact Cy|split; [exact Cn|split; [exact Cl|split; [exact D|split;
          [exact F|exact Y]]]]].
Qed.

Lemma parse_config_outcome_witness :
  let env := sample_env false false false in
  let cfg := set_folder "/data" default_config in
  let r := parse_config env cfg sample_world in
  snd r = sample_world /\ fst r <> Hangs /\
  (folder cfg = "" -> fst r = Raised IndexError) /\
  (forall cfg', fst r = Return cfg' ->
     remote cfg' <> "" /\
     exists f,
       (last_char (folder cfg) = Some "/"%char -> f = folder cfg) /\
       (last_char (folder cfg) <> Some "/"%char -> f = folder cfg +++ "/") /\
       last_char f = Some "/"%char /\
       isdir env (f +++ ".rclouned/") = true /\
       isfile env (f +++ ".rclouned/config.yaml") = true /\
       yaml_merge env (f +++ ".rclouned/config.yaml") (set_folder f cfg) = Ok cfg').
Proof.
  intros env cfg r.
  apply (parse_config_outcome env cfg sample_world (fst r) (snd r)).
  apply surjective_pairing.
Defined.

(** ** A round that finds the lock taken *)

Lemma poll_quiet env blocked logger msg : forall fuel i w o w',
  poll env fuel i blocked logger msg w = (o, w') -> grows waiting_event w w'.
Proof.
  induction fuel as [|fuel IH]; intros i w o w'; cbn [poll];
    destruct (blocked w); try (intros [= <- <-]; apply grows_refl).
  unfold bind at 1. unfold log, emit. unfold bind at 1.
  unfold sleep, bind at 1, instant. unfold bind at 1, emit.
  cbn [ticks lock_dir scratch lastsync_txt store events].
  destruct (interrupt env (ticks w)).
  - unfold raise. intros [= <- <-].
    exists [Log logger INFO [Lit msg]; Sleep (10 + (i + 1) ^ 2)].
    cbn [events]. rewrite <- app_assoc. split; [reflexivity|].
    constructor; [exact I|constructor; [exact I|constructor]].
  - unfold ret. intros H. apply IH in H as (new & F & G). cbn [events] in F.
    exists (Log logger INFO [Lit msg] :: Sleep (10 + (i + 1) ^ 2) :: new).
    split; [rewrite F, <- !app_assoc; reflexivity|].
    constructor; [exact I|constructor; [exact I|exact G]].
Qed.

Lemma waiting_no_commands w w' : grows waiting_event w w' -> commands w' = commands w.
Proof.
  intros (new & E & F). unfold commands. rewrite E, flat_map_app. clear E.
  assert (Z : flat_map command_of new = []).
  { induction F as [|ev rest Hev _ IH]; [reflexivity|].
    cbn [flat_map]. rewrite IH. destruct ev; try contradiction; reflexivity. }
  rewrite Z. apply app_nil_r.
Qed.

(** X21 ([sync_loop] and [Sync.acquire_lock], nothing runs without the
    lock). A round that finds the lock directory in place, be it another
    instance's or the one a failed [release_lock] of this very loop left
    behind, never gets to its cycle: it waits or is interrupted, runs no
    command, and leaves the lock directory, its files, the marker and the
    storage as they were. So does the loop as a whole. *)
Theorem sync_round_waits_for_lock env fuel rounds cfg w o w' :
  lock_dir w = true ->
  sync_loop env fuel (S rounds) cfg w = (o, w') ->
  sync_round env fuel cfg w = (o, w') /\
  (o = Hangs \/ o = Raised KeyboardInterrupt) /\
  commands w' = commands w /\
  lock_dir w' = true /\ scratch w' = scratch w /\
  lastsync_txt w' = lastsync_txt w /\ store w' = store w.
Proof.
  intros L H. cbn [sync_loop] in H. unfold bind in H.
  destruct (sync_round env fuel cfg w) as [o1 w1] eqn:R.
  assert (Q : (o1 = Hangs \/ o1 = Raised KeyboardInterrupt) /\
              commands w1 = commands w /\
              lock_dir w1 = true /\ scratch w1 = scratch w /\
              lastsync_txt w1 = lastsync_txt w /\ store w1 = store w).
  { revert R. unfold sync_round. cbv zeta.
    unfold bind at 1. unfold now_seconds, bind at 1, instant, ret.
    unfold bind at 1. unfold log, emit.
    cbn [ticks lock_dir scratch lastsync_txt store events].
    set (w0 := mk_world _ _ _ _ _ _).
    unfold bind at 1. unfold acquire_lock. unfold bind at 1.
    destruct (poll env fuel 0 lock_dir _ _ w0) as [o2 w2] eqn:P.
    assert (C0 : commands w0 = commands w).
    { unfold commands, w0. cbn [events]. rewrite flat_map_app. cbn.
      apply app_nil_r. }
    assert (C2 : commands w2 = commands w).
    { rewrite <- C0. eapply waiting_no_commands, poll_quiet; eauto. }
    destruct (poll_locked _ _ _ _ _ w0 _ _ L P) as ([->| ->] & A & B & C & D & _);
      intros [= <- <-]; auto 10. }
  destruct Q as ([->| ->] & Q); injection H as <- <-; auto.
Qed.

Lemma sync_round_waits_for_lock_witness :
  let env := sample_env false false false in
  let cfg := sample_config false false in
  let r := sync_loop env 3 2 cfg locked_world in
  sync_round env 3 cfg locked_world = r /\
  (fst r = Hangs \/ fst r = Raised KeyboardInterrupt) /\
  commands (snd r) = commands locked_world /\
  lock_dir (snd r) = true /\ scratch (snd r) = scratch locked_world /\
  lastsync_txt (snd r) = lastsync_txt locked_world /\
  store (snd r) = store locked_world.
Proof.
  intros env cfg r.
  destruct (sync_round_waits_for_lock env 3 1 cfg locked_world (fst r) (snd r)
              eq_refl (surjective_pairing r)) as (A & B).
  split; [|exact B]. rewrite A. symmetry. apply surjective_pairing.
Defined.

(** ** The boundary of the comparison with lastsync *)

Lemma tuple_compare_refl l : tuple_compare l l = Eq.
Proof.
  induction l as [|x l IH]; simpl; [reflexivity|]. now rewrite Z.compare_refl.
Qed.

Lemma time_ge_refl t : time_ge t t = true.
Proof. unfold time_ge. now rewrite tuple_compare_refl. Qed.

Lemma time_lt_irrefl t : time_lt t t = false.
Proof. unfold time_lt. now rewrite tuple_compare_refl. Qed.

Lemma not_remote_only_at_lastsync s p :
  PyDict.get (local_check s) p = Some (Some (lastsync s)) ->
  diff_verdict s p <> Some RemoteOnly.
Proof.
  intros Hl. unfold diff_verdict. rewrite (known_get _ _ _ Hl).
  destruct (known (remote_check s) p) as [rt|]; [|discriminate].
  unfold classify. rewrite time_ge_refl, time_lt_irrefl. cbn [andb].
  destruct (time_lt rt (lastsync s)); discriminate.
Qed.

Lemma not_local_only_at_lastsync s p :
  PyDict.get (remote_check s) p = Some (Some (lastsync s)) ->
  diff_verdict s p <> Some LocalOnly.
Proof.
  intros Hr. unfold diff_verdict. rewrite (known_get _ _ _ Hr).
  destruct (known (local_check s) p) as [lt|]; [|discriminate].
  unfold classify. rewrite time_ge_refl, time_lt_irrefl.
  rewrite andb_false_r, andb_true_r.
  destruct (time_lt lt (lastsync s)); discriminate.
Qed.

(** X22 ([Sync.sort], a modtime equal to lastsync). The comparisons with
    lastsync are [>=] and [<], so a file modified at the very second of the
    last sync counts as changed since then: a differing path with both
    modtimes equal to lastsync is a conflict and is in neither backup list;
    an orphan with that modtime is propagated to the other side (Upload for
    a path missing on the remote, Download for a path missing locally) and
    is not in the backup list of its side. *)
Theorem sort_modtime_equal_to_lastsync stamp s s' p :
  sort stamp s = Ok s' ->
  (In p (diff s) ->
   PyDict.get (local_check s) p = Some (Some (lastsync s)) ->
   PyDict.get (remote_check s) p = Some (Some (lastsync s)) ->
   In (p, p +++ conflict_suffix_of stamp) (local_move s') /\
   In p (download s') /\ In (p +++ conflict_suffix_of stamp) (upload s') /\
   ~ In p (local_backup s') /\ ~ In p (remote_backup s')) /\
  (In p (src s) ->
   PyDict.get (local_check s) p = Some (Some (lastsync s)) ->
   In p (upload s') /\ ~ In p (local_backup s')) /\
  (In p (dst s) ->
   PyDict.get (remote_check s) p = Some (Some (lastsync s)) ->
   In p (download s') /\ ~ In p (remote_backup s')).
Proof.
  intros H.
  assert (NL : PyDict.get (local_check s) p = Some (Some (lastsync s)) ->
               ~ In p (local_backup s')).
  { intros Hl Hb. apply (in_local_backup stamp s s' H) in Hb.
    destruct Hb as [(_ & V & _)|(_ & t & Ht & Hge)].
    - exact (not_remote_only_at_lastsync s p Hl V).
    - rewrite (known_get _ _ _ Hl) in Ht. injection Ht as <-.
      rewrite time_ge_refl in Hge. discriminate. }
  assert (NR : PyDict.get (remote_check s) p = Some (Some (lastsync s)) ->
               ~ In p (remote_backup s')).
  { intros Hr Hb. apply (in_remote_backup stamp s s' H) in Hb.
    destruct Hb as [(_ & V & _)|(_ & t & Ht & Hge)].
    - exact (not_local_only_at_lastsync s p Hr V).
    - rewrite (known_get _ _ _ Hr) in Ht. injection Ht as <-.
      rewrite time_ge_refl in Hge. discriminate. }
  split; [|split].
  - intros Hp Hl Hr.
    assert (V : diff_verdict s p = Some Conflict).
    { rewrite (diff_verdict_classify s p _ _ Hl Hr). unfold classify.
      now rewrite time_ge_refl, time_lt_irrefl. }
    split; [|split; [|split; [|split]]].
    + apply (in_local_move stamp s s' H). cbn [fst snd]. auto.
    + apply (in_download stamp s s' H). left. auto.
    + apply (in_upload stamp s s' H). right; left. exists p. auto.
    + exact (NL Hl).
    + exact (NR Hr).
  - intros Hp Hl. split; [|exact (NL Hl)].
    apply (in_upload stamp s s' H). right; right.
    split; [exact Hp|]. exists (lastsync s).
    split; [now apply known_get|apply time_ge_refl].
  - intros Hp Hr. split; [|exact (NR Hr)].
    apply (in_download stamp s s' H). right.
    split; [exact Hp|]. exists (lastsync s).
    split; [now apply known_get|apply time_ge_refl].
Qed.

Lemma sort_modtime_equal_to_lastsync_witness :
  let s' := sorted stamp0 at_lastsync in
  (In ("a.txt", "a.txt" +++ conflict_suffix_of stamp0) (local_move s') /\
   In "a.txt" (download s') /\ In ("a.txt" +++ conflict_suffix_of stamp0) (upload s') /\
   ~ In "a.txt" (local_backup s') /\ ~ In "a.txt" (remote_backup s')) /\
  (In "c.txt" (upload s') /\ ~ In "c.txt" (local_backup s')) /\
  (In "g.txt" (download s') /\ ~ In "g.txt" (remote_backup s')).
Proof.
  intros s'.
  assert (Hs : sort stamp0 at_lastsync = Ok s') by (vm_compute; reflexivity).
  split; [|split].
  - apply (proj1 (sort_modtime_equal_to_lastsync stamp0 at_lastsync s' "a.txt" Hs));
      [left; reflexivity|reflexivity|reflexivity].
  - apply (proj1 (proj2 (sort_modtime_equal_to_lastsync stamp0 at_lastsync s' "c.txt" Hs)));
      [left; reflexivity|reflexivity].
  - apply (proj2 (proj2 (sort_modtime_equal_to_lastsync stamp0 at_lastsync s' "g.txt" Hs)));
      [left; reflexivity|reflexivity].
Defined.
